(** * Projeto-CG: the lane-runner engine of [Game/movimentoPersonagem.js]

    A shallow embedding of the world-streaming, traffic, collision, scoring
    and session logic that lives inside [main] of
    [src/Game/movimentoPersonagem.js], of the helpers [normalizeModel] and
    [crossProduct] of the same file, and the properties the specification
    states about them, followed by further properties read off the code.

    Modelling decisions.
    - JavaScript numbers are modelled as exact rationals [Q]; rounding of
      IEEE doubles is not modelled.  Every concrete input used below is a
      dyadic or short decimal value.
    - The closure variables of [main] that the engine mutates are the fields
      of the record [Game]; the three collections and the random source,
      which are all the terrain functions touch, are grouped in its field
      [world].  Every function of the source becomes a function on [Game]
      or on [World] (explicit state passing).
    - [Math.random()] reads the next element of a sequence of draws
      [rng : nat -> Q]; the number of calls made so far is the field
      [randomCalls].
    - WebGL calls, matrices and [console.log] have no effect on the engine
      state and are left out; the DOM fields the engine writes
      (score text, final score text, modal visibility, pause button label)
      are fields of [Game]. *)

From Stdlib Require Import QArith Qround Qabs ZArith List Bool String Ascii.
From Stdlib Require Import Lia Lqa Sorted.
Import ListNotations.

Local Open Scope Q_scope.

(** ** Comparisons on numbers *)

(** [a < b] on numbers, as a boolean. *)
Definition Qltb (a b : Q) : bool := negb (Qle_bool b a).

(** [a > b], [a <= b], [a >= b] and [a === b]. *)
Definition Qgtb (a b : Q) : bool := Qltb b a.
Definition Qleb (a b : Q) : bool := Qle_bool a b.
Definition Qgeb (a b : Q) : bool := Qle_bool b a.
Definition Qeqb (a b : Q) : bool := Qeq_bool a b.

(** [Math.floor], as a number again. *)
Definition floor (a : Q) : Q := inject_Z (Qfloor a).

(** ** Data model *)

(** The object literal [player]. *)
Record Player := mkPlayer {
  p_x : Q;
  p_y : Q;
  p_z : Q;
  p_scale : Q;
  p_rotationY : Z;
  p_modelIndex : Z
}.

(** The objects pushed on [trees] by [spawnTreesOnRow]. *)
Record Tree := mkTree {
  tree_x : Q;
  tree_y : Q;
  tree_z : Q;
  tree_scale : Q;
  tree_modelIndex : Z
}.

(** The objects pushed on [cars] by [spawnCarsOnRow]. *)
Record Car := mkCar {
  car_x : Q;
  car_y : Q;
  car_z : Q;
  car_speed : Q;
  car_direction : Q;
  car_minZ : Q;
  car_maxZ : Q;
  car_scale : Q;
  car_modelIndex : Z
}.

Inductive RowType := grass | road.

(** The objects returned by [createRow].  [direction] and [speed] are
    [null] on grass rows.  The field [cars: []] of the source is never read
    or written again and is left out. *)
Record Row := mkRow {
  row_x : Q;
  row_type : RowType;
  row_modelIndex : Z;
  row_direction : option Q;
  row_speed : option Q
}.

Inductive ProjectionMode := ortho | perspective.

(** The collections of [main] that the terrain functions fill and prune,
    with the number of calls of [Math.random()] made so far. *)
Record World := mkWorld {
  trees : list Tree;
  cars : list Car;
  terrainRows : list Row;
  randomCalls : nat
}.

(** The mutable variables of [main]. *)
Record Game := mkGame {
  world : World;
  player : Player;
  isPaused : bool;
  isGameOver : bool;
  maxDistanceX : Q;
  cameraX : Q;
  lastTime : option Q;  (* [None] is [null] *)
  projectionMode : ProjectionMode;
  cameraMode : Z;
  V : Q * Q * Q;  (* the up vector of the camera *)
  frameCount : Z;
  scoreText : Z;  (* [scoreElement.textContent] *)
  finalScoreText : Z;  (* [finalScoreElement.textContent] *)
  modalHidden : bool;  (* "hidden" is in [gameOverModal.classList] *)
  pauseBtnText : string  (* [pauseBtn.textContent] *)
}.

(** Field updates. *)
Definition set_trees (v : list Tree) (w : World) : World :=
  mkWorld v (cars w) (terrainRows w) (randomCalls w).
Definition set_cars (v : list Car) (w : World) : World :=
  mkWorld (trees w) v (terrainRows w) (randomCalls w).
Definition set_terrainRows (v : list Row) (w : World) : World :=
  mkWorld (trees w) (cars w) v (randomCalls w).
Definition set_randomCalls (v : nat) (w : World) : World :=
  mkWorld (trees w) (cars w) (terrainRows w) v.
Definition set_world (v : World) (g : Game) : Game :=
  mkGame v (player g) (isPaused g) (isGameOver g) (maxDistanceX g) (cameraX g)
    (lastTime g) (projectionMode g) (cameraMode g) (V g) (frameCount g)
    (scoreText g) (finalScoreText g) (modalHidden g) (pauseBtnText g).
Definition set_player (v : Player) (g : Game) : Game :=
  mkGame (world g) v (isPaused g) (isGameOver g) (maxDistanceX g) (cameraX g)
    (lastTime g) (projectionMode g) (cameraMode g) (V g) (frameCount g)
    (scoreText g) (finalScoreText g) (modalHidden g) (pauseBtnText g).
Definition set_isPaused (v : bool) (g : Game) : Game :=
  mkGame (world g) (player g) v (isGameOver g) (maxDistanceX g) (cameraX g)
    (lastTime g) (projectionMode g) (cameraMode g) (V g) (frameCount g)
    (scoreText g) (finalScoreText g) (modalHidden g) (pauseBtnText g).
Definition set_isGameOver (v : bool) (g : Game) : Game :=
  mkGame (world g) (player g) (isPaused g) v (maxDistanceX g) (cameraX g)
    (lastTime g) (projectionMode g) (cameraMode g) (V g) (frameCount g)
    (scoreText g) (finalScoreText g) (modalHidden g) (pauseBtnText g).
Definition set_maxDistanceX (v : Q) (g : Game) : Game :=
  mkGame (world g) (player g) (isPaused g) (isGameOver g) v (cameraX g)
    (lastTime g) (projectionMode g) (cameraMode g) (V g) (frameCount g)
    (scoreText g) (finalScoreText g) (modalHidden g) (pauseBtnText g).
Definition set_cameraX (v : Q) (g : Game) : Game :=
  mkGame (world g) (player g) (isPaused g) (isGameOver g) (maxDistanceX g) v
    (lastTime g) (projectionMode g) (cameraMode g) (V g) (frameCount g)
    (scoreText g) (finalScoreText g) (modalHidden g) (pauseBtnText g).
Definition set_lastTime (v : option Q) (g : Game) : Game :=
  mkGame (world g) (player g) (isPaused g) (isGameOver g) (maxDistanceX g)
    (cameraX g) v (projectionMode g) (cameraMode g) (V g) (frameCount g)
    (scoreText g) (finalScoreText g) (modalHidden g) (pauseBtnText g).
Definition set_projectionMode (v : ProjectionMode) (g : Game) : Game :=
  mkGame (world g) (player g) (isPaused g) (isGameOver g) (maxDistanceX g)
    (cameraX g) (lastTime g) v (cameraMode g) (V g) (frameCount g)
    (scoreText g) (finalScoreText g) (modalHidden g) (pauseBtnText g).
Definition set_cameraMode (v : Z) (g : Game) : Game :=
  mkGame (world g) (player g) (isPaused g) (isGameOver g) (maxDistanceX g)
    (cameraX g) (lastTime g) (projectionMode g) v (V g) (frameCount g)
    (scoreText g) (finalScoreText g) (modalHidden g) (pauseBtnText g).
Definition set_V (v : Q * Q * Q) (g : Game) : Game :=
  mkGame (world g) (player g) (isPaused g) (isGameOver g) (maxDistanceX g)
    (cameraX g) (lastTime g) (projectionMode g) (cameraMode g) v
    (frameCount g) (scoreText g) (finalScoreText g) (modalHidden g)
    (pauseBtnText g).
Definition set_frameCount (v : Z) (g : Game) : Game :=
  mkGame (world g) (player g) (isPaused g) (isGameOver g) (maxDistanceX g)
    (cameraX g) (lastTime g) (projectionMode g) (cameraMode g) (V g) v
    (scoreText g) (finalScoreText g) (modalHidden g) (pauseBtnText g).
Definition set_scoreText (v : Z) (g : Game) : Game :=
  mkGame (world g) (player g) (isPaused g) (isGameOver g) (maxDistanceX g)
    (cameraX g) (lastTime g) (projectionMode g) (cameraMode g) (V g)
    (frameCount g) v (finalScoreText g) (modalHidden g) (pauseBtnText g).
Definition set_finalScoreText (v : Z) (g : Game) : Game :=
  mkGame (world g) (player g) (isPaused g) (isGameOver g) (maxDistanceX g)
    (cameraX g) (lastTime g) (projectionMode g) (cameraMode g) (V g)
    (frameCount g) (scoreText g) v (modalHidden g) (pauseBtnText g).
Definition set_modalHidden (v : bool) (g : Game) : Game :=
  mkGame (world g) (player g) (isPaused g) (isGameOver g) (maxDistanceX g)
    (cameraX g) (lastTime g) (projectionMode g) (cameraMode g) (V g)
    (frameCount g) (scoreText g) (finalScoreText g) v (pauseBtnText g).
Definition set_pauseBtnText (v : string) (g : Game) : Game :=
  mkGame (world g) (player g) (isPaused g) (isGameOver g) (maxDistanceX g)
    (cameraX g) (lastTime g) (projectionMode g) (cameraMode g) (V g)
    (frameCount g) (scoreText g) (finalScoreText g) (modalHidden g) v.

Definition set_p_x (v : Q) (p : Player) : Player :=
  mkPlayer v (p_y p) (p_z p) (p_scale p) (p_rotationY p) (p_modelIndex p).
Definition set_p_z (v : Q) (p : Player) : Player :=
  mkPlayer (p_x p) (p_y p) v (p_scale p) (p_rotationY p) (p_modelIndex p).
Definition set_p_rotationY (r : Z) (p : Player) : Player :=
  mkPlayer (p_x p) (p_y p) (p_z p) (p_scale p) r (p_modelIndex p).
Definition set_car_z (v : Q) (c : Car) : Car :=
  mkCar (car_x c) (car_y c) v (car_speed c) (car_direction c) (car_minZ c)
    (car_maxZ c) (car_scale c) (car_modelIndex c).

(** ** Constants of [main] *)

Definition step : Q := 1.
Definition ROW_DEPTH : Q := 1.
Definition TERRAIN_WIDTH : Q := 31.
Definition DRAW_DISTANCE : Q := 40.
Definition MODEL_GRASS : Z := 6.
Definition MODEL_ROAD : Z := 7.
Definition initialX : Q := -5.
Definition scrollSpeed : Q := 0.2.

(** ** Keyboard input *)

(** [String.prototype.toLowerCase] on the ASCII range, which is where the
    keys the handler dispatches on lie. *)
Definition lower_ascii (c : ascii) : ascii :=
  let n := nat_of_ascii c in
  if (65 <=? n)%nat && (n <=? 90)%nat then ascii_of_nat (n + 32) else c.

Fixpoint toLowerCase (s : string) : string :=
  match s with
  | EmptyString => EmptyString
  | String c s' => String (lower_ascii c) (toLowerCase s')
  end.

(** The fields of a [keydown] event the handler reads. *)
Record KeyEvent := mkKeyEvent {
  ev_repeat : bool;
  ev_key : string
}.

(** [checkCollisionWithTrees(newX, newZ)] *)
Definition checkCollisionWithTrees (g : Game) (newX newZ : Q) : bool :=
  let COLLISION_SIZE := 0.5 in
  existsb (fun tree =>
             Qltb (Qabs (tree_x tree - newX)) COLLISION_SIZE
             && Qltb (Qabs (tree_z tree - newZ)) COLLISION_SIZE)
          (trees (world g)).

(** [checkCollisionWithCars(newX, newZ)] *)
Definition checkCollisionWithCars (g : Game) (newX newZ : Q) : bool :=
  let COLLISION_SIZE := 0.7 in
  existsb (fun car =>
             Qltb (Qabs (car_x car - newX)) COLLISION_SIZE
             && Qltb (Qabs (car_z car - newZ)) COLLISION_SIZE)
          (cars (world g)).

(** [keyDown(event)].  [updateProjection()] only rebuilds the projection
    matrix and [preventDefault()] only concerns the browser. *)
Definition keyDown (event : KeyEvent) (g : Game) : Game :=
  if ev_repeat event then g else
  let boundaryLimit := floor (TERRAIN_WIDTH / 4) + 1 in
  if isPaused g then g else
  let key := toLowerCase (ev_key event) in
  if (key =? "1")%string then set_projectionMode ortho g
  else if (key =? "2")%string then set_projectionMode perspective g
  else if (key =? "c")%string then
    set_cameraMode ((cameraMode g + 1) mod 2)%Z g
  else if (key =? "w")%string then
    let newXForward := p_x (player g) + step in
    let g1 :=
      if negb (checkCollisionWithTrees g newXForward (p_z (player g)))
      then set_player (set_p_x newXForward (player g)) g else g in
    set_player (set_p_rotationY 90 (player g1)) g1
  else if (key =? "s")%string then
    let newXBackward := p_x (player g) - step in
    let g1 :=
      if negb (checkCollisionWithTrees g newXBackward (p_z (player g)))
      then set_player (set_p_x newXBackward (player g)) g else g in
    set_player (set_p_rotationY 270 (player g1)) g1
  else if (key =? "a")%string then
    let newZLeft := p_z (player g) - step in
    let g1 :=
      if Qgeb newZLeft (- boundaryLimit)
         && negb (checkCollisionWithTrees g (p_x (player g)) newZLeft)
      then set_player (set_p_z newZLeft (player g)) g else g in
    set_player (set_p_rotationY 180 (player g1)) g1
  else if (key =? "d")%string then
    let newZRight := p_z (player g) + step in
    let g1 :=
      if Qleb newZRight boundaryLimit
         && negb (checkCollisionWithTrees g (p_x (player g)) newZRight)
      then set_player (set_p_z newZRight (player g)) g else g in
    set_player (set_p_rotationY 0 (player g1)) g1
  else g.

(** ** Loops *)

(** [for (let i = lo; ...; i++) body], run for [n] rounds from [i]. *)
Fixpoint for_loop {A : Type} (n : nat) (i : Z) (body : Z -> A -> A) (a : A)
  : A :=
  match n with
  | O => a
  | S n' => for_loop n' (i + 1)%Z body (body i a)
  end.

(** ** Session transitions that need no random draw *)

(** [gameOver()] *)
Definition gameOver (g : Game) : Game :=
  let g := set_isPaused true g in
  let g := set_isGameOver true g in
  let g := set_finalScoreText (scoreText g) g in
  set_modalHidden false g.

(** The click listener of [pauseBtn]. *)
Definition pauseClick (g : Game) : Game :=
  let g := set_isPaused (negb (isPaused g)) g in
  set_pauseBtnText (if isPaused g then "RESUME" else "PAUSE")%string g.

(** ** Traffic *)

(** The callback of [cars.forEach] in [drawScene], for the car [car] when
    the other elements of [cars] are [others]. *)
Definition moveCar (dt : Q) (others : list Car) (car : Car) : Car :=
  let newZ := car_z car + car_speed car * car_direction car * dt in
  let wouldCollide :=
    existsb (fun otherCar =>
               Qeqb (car_x otherCar) (car_x car)
               && Qltb (Qabs (car_z otherCar - newZ)) 2.0)
            others in
  let car := if negb wouldCollide then set_car_z newZ car else car in
  let velocidadeReal := car_speed car * car_direction car in
  if Qgtb velocidadeReal 0 && Qgtb (car_z car) (car_maxZ car)
  then set_car_z (car_minZ car) car
  else if Qltb velocidadeReal 0 && Qltb (car_z car) (car_minZ car)
  then set_car_z (car_maxZ car) car
  else car.

(** [cars.forEach(...)]: the cars are updated in place one after the other,
    so a car sees the new positions of the cars before it ([done]) and the
    old positions of the cars after it ([todo]). *)
Fixpoint moveCars_from (dt : Q) (done todo : list Car) : list Car :=
  match todo with
  | [] => done
  | car :: rest =>
      moveCars_from dt (done ++ [moveCar dt (done ++ rest) car]) rest
  end.

Definition moveCars (dt : Q) (cs : list Car) : list Car :=
  moveCars_from dt [] cs.

Section Engine.

(** The draws of [Math.random()], in the order of the calls. *)
Variable rng : nat -> Q.

(** [Math.random()] *)
Definition random (w : World) : Q * World :=
  (rng (randomCalls w), set_randomCalls (S (randomCalls w)) w).

(** ** Lane generator *)

(** [createRow(xPosition)].  The draw of [Math.random() < 0.4] is made only
    when [xPosition > -5] holds ([&&] short-circuits). *)
Definition createRow (xPosition : Q) (w : World) : Row * World :=
  let '(type, w) :=
    if Qgtb xPosition (-5) then
      let '(r, w) := random w in
      if Qltb r 0.4 then (road, w) else (grass, w)
    else (grass, w) in
  let '(roadDirection, roadSpeed, w) :=
    match type with
    | road =>
        let '(r1, w) := random w in
        let '(r2, w) := random w in
        (Some (if Qltb r1 0.5 then -1 else 1), Some (3 + r2 * 7), w)
    | grass => (None, None, w)
    end in
  (mkRow xPosition type
         (match type with grass => MODEL_GRASS | road => MODEL_ROAD end)
         roadDirection roadSpeed,
   w).

(** ** Obstacle and traffic spawners *)

(** The body of the [for] loop of [spawnTreesOnRow]. *)
Definition spawnTree (row : Row) (zOffset : Z) (w : World) : World :=
  if Qltb (Qabs (row_x row - -5)) 3.0
     && Qltb (Qabs (inject_Z zOffset * 1.0)) 3.0
  then w
  else
    let '(r, w) := random w in
    if Qltb r 0.15 then
      let '(r', w) := random w in
      let randomTreeIndex := (8 + Qfloor (r' * 5))%Z in
      set_trees (trees w ++ [mkTree (row_x row) 0 (inject_Z zOffset * 1.0)
                                    0.8 randomTreeIndex]) w
    else w.

(** [spawnTreesOnRow(row)] *)
Definition spawnTreesOnRow (row : Row) (w : World) : World :=
  match row_type row with
  | road => w
  | grass =>
      let halfWidth := Qfloor (TERRAIN_WIDTH / 2) in
      for_loop (Z.to_nat (halfWidth - - halfWidth + 1)) (- halfWidth)%Z
               (spawnTree row) w
  end.

(** A [null] speed or direction behaves as [0] in the arithmetic of
    [drawScene]; cars are only made from road rows, where both are numbers. *)
Definition number_of (v : option Q) : Q :=
  match v with Some q => q | None => 0 end.

(** The body of the [for] loop of [spawnCarsOnRow]. *)
Definition spawnCar (row : Row) (halfWidth : Q) (i : Z) (w : World) : World :=
  let MIN_DISTANCE := 3.0 in
  let '(r, w) := random w in
  let randomZ := r * (halfWidth * 2) - halfWidth in
  let tooClose :=
    existsb (fun car =>
               Qeqb (car_x car) (row_x row)
               && Qltb (Qabs (car_z car - randomZ)) MIN_DISTANCE)
            (cars w) in
  if negb tooClose then
    let '(r', w) := random w in
    let randomCarModel := Qfloor (r' * 4) in
    set_cars (cars w ++ [mkCar (row_x row) 0 randomZ
                               (number_of (row_speed row))
                               (number_of (row_direction row))
                               (- halfWidth) halfWidth 0.6 randomCarModel]) w
  else w.

(** [spawnCarsOnRow(row)] *)
Definition spawnCarsOnRow (row : Row) (w : World) : World :=
  match row_type row with
  | grass => w
  | road =>
      let halfWidth := floor (TERRAIN_WIDTH / 2) in
      let '(r, w) := random w in
      let numCars := (Qfloor (r * 3) + 2)%Z in
      for_loop (Z.to_nat (numCars - 0)) 0%Z (spawnCar row halfWidth) w
  end.

(** ** World window *)

(** The three statements both terrain loops run for a new coordinate. *)
Definition addRow (x : Q) (w : World) : World :=
  let '(newRow, w) := createRow x w in
  let w := set_terrainRows (terrainRows w ++ [newRow]) w in
  let w := spawnTreesOnRow newRow w in
  spawnCarsOnRow newRow w.

(** [initTerrain(startX)] *)
Definition initTerrain (startX : Q) (w : World) : World :=
  for_loop (Z.to_nat (Qfloor DRAW_DISTANCE - -10)) (-10)%Z
           (fun i w => addRow (startX + inject_Z i * ROW_DEPTH) w) w.

(** [while (terrainRows.length > 0 && terrainRows[0].x < removeThreshold)
    terrainRows.shift()] *)
Fixpoint shiftRows (removeThreshold : Q) (rows : list Row) : list Row :=
  match rows with
  | [] => []
  | row :: rest =>
      if Qltb (row_x row) removeThreshold
      then shiftRows removeThreshold rest
      else rows
  end.

(** [while (lastX < addThreshold) { lastX += ROW_DEPTH; ... }], for at most
    [fuel] rounds.  The result says whether the loop ended by its test. *)
Fixpoint extendRows (fuel : nat) (lastX addThreshold : Q) (w : World)
  : bool * World :=
  if Qltb lastX addThreshold then
    match fuel with
    | O => (false, w)
    | S fuel' =>
        let lastX := lastX + ROW_DEPTH in
        extendRows fuel' lastX addThreshold (addRow lastX w)
    end
  else (true, w).

(** The number of rounds of the loop above: each round adds [ROW_DEPTH = 1]
    to [lastX]. *)
Definition extend_rounds (lastX addThreshold : Q) : nat :=
  Z.to_nat (Qceiling (addThreshold - lastX)).

(** [updateTerrain(currentCameraX)] *)
Definition updateTerrain (currentCameraX : Q) (w : World) : World :=
  let removeThreshold := currentCameraX - 15.0 in
  let w := set_terrainRows (shiftRows removeThreshold (terrainRows w)) w in
  let w := set_trees
             (filter (fun tree => Qgeb (tree_x tree) removeThreshold)
                     (trees w)) w in
  let w := set_cars
             (filter (fun car => Qgeb (car_x car) removeThreshold)
                     (cars w)) w in
  let lastX :=
    match terrainRows w with
    | [] => 0
    | r :: rs => row_x (last rs r)
    end in
  let addThreshold := currentCameraX + DRAW_DISTANCE in
  snd (extendRows (extend_rounds lastX addThreshold) lastX addThreshold w).

(** ** Session *)

(** [restartGame()] *)
Definition restartGame (g : Game) : Game :=
  let g := set_isPaused false g in
  let g := set_isGameOver false g in
  let g := set_player (set_p_x (-5) (player g)) g in
  let g := set_player (set_p_z 0 (player g)) g in
  let g := set_player (set_p_rotationY 90 (player g)) g in
  let g := set_cameraX (-12.0) g in
  let g := set_maxDistanceX initialX g in
  let g := set_scoreText 0 g in
  let g := set_world (set_trees [] (world g)) g in
  let g := set_world (set_cars [] (world g)) g in
  let g := set_world (set_terrainRows [] (world g)) g in
  let g := set_world (initTerrain (-12) (world g)) g in
  let g := set_modalHidden true g in
  set_lastTime None g.

(** [!lastTime]: [null] and [0] are falsy. *)
Definition no_lastTime (t : option Q) : bool :=
  match t with
  | None => true
  | Some q => Qeqb q 0
  end.

(** [drawScene(time)], without the drawing.  [aspect] is
    [gl.canvas.width / gl.canvas.height] at the time of the call.
    [updateHeadlights()], the view matrix and the draw calls write to the
    GPU only. *)
Definition drawScene (time aspect : Q) (g : Game) : Game :=
  if isPaused g then set_lastTime (Some time) g
  else
    let g := if no_lastTime (lastTime g) then set_lastTime (Some time) g
             else g in
    let dt := (time - number_of (lastTime g)) / 1000.0 in
    let g := set_lastTime (Some time) g in
    let g :=
      if Qgtb (p_x (player g)) (maxDistanceX g) then
        let g := set_maxDistanceX (p_x (player g)) g in
        let currentScore := Qfloor ((maxDistanceX g - initialX) / step) in
        set_scoreText currentScore g
      else g in
    let worldWidth := 6.0 in
    let worldHeight := worldWidth / aspect in
    let g := set_cameraX (cameraX g + scrollSpeed * dt) g in
    let g := if Qltb (p_x (player g)) (cameraX g + 3.8) then gameOver g
             else g in
    let lookAhead := 10.0 in
    let minCameraYForPlayer :=
      p_x (player g) + worldHeight / 6.0 - lookAhead in
    let g := if Qltb (cameraX g) minCameraYForPlayer
             then set_cameraX minCameraYForPlayer g else g in
    let g :=
      match projectionMode g with
      | perspective => g
      | ortho => if (cameraMode g =? 1)%Z then set_V (1.0, 0.0, 0.0) g
                 else g
      end in
    let g := set_world (set_cars (moveCars dt (cars (world g))) (world g)) g in
    let g := if checkCollisionWithCars g (p_x (player g)) (p_z (player g))
             then gameOver g else g in
    let g := set_world (updateTerrain (cameraX g) (world g)) g in
    set_frameCount (frameCount g + 1)%Z g.

(** The state of [main] when it requests the first frame.  The two score
    texts, the modal's visibility and the button's label come from the page,
    which is not part of the sources. *)
Definition initial_game (score0 final0 : Z) (hidden0 : bool) (label0 : string)
  : Game :=
  let w := initTerrain (-12) (mkWorld [] [] [] 0) in
  mkGame w (mkPlayer (-5) 0 0 0.55 90 5) false false initialX (-12.0) None
         ortho 0 (0.0, 1.0, 0.0) 0 score0 final0 hidden0 label0.

(** ** Events

    What the browser delivers to the engine: a key press, an animation
    frame, a click on the pause button, a click on the restart button. *)
Inductive Event :=
| KeyDown (event : KeyEvent)
| Frame (time aspect : Q)
| PauseClick
| RestartClick.

Definition handle (g : Game) (e : Event) : Game :=
  match e with
  | KeyDown event => keyDown event g
  | Frame time aspect => drawScene time aspect g
  | PauseClick => pauseClick g
  | RestartClick => restartGame g
  end.

Definition run (g : Game) (es : list Event) : Game := fold_left handle es g.

End Engine.

(** ** Vocabulary of the specification *)

(** The four movement intents and the keys that carry them. *)
Inductive MoveIntent := MoveForward | MoveBackward | StrafeLeft | StrafeRight.

Definition intent_key (i : MoveIntent) : string :=
  match i with
  | MoveForward => "w"
  | MoveBackward => "s"
  | StrafeLeft => "a"
  | StrafeRight => "d"
  end.

(** The position [(lane_axis, lateral)] an intent proposes: [newXForward],
    [newXBackward], [newZLeft] and [newZRight] of [keyDown]. *)
Definition proposed (i : MoveIntent) (p : Player) : Q * Q :=
  match i with
  | MoveForward => (p_x p + step, p_z p)
  | MoveBackward => (p_x p - step, p_z p)
  | StrafeLeft => (p_x p, p_z p - step)
  | StrafeRight => (p_x p, p_z p + step)
  end.

(** The heading [keyDown] gives the player for each intent. *)
Definition heading (i : MoveIntent) : Z :=
  match i with
  | MoveForward => 90
  | MoveBackward => 270
  | StrafeLeft => 180
  | StrafeRight => 0
  end.

(** The tree proximity predicate, with [tree_half_size = 0.5]. *)
Definition near_tree (tree : Tree) (pos : Q * Q) : Prop :=
  Qabs (tree_x tree - fst pos) < 0.5 /\ Qabs (tree_z tree - snd pos) < 0.5.

(** The lateral world bound of [keyDown]: [boundaryLimit]. *)
Definition boundaryLimit : Q := floor (TERRAIN_WIDTH / 4) + 1.

(** A lateral move that would leave the world: the negation of the bound
    tests of the cases "a" and "d". *)
Definition out_of_bounds (i : MoveIntent) (p : Player) : Prop :=
  match i with
  | StrafeLeft => snd (proposed i p) < - boundaryLimit
  | StrafeRight => boundaryLimit < snd (proposed i p)
  | _ => False
  end.

(** The delta-time [drawScene(time)] computes in the state [g]. *)
Definition frame_dt (time : Q) (g : Game) : Q :=
  (time - (if no_lastTime (lastTime g) then time
           else number_of (lastTime g))) / 1000.0.

(** The displayed score as the specification defines it. *)
Definition score (g : Game) : Z := Qfloor ((maxDistanceX g - initialX) / step).

(** What the score reads: [maxDistanceX] and the score text. *)
Definition score_fields (g : Game) : Q * Z := (maxDistanceX g, scoreText g).

(** The draws of [Math.random()] lie in [[0, 1)]. *)
Definition unit_draws (rng : nat -> Q) : Prop := forall n, 0 <= rng n < 1.

(** The game-over state as [gameOver()] leaves it. *)
Definition session_over (g : Game) : Prop :=
  isGameOver g = true /\ isPaused g = true /\ modalHidden g = false.

(** A car within its lateral bounds. *)
Definition car_in_bounds (c : Car) : Prop :=
  car_minZ c <= car_z c /\ car_z c <= car_maxZ c.

(** The lateral coordinate of a car after the move of [moveCar] and before
    its wrap: the car stalls when the move would bring it within the
    collision radius of another car of its lane. *)
Definition moved_z (dt : Q) (others : list Car) (car : Car) : Q :=
  let newZ := car_z car + car_speed car * car_direction car * dt in
  if existsb (fun otherCar =>
                Qeqb (car_x otherCar) (car_x car)
                && Qltb (Qabs (car_z otherCar - newZ)) 2.0)
             others
  then car_z car else newZ.

(** The traffic step of successive ticks, one delta-time per tick. *)
Definition simulate_traffic (dts : list Q) (cs : list Car) : list Car :=
  fold_left (fun cs dt => moveCars dt cs) dts cs.

(** The lane list in strictly increasing order of axis coordinate. *)
Definition rows_sorted (rows : list Row) : Prop :=
  StronglySorted (fun a b => row_x a < row_x b) rows.

(** No two lanes of the list at the same axis coordinate. *)
Definition rows_distinct (rows : list Row) : Prop :=
  ForallOrdPairs (fun a b => ~ row_x a == row_x b) rows.

(** Sorted lanes, all at or below [lastX]. *)
Definition rows_up_to (lastX : Q) (w : World) : Prop :=
  rows_sorted (terrainRows w)
  /\ Forall (fun r => row_x r <= lastX) (terrainRows w).

(** The band of the specification around a scroll position [c]:
    [[c - behind_margin, c + ahead_margin]] with the margins [15] and
    [DRAW_DISTANCE] of [updateTerrain]. *)
Definition in_window (c x : Q) : Prop :=
  c - 15 <= x /\ x <= c + DRAW_DISTANCE.

(** The band [updateTerrain] keeps: one lane more ahead, exclusive. *)
Definition in_window_plus_row (c x : Q) : Prop :=
  c - 15 <= x /\ x < c + DRAW_DISTANCE + ROW_DEPTH.

(** Every live tree and car has its axis coordinate in [band]. *)
Definition entities_in (band : Q -> Prop) (w : World) : Prop :=
  Forall (fun tree => band (tree_x tree)) (trees w)
  /\ Forall (fun car => band (car_x car)) (cars w).

(** The operations on the world window: the extend/evict call of a tick at
    a scroll position, and the reset [restartGame] does (steps 5 and 6:
    the three collections are emptied and [initTerrain(-12)] is called). *)
Inductive WindowOp :=
| ExtendEvict (currentCameraX : Q)
| Reset.

Definition resetTerrain (rng : nat -> Q) (w : World) : World :=
  initTerrain rng (-12)
    (set_terrainRows [] (set_cars [] (set_trees [] w))).

Definition window_op (rng : nat -> Q) (w : World) (op : WindowOp) : World :=
  match op with
  | ExtendEvict c => updateTerrain rng c w
  | Reset => resetTerrain rng w
  end.

(** ** The phases of a tick

    The statements of [drawScene] in groups, each as a function of its
    own, in the order in which [drawScene] runs them. *)

(** Clock: the delta-time and the new [lastTime]. *)
Definition phase_clock (time : Q) (g : Game) : Q * Game :=
  (frame_dt time g, set_lastTime (Some time) g).

(** Score: [maxDistanceX] and the score text. *)
Definition phase_score (g : Game) : Game :=
  if Qgtb (p_x (player g)) (maxDistanceX g) then
    let g := set_maxDistanceX (p_x (player g)) g in
    set_scoreText (Qfloor ((maxDistanceX g - initialX) / step)) g
  else g.

(** Scroll: the automatic advance of [cameraX]. *)
Definition phase_scroll (dt : Q) (g : Game) : Game :=
  set_cameraX (cameraX g + scrollSpeed * dt) g.

(** Session transition of a player left behind. *)
Definition phase_left_behind (g : Game) : Game :=
  if Qltb (p_x (player g)) (cameraX g + 3.8) then gameOver g else g.

(** The camera is pulled forward to the player, and the up vector set. *)
Definition phase_camera (aspect : Q) (g : Game) : Game :=
  let minCameraYForPlayer := p_x (player g) + (6.0 / aspect) / 6.0 - 10.0 in
  let g := if Qltb (cameraX g) minCameraYForPlayer
           then set_cameraX minCameraYForPlayer g else g in
  match projectionMode g with
  | perspective => g
  | ortho => if (cameraMode g =? 1)%Z then set_V (1.0, 0.0, 0.0) g else g
  end.

(** Traffic movement. *)
Definition phase_traffic (dt : Q) (g : Game) : Game :=
  set_world (set_cars (moveCars dt (cars (world g))) (world g)) g.

(** Collision detection against the cars, and its session transition. *)
Definition phase_collision (g : Game) : Game :=
  if checkCollisionWithCars g (p_x (player g)) (p_z (player g))
  then gameOver g else g.

(** World window: evict behind, extend ahead. *)
Definition phase_window (rng : nat -> Q) (g : Game) : Game :=
  set_world (updateTerrain rng (cameraX g) (world g)) g.

Definition phase_frameCount (g : Game) : Game :=
  set_frameCount (frameCount g + 1)%Z g.

(** The order of [drawScene]. *)
Definition tick_in_code_order (rng : nat -> Q) (time aspect : Q) (g : Game)
  : Game :=
  let '(dt, g) := phase_clock time g in
  let g := phase_score g in
  let g := phase_scroll dt g in
  let g := phase_left_behind g in
  let g := phase_camera aspect g in
  let g := phase_traffic dt g in
  let g := phase_collision g in
  let g := phase_window rng g in
  phase_frameCount g.

(** The order the specification gives: clock, scroll, window, traffic,
    collision, score, session transition.  The two tests that end the
    session are evaluated where the specification puts detection (the
    left-behind test with the scroll, the car test after the traffic) and
    [gameOver] is applied last. *)
Definition tick_in_spec_order (rng : nat -> Q) (time aspect : Q) (g : Game)
  : Game :=
  let '(dt, g) := phase_clock time g in
  let g := phase_scroll dt g in
  let left_behind := Qltb (p_x (player g)) (cameraX g + 3.8) in
  let g := phase_camera aspect g in
  let g := phase_window rng g in
  let g := phase_traffic dt g in
  let hit := checkCollisionWithCars g (p_x (player g)) (p_z (player g)) in
  let g := phase_score g in
  let g := if left_behind || hit then gameOver g else g in
  phase_frameCount g.

(** ** Vectors

    The top-level helpers of the file.  A vector is a JavaScript array of
    three numbers; [v[0]], [v[1]] and [v[2]] are its components. *)
Definition Vec3 : Type := Q * Q * Q.

Definition v0 (v : Vec3) : Q := fst (fst v).
Definition v1 (v : Vec3) : Q := snd (fst v).
Definition v2 (v : Vec3) : Q := snd v.

(** [crossProduct(v1, v2)] *)
Definition crossProduct (a b : Vec3) : Vec3 :=
  (v1 a * v2 b - v2 a * v1 b,
   v2 a * v0 b - v0 a * v2 b,
   v0 a * v1 b - v1 a * v0 b).

(** The scalar product, the opposite vector and equality of vectors as
    numbers. *)
Definition dot (a b : Vec3) : Q := v0 a * v0 b + v1 a * v1 b + v2 a * v2 b.

Definition vec_opp (a : Vec3) : Vec3 := (- v0 a, - v1 a, - v2 a).

Definition vec_eq (a b : Vec3) : Prop :=
  v0 a == v0 b /\ v1 a == v1 b /\ v2 a == v2 b.

(** ** Model normalisation

    [objData.positions] is a flat array that [parseOBJ] fills three numbers
    at a time ([positions.push(...vert)]); it is modelled as the list of
    its vertices.  The six bounds start at [Infinity] and [-Infinity] and
    all become finite with the first vertex: [None] stands for the
    untouched bounds. *)
Record Bounds := mkBounds {
  b_minX : Q; b_maxX : Q;
  b_minY : Q; b_maxY : Q;
  b_minZ : Q; b_maxZ : Q
}.

(** The body of the first loop of [normalizeModel]. *)
Definition grow_bounds (b : option Bounds) (v : Vec3) : option Bounds :=
  let x := v0 v in
  let y := v1 v in
  let z := v2 v in
  match b with
  | None => Some (mkBounds x x y y z z)
  | Some b =>
      Some (mkBounds
              (if Qltb x (b_minX b) then x else b_minX b)
              (if Qgtb x (b_maxX b) then x else b_maxX b)
              (if Qltb y (b_minY b) then y else b_minY b)
              (if Qgtb y (b_maxY b) then y else b_maxY b)
              (if Qltb z (b_minZ b) then z else b_minZ b)
              (if Qgtb z (b_maxZ b) then z else b_maxZ b))
  end.

(** The bounding box the first loop finds. *)
Definition bounding_box (positions : list Vec3) : option Bounds :=
  fold_left grow_bounds positions None.

(** [normalizeModel(objData)], as the new value of [objData.positions]. *)
Definition normalizeModel (positions : list Vec3) : list Vec3 :=
  match bounding_box positions with
  | None => positions
  | Some b =>
      let centerX := (b_minX b + b_maxX b) / 2 in
      let centerY := b_minY b in
      let centerZ := (b_minZ b + b_maxZ b) / 2 in
      map (fun v => (v0 v - centerX, v1 v - centerY, v2 v - centerZ))
          positions
  end.

(** A vertex inside a box, and the translation of a vertex and of a box. *)
Definition inside (b : Bounds) (v : Vec3) : Prop :=
  (b_minX b <= v0 v /\ v0 v <= b_maxX b)
  /\ (b_minY b <= v1 v /\ v1 v <= b_maxY b)
  /\ (b_minZ b <= v2 v /\ v2 v <= b_maxZ b).

Definition shift_vertex (c : Vec3) (v : Vec3) : Vec3 :=
  (v0 v - v0 c, v1 v - v1 c, v2 v - v2 c).

Definition shift_bounds (c : Vec3) (b : Bounds) : Bounds :=
  mkBounds (b_minX b - v0 c) (b_maxX b - v0 c)
           (b_minY b - v1 c) (b_maxY b - v1 c)
           (b_minZ b - v2 c) (b_maxZ b - v2 c).

(** The centre [normalizeModel] subtracts. *)
Definition model_centre (b : Bounds) : Vec3 :=
  ((b_minX b + b_maxX b) / 2, b_minY b, (b_minZ b + b_maxZ b) / 2).

(** ** Vocabulary of the further properties *)

(** The events a paused engine still receives without leaving the pause:
    key presses and frames. *)
Definition key_or_frame (e : Event) : bool :=
  match e with
  | KeyDown _ | Frame _ _ => true
  | PauseClick | RestartClick => false
  end.

(** The time stamp of the last frame of a sequence of events, [t0] when
    there is none. *)
Definition last_frame_time (es : list Event) (t0 : option Q) : option Q :=
  fold_left (fun t e => match e with
                        | Frame time _ => Some time
                        | _ => t
                        end) es t0.

(** The left-behind test of [drawScene(time)] in the state [g]: the player
    against the scroll position after its automatic advance. *)
Definition left_behind (time : Q) (g : Game) : bool :=
  Qltb (p_x (player g)) (cameraX g + scrollSpeed * frame_dt time g + 3.8).

(** The car test of [drawScene(time)] in the state [g]: the player against
    the cars after their move of this tick. *)
Definition car_hit (time : Q) (g : Game) : bool :=
  existsb (fun car =>
             Qltb (Qabs (car_x car - p_x (player g))) 0.7
             && Qltb (Qabs (car_z car - p_z (player g))) 0.7)
          (moveCars (frame_dt time g) (cars (world g))).

(** The world and the player of a state. *)
Definition world_player (g : Game) : World * Player := (world g, player g).

(** The state that enters the traffic phase of a tick. *)
Definition before_traffic (time aspect : Q) (g : Game) : Game :=
  phase_camera aspect
    (phase_left_behind
       (phase_scroll (frame_dt time g)
          (phase_score (set_lastTime (Some time) g)))).

(** The player's lateral coordinate within the world bound of [keyDown]. *)
Definition within_lateral_bound (g : Game) : Prop :=
  - boundaryLimit <= p_z (player g) /\ p_z (player g) <= boundaryLimit.

(** No tree in the column of the player: no tree has its lateral coordinate
    within [0.5] of the player's. *)
Definition column_free (g : Game) : Prop :=
  Forall (fun tree => 0.5 <= Qabs (tree_z tree - p_z (player g)))
         (trees (world g)).

(** [n] presses of the key "w". *)
Definition forward_presses (n : nat) : list Event :=
  repeat (KeyDown (mkKeyEvent false "w")) n.

(** A tree outside the keep-clear rectangle of [spawnTreesOnRow], which is
    centred on the spawn position [(-5, 0)]. *)
Definition tree_clear (tree : Tree) : Prop :=
  ~ (Qabs (tree_x tree - -5) < 3.0 /\ Qabs (tree_z tree) < 3.0).

(** The scroll position the camera is pulled to for a player at [x]:
    [minCameraYForPlayer] of [drawScene]. *)
Definition minCameraYForPlayer (aspect x : Q) : Q :=
  x + (6.0 / aspect) / 6.0 - 10.0.

(** Every tree of the world satisfies [PT] and every car [PC]. *)
Definition population (PT : Tree -> Prop) (PC : Car -> Prop) (w : World)
  : Prop :=
  Forall PT (trees w) /\ Forall PC (cars w).

(** A car as [spawnCarsOnRow] makes it on a lane of [createRow]: direction
    [1] or [-1], speed in [[3, 10]], lateral bounds [-15] and [15].  The
    bound [10] is closed: the speed is [3 + Math.random() * 7], which for a
    draw next to [1] is rounded to [10] in 64-bit floating point. *)
Definition car_wellformed (c : Car) : Prop :=
  (car_direction c = 1 \/ car_direction c = -1)
  /\ (3 <= car_speed c /\ car_speed c <= 10)
  /\ car_minZ c == -15 /\ car_maxZ c == 15.

(** A lane as [createRow] makes it: a road has a direction [1] or [-1] and
    a speed in [[3, 10]], a grass lane has neither. *)
Definition row_wellformed (r : Row) : Prop :=
  match row_type r with
  | road =>
      (row_direction r = Some 1 \/ row_direction r = Some (-1))
      /\ (exists v, row_speed r = Some v /\ 3 <= v /\ v <= 10)
      /\ row_modelIndex r = MODEL_ROAD
  | grass =>
      row_direction r = None /\ row_speed r = None
      /\ row_modelIndex r = MODEL_GRASS
  end.

(** The time stamps of the frames of a sequence of events do not go back:
    each is at least the time stamp before it, starting from [last]. *)
Fixpoint times_ordered (last : option Q) (es : list Event) : Prop :=
  match es with
  | [] => True
  | Frame time _ :: es' =>
      match last with Some l => l <= time | None => True end
      /\ times_ordered (Some time) es'
  | _ :: es' => times_ordered last es'
  end.

(** The scroll position after the automatic advance of a frame, and the
    one the frame ends with: the larger of it and [minCameraYForPlayer]. *)
Definition advanced_cameraX (time : Q) (g : Game) : Q :=
  cameraX g + scrollSpeed * frame_dt time g.

Definition next_cameraX (time aspect : Q) (g : Game) : Q :=
  if Qltb (advanced_cameraX time g)
          (minCameraYForPlayer aspect (p_x (player g)))
  then minCameraYForPlayer aspect (p_x (player g))
  else advanced_cameraX time g.

(** The axis coordinates of the fifty lanes [initTerrain(startX)] makes. *)
Definition lane_coordinates (startX : Q) : list Q :=
  map (fun k => startX + inject_Z (-10 + Z.of_nat k) * ROW_DEPTH) (seq 0 50).

(** Cars of the lane at [x] pairwise at least [MIN_DISTANCE = 3.0]
    apart. *)
Definition cars_spaced (x : Q) (cs : list Car) : Prop :=
  ForallOrdPairs
    (fun a b =>
       car_x a == x -> car_x b == x -> 3.0 <= Qabs (car_z a - car_z b))
    cs.

(** No car on the lane at [x] yet. *)
Definition lane_empty (x : Q) (w : World) : bool :=
  negb (existsb (fun car => Qeqb (car_x car) x) (cars w)).

(** Consecutive lanes of the list exactly [ROW_DEPTH] apart. *)
Fixpoint rows_contiguous (rows : list Row) : Prop :=
  match rows with
  | a :: ((b :: _) as rest) =>
      row_x b == row_x a + ROW_DEPTH /\ rows_contiguous rest
  | _ => True
  end.

(** Every tree stands on a grass lane of the list and every car drives on
    a road lane of the list. *)
Definition tree_on_grass (rows : list Row) (tree : Tree) : Prop :=
  exists r, In r rows /\ row_x r = tree_x tree /\ row_type r = grass.

Definition car_on_road (rows : list Row) (car : Car) : Prop :=
  exists r, In r rows /\ row_x r = car_x car /\ row_type r = road.

Definition entities_on_lanes (w : World) : Prop :=
  Forall (tree_on_grass (terrainRows w)) (trees w)
  /\ Forall (car_on_road (terrainRows w)) (cars w).

(** Contiguous lanes whose last one, if any, is at [lastX]. *)
Definition contiguous_up_to (lastX : Q) (w : World) : Prop :=
  rows_contiguous (terrainRows w)
  /\ forall init l, terrainRows w = init ++ [l] -> row_x l == lastX.

(** A coordinate on the lane grid: an integer.  [initTerrain(-12)] makes
    the lanes at [-12 + i * ROW_DEPTH] and [updateTerrain] goes on from the
    last lane, or from [0], in steps of [ROW_DEPTH = 1]. *)
Definition on_lane_grid (x : Q) : Prop := exists k : Z, x == inject_Z k.

(** The safety zone around the spawn coordinate: the coordinates closer to
    it than one lane. *)
Definition safety_distance : Q := ROW_DEPTH.

Definition in_safety_zone (x : Q) : Prop :=
  Qabs (x - initialX) < safety_distance.

(** A lane on the grid that is grass when it is in the safety zone, and is
    outside the zone when it is a road. *)
Definition lane_safe (r : Row) : Prop :=
  on_lane_grid (row_x r)
  /\ (in_safety_zone (row_x r) -> row_type r = grass)
  /\ (row_type r = road -> safety_distance <= Qabs (row_x r - initialX)).

(** Two sequences of draws that agree from the [n]-th draw on. *)
Definition agree_from (n : nat) (rng rng' : nat -> Q) : Prop :=
  forall k, (n <= k)%nat -> rng k = rng' k.

(** [f], run on the draws [rng], and [f'], run on the draws [rng'], give
    the same world whenever the two sequences agree on the draws not yet
    made; and [f] does not move the count of the draws back. *)
Definition reads_ahead (rng rng' : nat -> Q) (f f' : World -> World) : Prop :=
  forall w,
    agree_from (randomCalls w) rng rng' ->
    f w = f' w /\ (randomCalls w <= randomCalls (f w))%nat.

(** The best progress and the score text after the score update of
    [drawScene] in the state [g], and the up vector after its camera
    set-up. *)
Definition new_maxDistanceX (g : Game) : Q :=
  if Qgtb (p_x (player g)) (maxDistanceX g) then p_x (player g)
  else maxDistanceX g.

Definition new_scoreText (g : Game) : Z :=
  if Qgtb (p_x (player g)) (maxDistanceX g)
  then Qfloor ((p_x (player g) - initialX) / step)
  else scoreText g.

Definition next_V (g : Game) : Q * Q * Q :=
  match projectionMode g with
  | perspective => V g
  | ortho => if (cameraMode g =? 1)%Z then (1.0, 0.0, 0.0) else V g
  end.

(** What a key press cannot touch: everything but the player, the
    projection mode and the camera mode. *)
Definition beyond_keys (g : Game) :=
  (world g, isPaused g, isGameOver g, maxDistanceX g, cameraX g, lastTime g,
   V g, frameCount g, scoreText g, finalScoreText g, modalHidden g,
   pauseBtnText g).

(** ** Concrete inputs *)

(** A sequence of draws that is constantly [1/4]: every lane ahead of the
    spawn coordinate is a road, with one car at lateral coordinate
    [-7.5]. *)
Definition draws_quarter (n : nat) : Q := 1 # 4.

(** A sequence of draws that is constantly [1/2]: every lane is grass and
    no tree is placed. *)
Definition draws_half (n : nat) : Q := 1 # 2.

(** A sequence of draws that is constantly [1/10]: lanes ahead of the spawn
    coordinate are roads, the others are grass with a tree on every slot
    outside the keep-clear rectangle. *)
Definition draws_tenth (n : nat) : Q := 1 # 10.

(** A sequence of draws that differs from [draws_quarter] in its first ten
    draws only. *)
Definition draws_late (n : nat) : Q :=
  if (n <? 10)%nat then 0 else 1 # 4.

(** The game as [main] leaves it, for each of the two sequences. *)
Definition game_quarter : Game :=
  initial_game draws_quarter 0 0 true "PAUSE".
Definition game_half : Game := initial_game draws_half 0 0 true "PAUSE".

(** A tree right in front of the player's spawn position. *)
Definition tree_ahead : Tree := mkTree (-4) 0 0 0.8 8.

Definition game_blocked : Game :=
  set_world (set_trees [tree_ahead] (world game_half)) game_half.

(** The session of [game_half] after a frame at [1000] ms and one at
    [21000] ms: the scroll position is [-8], the player at [-5] has been
    left behind and [gameOver()] has run. *)
Definition game_lost : Game :=
  run draws_half game_half [Frame 1000 1; Frame 21000 1].

(** Then a click on the pause button, the key "w" and one more frame. *)
Definition game_resumed : Game :=
  run draws_half game_lost
      [PauseClick; KeyDown (mkKeyEvent false "w"); Frame 22000 1].

(** The state of [game_quarter] after its first frame. *)
Definition game_quarter_1 : Game := drawScene draws_quarter 1000 1 game_quarter.

Definition no_car : Car := mkCar 0 0 0 0 0 0 0 0 0.

(** A sequence of draws that walks through [[0, 1)] in steps of [7/100]. *)
Definition draws_sweep (n : nat) : Q :=
  inject_Z (Z.of_nat ((7 * n) mod 100)) / 100.

(** A road lane at the coordinate [3] with speed [5] to the right. *)
Definition road_at_3 : Row := mkRow 3 road MODEL_ROAD (Some 1) (Some 5).

(** The world before [initTerrain], and a road lane at coordinate [1]. *)
Definition empty_world : World := mkWorld [] [] [] 0.
Definition road_row : Row := fst (createRow draws_quarter 1 empty_world).

(** * Properties *)

(** ** Comparisons *)

Lemma Qltb_lt (a b : Q) : Qltb a b = true <-> a < b.
Proof.
  unfold Qltb. rewrite negb_true_iff, <- not_true_iff_false, Qle_bool_iff.
  split; [apply Qnot_le_lt | apply Qlt_not_le].
Qed.

Lemma Qltb_ge (a b : Q) : Qltb a b = false <-> b <= a.
Proof.
  unfold Qltb. rewrite negb_false_iff. apply Qle_bool_iff.
Qed.

Lemma Qgtb_gt (a b : Q) : Qgtb a b = true <-> b < a.
Proof. apply Qltb_lt. Qed.

Lemma Qgtb_le (a b : Q) : Qgtb a b = false <-> a <= b.
Proof. apply Qltb_ge. Qed.

Lemma Qleb_le (a b : Q) : Qleb a b = true <-> a <= b.
Proof. apply Qle_bool_iff. Qed.

Lemma Qleb_gt (a b : Q) : Qleb a b = false <-> b < a.
Proof.
  unfold Qleb. rewrite <- not_true_iff_false, Qle_bool_iff.
  split; [apply Qnot_le_lt | apply Qlt_not_le].
Qed.

Lemma Qgeb_ge (a b : Q) : Qgeb a b = true <-> b <= a.
Proof. apply Qle_bool_iff. Qed.

Lemma Qgeb_lt (a b : Q) : Qgeb a b = false <-> a < b.
Proof. apply Qleb_gt. Qed.

(** ** Movement and trees *)

Lemma checkCollisionWithTrees_near (g : Game) (pos : Q * Q) :
  (exists tree, In tree (trees (world g)) /\ near_tree tree pos) ->
  checkCollisionWithTrees g (fst pos) (snd pos) = true.
Proof.
  intros [tree [Hin [Hx Hz]]]. unfold checkCollisionWithTrees.
  apply existsb_exists. exists tree. split; [exact Hin |].
  apply andb_true_iff. split; apply Qltb_lt; assumption.
Qed.

Lemma boundaryLimit_value : boundaryLimit = 8.
Proof. reflexivity. Qed.

(** C1.  While the session is running, a movement intent whose proposed
    position is within the tree proximity predicate of some live tree is
    rejected: the player's lane-axis and lateral coordinates after [keyDown]
    are the ones before it. *)
Theorem keyDown_rejects_move_into_tree :
  forall (event : KeyEvent) (g : Game) (i : MoveIntent),
    isPaused g = false ->
    toLowerCase (ev_key event) = intent_key i ->
    (exists tree,
        In tree (trees (world g)) /\ near_tree tree (proposed i (player g))) ->
    p_x (player (keyDown event g)) = p_x (player g)
    /\ p_z (player (keyDown event g)) = p_z (player g).
Proof.
  intros event g i Hrun Hkey Hnear.
  apply checkCollisionWithTrees_near in Hnear.
  unfold keyDown. rewrite Hrun, Hkey.
  destruct (ev_repeat event); [split; reflexivity |].
  destruct i; cbn [intent_key proposed fst snd] in *;
    cbn [String.eqb Ascii.eqb Bool.eqb];
    rewrite Hnear; rewrite ?andb_false_r; cbn; split; reflexivity.
Qed.

Lemma keyDown_rejects_move_into_tree_witness :
  p_x (player (keyDown (mkKeyEvent false "W") game_blocked)) = -5
  /\ p_z (player (keyDown (mkKeyEvent false "W") game_blocked)) = 0.
Proof.
  apply (keyDown_rejects_move_into_tree (mkKeyEvent false "W") game_blocked
           MoveForward).
  - reflexivity.
  - reflexivity.
  - exists tree_ahead. split; [left; reflexivity |].
    split; reflexivity.
Defined.

(** Without a tree in the way the same key press moves the player. *)
Example keyDown_moves_when_free :
  p_x (player (keyDown (mkKeyEvent false "W") game_half)) == -4.
Proof. reflexivity. Qed.

(** C10.  A movement intent processed while running sets the player's
    heading to the direction of the attempted move, whether or not the move
    is applied; a move vetoed by the tree test or by the lateral bound
    leaves the position as it was. *)
Theorem keyDown_sets_heading_even_when_vetoed :
  forall (event : KeyEvent) (g : Game) (i : MoveIntent),
    ev_repeat event = false ->
    isPaused g = false ->
    toLowerCase (ev_key event) = intent_key i ->
    p_rotationY (player (keyDown event g)) = heading i
    /\ (checkCollisionWithTrees g (fst (proposed i (player g)))
                                  (snd (proposed i (player g))) = true
        \/ out_of_bounds i (player g) ->
        p_x (player (keyDown event g)) = p_x (player g)
        /\ p_z (player (keyDown event g)) = p_z (player g)).
Proof.
  intros event g i Hrep Hrun Hkey.
  unfold keyDown. rewrite Hrep, Hrun, Hkey.
  destruct i; cbn [intent_key proposed fst snd out_of_bounds heading];
    cbn [String.eqb Ascii.eqb Bool.eqb].
  - split.
    + destruct (negb _); reflexivity.
    + intros [Hc | []]. rewrite Hc. split; reflexivity.
  - split.
    + destruct (negb _); reflexivity.
    + intros [Hc | []]. rewrite Hc. split; reflexivity.
  - split.
    + destruct (_ && _); reflexivity.
    + intros [Hc | Hb].
      * rewrite Hc, andb_false_r. split; reflexivity.
      * apply Qgeb_lt in Hb. fold boundaryLimit. rewrite Hb.
        split; reflexivity.
  - split.
    + destruct (_ && _); reflexivity.
    + intros [Hc | Hb].
      * rewrite Hc, andb_false_r. split; reflexivity.
      * apply Qleb_gt in Hb. fold boundaryLimit. rewrite Hb.
        split; reflexivity.
Qed.

Lemma keyDown_sets_heading_even_when_vetoed_witness :
  p_rotationY (player (keyDown (mkKeyEvent false "s") game_blocked)) = 270%Z
  /\ p_rotationY (player (keyDown (mkKeyEvent false "w") game_blocked)) = 90%Z
  /\ p_x (player (keyDown (mkKeyEvent false "w") game_blocked)) = -5.
Proof.
  split.
  - apply (keyDown_sets_heading_even_when_vetoed (mkKeyEvent false "s")
             game_blocked MoveBackward); reflexivity.
  - destruct (keyDown_sets_heading_even_when_vetoed (mkKeyEvent false "w")
                game_blocked MoveForward eq_refl eq_refl eq_refl)
      as [Hh Hpos].
    split; [exact Hh |].
    apply Hpos. left. reflexivity.
Defined.

(** ** The tick and its phases *)

(** Names the value of the outermost [let] of the left-hand side, so that
    the states of a tick are compared one at a time. *)
Ltac name_let :=
  match goal with
  | |- (let x := ?a in @?f x) = ?r =>
      let v := fresh "s" in
      pose (v := a);
      let t := eval cbv beta in (f v) in
      change (t = r)
  end.

Lemma drawScene_phases (rng : nat -> Q) (time aspect : Q) (g : Game) :
  drawScene rng time aspect g =
  if isPaused g then set_lastTime (Some time) g
  else tick_in_code_order rng time aspect g.
Proof.
  cbv beta delta [drawScene].
  destruct (isPaused g); [reflexivity |]. cbv iota.
  do 15 name_let.
  assert (E1 : (s0, s1) = phase_clock time g).
  { unfold phase_clock, frame_dt, s1, s0, s.
    destruct (no_lastTime (lastTime g)); reflexivity. }
  assert (E2 : s2 = phase_score s1) by reflexivity.
  assert (E3 : s5 = phase_scroll s0 s2) by reflexivity.
  assert (E4 : s6 = phase_left_behind s5) by reflexivity.
  assert (E5 : s10 = phase_camera aspect s6) by reflexivity.
  assert (E6 : s11 = phase_traffic s0 s10) by reflexivity.
  assert (E7 : s12 = phase_collision s11) by reflexivity.
  assert (E8 : s13 = phase_window rng s12) by reflexivity.
  clearbody s0 s1 s2 s5 s6 s10 s11 s12 s13.
  unfold tick_in_code_order. rewrite <- E1.
  subst. reflexivity.
Qed.

(** Fields the later phases leave alone. *)

Lemma gameOver_flags (g : Game) :
  isGameOver (gameOver g) = true /\ isPaused (gameOver g) = true
  /\ modalHidden (gameOver g) = false.
Proof. repeat split. Qed.

Lemma set_world_session (w : World) (g : Game) :
  session_over g -> session_over (set_world w g).
Proof. intros H. exact H. Qed.

Lemma set_frameCount_session (n : Z) (g : Game) :
  session_over g -> session_over (set_frameCount n g).
Proof. intros H. exact H. Qed.

Lemma phase_camera_session (aspect : Q) (g : Game) :
  session_over g -> session_over (phase_camera aspect g).
Proof.
  unfold phase_camera, session_over. intros H.
  destruct (Qltb _ _); destruct (projectionMode _);
    try destruct (_ =? _)%Z; exact H.
Qed.

Lemma phase_collision_session (g : Game) :
  session_over g -> session_over (phase_collision g).
Proof.
  unfold phase_collision. intros H.
  destruct (checkCollisionWithCars _ _ _); [apply gameOver_flags | exact H].
Qed.

(** C2.  On a tick of a running session in which, after the automatic
    advance of the scroll position, the player's lane-axis coordinate is
    below [cameraX + 3.8], the session is in the game-over state when the
    tick ends. *)
Theorem left_behind_ends_session :
  forall (rng : nat -> Q) (time aspect : Q) (g : Game),
    isPaused g = false ->
    p_x (player g) < cameraX g + scrollSpeed * frame_dt time g + 3.8 ->
    isGameOver (drawScene rng time aspect g) = true
    /\ isPaused (drawScene rng time aspect g) = true
    /\ modalHidden (drawScene rng time aspect g) = false.
Proof.
  intros rng time aspect g Hrun Hbehind.
  rewrite drawScene_phases, Hrun.
  unfold tick_in_code_order, phase_clock.
  set (g1 := phase_score (set_lastTime (Some time) g)).
  assert (Hp : p_x (player g1) = p_x (player g)).
  { unfold g1, phase_score. destruct (Qgtb _ _); reflexivity. }
  assert (Hc : cameraX g1 = cameraX g).
  { unfold g1, phase_score. destruct (Qgtb _ _); reflexivity. }
  assert (Hover : session_over
                    (phase_left_behind (phase_scroll (frame_dt time g) g1))).
  { unfold phase_left_behind.
    replace (Qltb _ _) with true; [apply gameOver_flags |].
    symmetry. apply Qltb_lt.
    cbn [phase_scroll set_cameraX cameraX player]. rewrite Hp, Hc.
    exact Hbehind. }
  unfold phase_frameCount, phase_window.
  apply set_frameCount_session, set_world_session, phase_collision_session.
  unfold phase_traffic.
  apply set_world_session, phase_camera_session, Hover.
Qed.

(** One frame at [1000] ms, then one twenty seconds later: the scroll
    position has reached [-8] and the player, still at [-5], is behind
    [-8 + 3.8]. *)
Lemma left_behind_ends_session_witness :
  isGameOver (run draws_half game_half [Frame 1000 1; Frame 21000 1]) = true
  /\ isPaused (run draws_half game_half [Frame 1000 1; Frame 21000 1]) = true
  /\ modalHidden (run draws_half game_half [Frame 1000 1; Frame 21000 1])
     = false.
Proof.
  apply (left_behind_ends_session draws_half 21000 1
           (drawScene draws_half 1000 1 game_half)).
  - vm_compute. reflexivity.
  - vm_compute. reflexivity.
Defined.

(** ** Lane generator *)

Lemma createRow_x (rng : nat -> Q) (x : Q) (w : World) :
  row_x (fst (createRow rng x w)) = x.
Proof.
  unfold createRow, random.
  destruct (Qgtb x (-5)); [destruct (Qltb (rng (randomCalls w)) 0.4) |];
    reflexivity.
Qed.

Lemma createRow_type (rng : nat -> Q) (x : Q) (w : World) :
  row_type (fst (createRow rng x w)) =
  if Qgtb x (-5) && Qltb (rng (randomCalls w)) 0.4 then road else grass.
Proof.
  unfold createRow, random.
  destruct (Qgtb x (-5)); [destruct (Qltb (rng (randomCalls w)) 0.4) |];
    reflexivity.
Qed.

(** The test of [createRow]: a coordinate at or behind the spawn coordinate
    [-5] gets a grass lane whatever the draws; a road lane is made exactly
    when the coordinate is ahead of [-5] and the first draw is below
    [0.4]. *)
Lemma createRow_road_iff (rng : nat -> Q) (x : Q) (w : World) :
  (x <= initialX -> row_type (fst (createRow rng x w)) = grass)
  /\ (row_type (fst (createRow rng x w)) = road <->
      initialX < x /\ rng (randomCalls w) < 0.4).
Proof.
  rewrite createRow_type. split.
  - intros Hx. apply Qgtb_le in Hx. unfold initialX in Hx.
    rewrite Hx. reflexivity.
  - rewrite <- Qgtb_gt, <- Qltb_lt. unfold initialX.
    destruct (Qgtb x (-5)); destruct (Qltb _ 0.4); cbn;
      intuition discriminate.
Qed.

(** On the lane grid the coordinates closer than one lane to the spawn
    coordinate are the spawn coordinate itself, and the coordinates ahead
    of it are at least one lane away. *)
Lemma on_lane_grid_zone (x : Q) :
  on_lane_grid x ->
  (in_safety_zone x -> x == initialX)
  /\ (initialX < x -> safety_distance <= Qabs (x - initialX)).
Proof.
  intros [k Hk]. unfold in_safety_zone, safety_distance, ROW_DEPTH, initialX.
  split.
  - intros Hz. apply Qabs_Qlt_condition in Hz. destruct Hz as [Hlo Hhi].
    assert (H1 : inject_Z (-6) < inject_Z k)
      by (rewrite <- Hk; change (inject_Z (-6)) with (-6); lra).
    assert (H2 : inject_Z k < inject_Z (-4))
      by (rewrite <- Hk; change (inject_Z (-4)) with (-4); lra).
    rewrite <- Zlt_Qlt in H1, H2.
    assert (k = (-5)%Z) by lia. subst k. exact Hk.
  - intros Hx.
    assert (H1 : inject_Z (-5) < inject_Z k)
      by (rewrite <- Hk; change (inject_Z (-5)) with (-5); exact Hx).
    rewrite <- Zlt_Qlt in H1.
    assert (H2 : inject_Z (-4) <= inject_Z k)
      by (rewrite <- Zle_Qle; lia).
    change (inject_Z (-4)) with (-4) in H2. rewrite <- Hk in H2.
    eapply Qle_trans; [| apply Qle_Qabs]. lra.
Qed.

(** C9.  The safety distance is one lane.  For every lane coordinate [x]
    (an integer, as are all the coordinates [initTerrain] and
    [updateTerrain] pass to [createRow], see [lanes_are_safe] below) closer
    than the safety distance to the spawn coordinate [-5], [createRow]
    makes a grass lane whatever the draws; and a road lane is made only at
    a coordinate at least the safety distance away from the spawn
    coordinate, and ahead of it. *)
Theorem createRow_safety_zone :
  forall (rng : nat -> Q) (x : Q) (w : World),
    on_lane_grid x ->
    (in_safety_zone x -> row_type (fst (createRow rng x w)) = grass)
    /\ (row_type (fst (createRow rng x w)) = road ->
        safety_distance <= Qabs (x - initialX) /\ initialX < x).
Proof.
  intros rng x w Hgrid.
  destruct (on_lane_grid_zone x Hgrid) as [Hzone Hahead].
  destruct (createRow_road_iff rng x w) as [Hgrass Hroad].
  split.
  - intros Hz. apply Hgrass. rewrite (Hzone Hz). apply Qle_refl.
  - intros Hr. apply Hroad in Hr. destruct Hr as [Hx _].
    split; [apply Hahead, Hx | exact Hx].
Qed.

(** The spawn lane is grass although every draw says road. *)
Lemma createRow_safety_zone_witness :
  row_type (fst (createRow draws_quarter (-5) (mkWorld [] [] [] 0))) = grass.
Proof.
  apply (createRow_safety_zone draws_quarter (-5) (mkWorld [] [] [] 0)).
  - exists (-5)%Z. reflexivity.
  - vm_compute. reflexivity.
Defined.

(** The lane right ahead of the spawn lane, one lane away, can be a road;
    and the hypothesis on the coordinate is needed: the test of
    [createRow] is [xPosition > -5], so a coordinate between the two lanes
    would get a road as well. *)
Example createRow_next_to_spawn_lane :
  row_type (fst (createRow draws_quarter (-4) (mkWorld [] [] [] 0))) = road
  /\ row_type (fst (createRow draws_quarter (-9 # 2) (mkWorld [] [] [] 0)))
     = road.
Proof. split; reflexivity. Qed.

(** ** Traffic *)

Lemma moveCar_bounds_kept (dt : Q) (others : list Car) (car : Car) :
  car_minZ (moveCar dt others car) = car_minZ car
  /\ car_maxZ (moveCar dt others car) = car_maxZ car
  /\ car_x (moveCar dt others car) = car_x car.
Proof.
  unfold moveCar.
  destruct (negb _); cbn [set_car_z car_speed car_direction car_z car_maxZ
                          car_minZ];
    destruct (_ && _); try destruct (_ && _); repeat split.
Qed.

Lemma moveCar_z (dt : Q) (others : list Car) (car : Car) :
  car_z (moveCar dt others car) =
  if Qgtb (car_speed car * car_direction car) 0
     && Qgtb (moved_z dt others car) (car_maxZ car)
  then car_minZ car
  else if Qltb (car_speed car * car_direction car) 0
          && Qltb (moved_z dt others car) (car_minZ car)
  then car_maxZ car
  else moved_z dt others car.
Proof.
  unfold moveCar, moved_z.
  destruct (existsb _ others); cbn [negb set_car_z car_speed car_direction
                                    car_z car_maxZ car_minZ];
    destruct (_ && _); try destruct (_ && _); reflexivity.
Qed.

Lemma moveCar_in_bounds (dt : Q) (others : list Car) (car : Car) :
  0 <= dt -> car_in_bounds car -> car_in_bounds (moveCar dt others car).
Proof.
  intros Hdt [Hlo Hhi]. unfold car_in_bounds.
  destruct (moveCar_bounds_kept dt others car) as [-> [-> _]].
  rewrite moveCar_z.
  set (v := car_speed car * car_direction car).
  assert (Hm : moved_z dt others car == car_z car
               \/ moved_z dt others car == car_z car + v * dt).
  { unfold moved_z. destruct (existsb _ others); [left | right]; reflexivity. }
  destruct (Qgtb v 0) eqn:Hpos; cbn [andb].
  - apply Qgtb_gt in Hpos.
    assert (Hmono : car_z car <= moved_z dt others car).
    { destruct Hm as [-> | ->]; [lra |].
      assert (0 <= v * dt) by (apply Qmult_le_0_compat; lra). lra. }
    destruct (Qgtb (moved_z dt others car) (car_maxZ car)) eqn:Hw.
    + lra.
    + apply Qgtb_le in Hw.
      replace (Qltb v 0) with false
        by (symmetry; apply Qltb_ge; lra).
      cbn [andb]. lra.
  - apply Qgtb_le in Hpos.
    assert (Hmono : moved_z dt others car <= car_z car).
    { destruct Hm as [-> | ->]; [lra |].
      assert (0 <= (- v) * dt) by (apply Qmult_le_0_compat; lra). lra. }
    destruct (Qltb v 0 && Qltb (moved_z dt others car) (car_minZ car))
      eqn:Hw.
    + lra.
    + apply andb_false_iff in Hw. destruct Hw as [Hw | Hw].
      * apply Qltb_ge in Hw.
        assert (Hv : v == 0) by lra.
        assert (moved_z dt others car == car_z car).
        { destruct Hm as [-> | ->]; [reflexivity |]. rewrite Hv. lra. }
        lra.
      * apply Qltb_ge in Hw. lra.
Qed.

Lemma moveCars_from_in_bounds (dt : Q) (todo done : list Car) :
  0 <= dt ->
  Forall car_in_bounds done -> Forall car_in_bounds todo ->
  Forall car_in_bounds (moveCars_from dt done todo).
Proof.
  intros Hdt. revert done.
  induction todo as [| car rest IH]; intros done Hdone Htodo; cbn.
  - exact Hdone.
  - inversion Htodo as [| ? ? Hcar Hrest]; subst.
    apply IH; [| exact Hrest].
    apply Forall_app. split; [exact Hdone |].
    constructor; [| constructor].
    apply moveCar_in_bounds; assumption.
Qed.

Lemma moveCars_in_bounds (dt : Q) (cs : list Car) :
  0 <= dt -> Forall car_in_bounds cs -> Forall car_in_bounds (moveCars dt cs).
Proof.
  intros Hdt Hcs. apply moveCars_from_in_bounds; auto.
Qed.

Lemma simulate_traffic_in_bounds (dts : list Q) (cs : list Car) :
  Forall (fun dt => 0 <= dt) dts ->
  Forall car_in_bounds cs ->
  Forall car_in_bounds (simulate_traffic dts cs).
Proof.
  unfold simulate_traffic. intros Hdts. revert cs.
  induction Hdts as [| dt dts Hdt Hdts IH]; intros cs Hcs; cbn.
  - exact Hcs.
  - apply IH. apply moveCars_in_bounds; assumption.
Qed.

(** ** Loops and spawners *)

Lemma for_loop_invariant {A : Type} (P : A -> Prop) (body : Z -> A -> A) :
  (forall i a, P a -> P (body i a)) ->
  forall n i a, P a -> P (for_loop n i body a).
Proof.
  intros Hbody. induction n as [| n IH]; intros i a Ha; cbn.
  - exact Ha.
  - apply IH, Hbody, Ha.
Qed.

Lemma spawnCar_in_bounds (rng : nat -> Q) (row : Row) (h : Q) (i : Z)
      (w : World) :
  unit_draws rng -> 0 <= h ->
  Forall car_in_bounds (cars w) ->
  Forall car_in_bounds (cars (spawnCar rng row h i w)).
Proof.
  intros Hrng Hh Hw. unfold spawnCar, random.
  destruct (negb _); [| exact Hw].
  cbn [cars set_cars set_randomCalls].
  apply Forall_app. split; [exact Hw |].
  constructor; [| constructor].
  destruct (Hrng (randomCalls w)) as [H0 H1].
  set (r := rng (randomCalls w)) in *.
  assert (0 <= r * (h * 2)) by (apply Qmult_le_0_compat; lra).
  assert (r * (h * 2) <= 1 * (h * 2))
    by (apply Qmult_le_compat_r; lra).
  unfold car_in_bounds. cbn [car_minZ car_maxZ car_z]. lra.
Qed.

Lemma spawnCarsOnRow_in_bounds (rng : nat -> Q) (row : Row) (w : World) :
  unit_draws rng ->
  Forall car_in_bounds (cars w) ->
  Forall car_in_bounds (cars (spawnCarsOnRow rng row w)).
Proof.
  intros Hrng Hw. unfold spawnCarsOnRow.
  destruct (row_type row); [exact Hw |].
  unfold random.
  apply (for_loop_invariant (fun w => Forall car_in_bounds (cars w))).
  - intros i a Ha. apply spawnCar_in_bounds; [exact Hrng | | exact Ha].
    vm_compute. discriminate.
  - exact Hw.
Qed.

(** C3.  Cars spawned on a lane into a population of cars within their
    bounds are within [[minZ, maxZ]], and the move-and-wrap step of any
    sequence of ticks with [0 <= dt] keeps every car there.  In one step the
    bounds and the lane of a car do not change; a car of positive speed
    heading in direction [> 0] whose moved coordinate exceeds [maxZ] is
    put at [minZ], and symmetrically for direction [< 0]. *)
Theorem traffic_keeps_cars_within_bounds :
  forall (rng : nat -> Q) (row : Row) (w : World) (dts : list Q),
    unit_draws rng ->
    Forall car_in_bounds (cars w) ->
    Forall (fun dt => 0 <= dt) dts ->
    Forall car_in_bounds
           (simulate_traffic dts (cars (spawnCarsOnRow rng row w)))
    /\ forall (dt : Q) (others : list Car) (car : Car),
         car_minZ (moveCar dt others car) = car_minZ car
         /\ car_maxZ (moveCar dt others car) = car_maxZ car
         /\ (0 < car_speed car -> 0 < car_direction car ->
             car_maxZ car < moved_z dt others car ->
             car_z (moveCar dt others car) = car_minZ car)
         /\ (0 < car_speed car -> car_direction car < 0 ->
             moved_z dt others car < car_minZ car ->
             car_z (moveCar dt others car) = car_maxZ car).
Proof.
  intros rng row w dts Hrng Hw Hdts. split.
  - apply simulate_traffic_in_bounds; [exact Hdts |].
    apply spawnCarsOnRow_in_bounds; assumption.
  - intros dt others car.
    destruct (moveCar_bounds_kept dt others car) as [Hmin [Hmax _]].
    split; [exact Hmin |]. split; [exact Hmax |].
    rewrite moveCar_z. split.
    + intros Hs Hd Hz.
      assert (Hv : 0 < car_speed car * car_direction car)
        by (apply Qmult_lt_0_compat; assumption).
      apply Qgtb_gt in Hv. apply Qgtb_gt in Hz. rewrite Hv, Hz. reflexivity.
    + intros Hs Hd Hz.
      assert (Hv : car_speed car * car_direction car < 0).
      { assert (0 < car_speed car * - car_direction car)
          by (apply Qmult_lt_0_compat; lra).
        lra. }
      replace (Qgtb (car_speed car * car_direction car) 0) with false
        by (symmetry; apply Qgtb_le; lra).
      apply Qltb_lt in Hv. apply Qltb_lt in Hz. rewrite Hv, Hz. reflexivity.
Qed.

Lemma draws_quarter_unit : unit_draws draws_quarter.
Proof. intros n. split; vm_compute; [discriminate | reflexivity]. Qed.

Lemma draws_half_unit : unit_draws draws_half.
Proof. intros n. split; vm_compute; [discriminate | reflexivity]. Qed.

(** The car spawned on [road_row] starts at [-7.5] with velocity [-4.75];
    after a tick of one second it is at [-12.25] and after another of four
    seconds it has passed [minZ = -15] and wrapped to [maxZ = 15]. *)
Lemma traffic_keeps_cars_within_bounds_witness :
  Forall car_in_bounds
         (simulate_traffic [1; 4]
            (cars (spawnCarsOnRow draws_quarter road_row empty_world))).
Proof.
  apply (traffic_keeps_cars_within_bounds draws_quarter road_row empty_world
           [1; 4]).
  - exact draws_quarter_unit.
  - constructor.
  - repeat constructor; vm_compute; discriminate.
Defined.

Example traffic_wraps_to_maxZ :
  map car_z (simulate_traffic [1; 4]
               (cars (spawnCarsOnRow draws_quarter road_row empty_world)))
  = [15].
Proof. vm_compute. reflexivity. Qed.

(** ** World window: what each terrain function touches *)

Lemma createRow_world (rng : nat -> Q) (x : Q) (w : World) :
  trees (snd (createRow rng x w)) = trees w
  /\ cars (snd (createRow rng x w)) = cars w
  /\ terrainRows (snd (createRow rng x w)) = terrainRows w.
Proof.
  unfold createRow, random.
  destruct (Qgtb x (-5)); [destruct (Qltb (rng (randomCalls w)) 0.4) |];
    repeat split.
Qed.

Lemma spawnTree_frame (rng : nat -> Q) (row : Row) (i : Z) (w : World) :
  cars (spawnTree rng row i w) = cars w
  /\ terrainRows (spawnTree rng row i w) = terrainRows w.
Proof.
  unfold spawnTree, random.
  destruct (_ && _); [split; reflexivity |].
  destruct (Qltb _ 0.15); split; reflexivity.
Qed.

Lemma spawnTree_Forall (rng : nat -> Q) (P : Tree -> Prop) (row : Row)
      (i : Z) (w : World) :
  (forall t, tree_x t = row_x row -> P t) ->
  Forall P (trees w) -> Forall P (trees (spawnTree rng row i w)).
Proof.
  intros HP Hw. unfold spawnTree, random.
  destruct (_ && _); [exact Hw |].
  destruct (Qltb _ 0.15); [| exact Hw].
  cbn [trees set_trees set_randomCalls].
  apply Forall_app. split; [exact Hw |].
  constructor; [| constructor]. apply HP. reflexivity.
Qed.

Lemma spawnTreesOnRow_frame (rng : nat -> Q) (row : Row) (w : World) :
  cars (spawnTreesOnRow rng row w) = cars w
  /\ terrainRows (spawnTreesOnRow rng row w) = terrainRows w.
Proof.
  unfold spawnTreesOnRow. destruct (row_type row); [| split; reflexivity].
  apply (for_loop_invariant
           (fun w' => cars w' = cars w /\ terrainRows w' = terrainRows w)).
  - intros i a [Hc Hr].
    destruct (spawnTree_frame rng row i a) as [-> ->]. split; assumption.
  - split; reflexivity.
Qed.

Lemma spawnTreesOnRow_Forall (rng : nat -> Q) (P : Tree -> Prop) (row : Row)
      (w : World) :
  (forall t, tree_x t = row_x row -> P t) ->
  Forall P (trees w) -> Forall P (trees (spawnTreesOnRow rng row w)).
Proof.
  intros HP Hw. unfold spawnTreesOnRow.
  destruct (row_type row); [| exact Hw].
  apply (for_loop_invariant (fun w' => Forall P (trees w'))).
  - intros i a Ha. apply spawnTree_Forall; assumption.
  - exact Hw.
Qed.

Lemma spawnCar_frame (rng : nat -> Q) (row : Row) (h : Q) (i : Z)
      (w : World) :
  trees (spawnCar rng row h i w) = trees w
  /\ terrainRows (spawnCar rng row h i w) = terrainRows w.
Proof.
  unfold spawnCar, random. destruct (negb _); split; reflexivity.
Qed.

Lemma spawnCar_Forall (rng : nat -> Q) (P : Car -> Prop) (row : Row) (h : Q)
      (i : Z) (w : World) :
  (forall c, car_x c = row_x row -> P c) ->
  Forall P (cars w) -> Forall P (cars (spawnCar rng row h i w)).
Proof.
  intros HP Hw. unfold spawnCar, random.
  destruct (negb _); [| exact Hw].
  cbn [cars set_cars set_randomCalls].
  apply Forall_app. split; [exact Hw |].
  constructor; [| constructor]. apply HP. reflexivity.
Qed.

Lemma spawnCarsOnRow_frame (rng : nat -> Q) (row : Row) (w : World) :
  trees (spawnCarsOnRow rng row w) = trees w
  /\ terrainRows (spawnCarsOnRow rng row w) = terrainRows w.
Proof.
  unfold spawnCarsOnRow. destruct (row_type row); [split; reflexivity |].
  unfold random.
  apply (for_loop_invariant
           (fun w' => trees w' = trees w /\ terrainRows w' = terrainRows w)).
  - intros i a [Ht Hr].
    destruct (spawnCar_frame rng row (floor (TERRAIN_WIDTH / 2)) i a)
      as [-> ->].
    split; assumption.
  - split; reflexivity.
Qed.

Lemma spawnCarsOnRow_Forall (rng : nat -> Q) (P : Car -> Prop) (row : Row)
      (w : World) :
  (forall c, car_x c = row_x row -> P c) ->
  Forall P (cars w) -> Forall P (cars (spawnCarsOnRow rng row w)).
Proof.
  intros HP Hw. unfold spawnCarsOnRow.
  destruct (row_type row); [exact Hw |].
  unfold random.
  apply (for_loop_invariant (fun w' => Forall P (cars w'))).
  - intros i a Ha. apply spawnCar_Forall; assumption.
  - exact Hw.
Qed.

(** [addRow x] appends one lane at [x]; the trees and cars it adds are at
    [x]. *)
Lemma addRow_rows (rng : nat -> Q) (x : Q) (w : World) :
  terrainRows (addRow rng x w) = terrainRows w ++ [fst (createRow rng x w)].
Proof.
  unfold addRow.
  destruct (createRow rng x w) as [newRow w1] eqn:Hc.
  destruct (spawnCarsOnRow_frame rng newRow
              (spawnTreesOnRow rng newRow
                 (set_terrainRows (terrainRows w1 ++ [newRow]) w1)))
    as [_ ->].
  destruct (spawnTreesOnRow_frame rng newRow
              (set_terrainRows (terrainRows w1 ++ [newRow]) w1))
    as [_ ->].
  cbn [terrainRows set_terrainRows fst].
  destruct (createRow_world rng x w) as [_ [_ Hr]].
  rewrite Hc in Hr. cbn [snd] in Hr. rewrite Hr. reflexivity.
Qed.

Lemma addRow_trees (rng : nat -> Q) (P : Tree -> Prop) (x : Q) (w : World) :
  (forall t, tree_x t = x -> P t) ->
  Forall P (trees w) -> Forall P (trees (addRow rng x w)).
Proof.
  intros HP Hw. unfold addRow.
  pose proof (createRow_x rng x w) as Hx.
  destruct (createRow_world rng x w) as [Ht _].
  destruct (createRow rng x w) as [newRow w1]. cbn [fst snd] in *.
  destruct (spawnCarsOnRow_frame rng newRow
              (spawnTreesOnRow rng newRow
                 (set_terrainRows (terrainRows w1 ++ [newRow]) w1)))
    as [-> _].
  apply spawnTreesOnRow_Forall.
  - rewrite Hx. exact HP.
  - cbn [trees set_terrainRows]. rewrite Ht. exact Hw.
Qed.

Lemma addRow_cars (rng : nat -> Q) (P : Car -> Prop) (x : Q) (w : World) :
  (forall c, car_x c = x -> P c) ->
  Forall P (cars w) -> Forall P (cars (addRow rng x w)).
Proof.
  intros HP Hw. unfold addRow.
  pose proof (createRow_x rng x w) as Hx.
  destruct (createRow_world rng x w) as [_ [Hc _]].
  destruct (createRow rng x w) as [newRow w1]. cbn [fst snd] in *.
  apply spawnCarsOnRow_Forall.
  - rewrite Hx. exact HP.
  - destruct (spawnTreesOnRow_frame rng newRow
                (set_terrainRows (terrainRows w1 ++ [newRow]) w1))
      as [-> _].
    cbn [cars set_terrainRows]. rewrite Hc. exact Hw.
Qed.

(** ** World window: order of the lanes *)

Lemma for_loop_invariant_ix {A : Type} (P : Z -> A -> Prop)
      (body : Z -> A -> A) :
  (forall i a, P i a -> P (i + 1)%Z (body i a)) ->
  forall n i a, P i a -> P (i + Z.of_nat n)%Z (for_loop n i body a).
Proof.
  intros Hbody. induction n as [| n IH]; intros i a Ha.
  - cbn. replace (i + 0)%Z with i by lia. exact Ha.
  - cbn [for_loop].
    replace (i + Z.of_nat (S n))%Z with ((i + 1) + Z.of_nat n)%Z by lia.
    apply IH, Hbody, Ha.
Qed.

Lemma rows_sorted_snoc (rows : list Row) (r : Row) :
  rows_sorted rows ->
  Forall (fun a => row_x a < row_x r) rows ->
  rows_sorted (rows ++ [r]).
Proof.
  unfold rows_sorted. intros Hs Hall.
  induction Hs as [| a rows Hs IH Ha]; cbn.
  - constructor; constructor.
  - inversion Hall as [| ? ? Har Hrest]; subst.
    constructor; [apply IH, Hrest |].
    apply Forall_app. split; [exact Ha |].
    constructor; [exact Har | constructor].
Qed.

Lemma rows_sorted_distinct (rows : list Row) :
  rows_sorted rows -> rows_distinct rows.
Proof.
  unfold rows_sorted, rows_distinct.
  induction 1 as [| a rows Hs IH Ha]; constructor.
  - eapply Forall_impl; [| exact Ha].
    intros b Hab Heq. cbv beta in Hab. lra.
  - exact IH.
Qed.

Lemma shiftRows_sorted (thr : Q) (rows : list Row) :
  rows_sorted rows -> rows_sorted (shiftRows thr rows).
Proof.
  unfold rows_sorted.
  induction 1 as [| a rows Hs IH Ha]; cbn; [constructor |].
  destruct (Qltb (row_x a) thr); [exact IH |].
  constructor; assumption.
Qed.

Lemma rows_sorted_before_last (init : list Row) (x : Row) :
  rows_sorted (init ++ [x]) -> Forall (fun a => row_x a < row_x x) init.
Proof.
  unfold rows_sorted. induction init as [| a init IH]; cbn; intros Hs.
  - constructor.
  - inversion Hs as [| ? ? Hs' Ha]; subst.
    constructor; [| apply IH, Hs'].
    apply Forall_app in Ha. destruct Ha as [_ Hx].
    inversion Hx; assumption.
Qed.

Lemma last_cons_default (r : Row) (rs : list Row) :
  last (r :: rs) r = last rs r.
Proof. destruct rs; reflexivity. Qed.

Lemma rows_sorted_last (r : Row) (rs : list Row) :
  rows_sorted (r :: rs) ->
  Forall (fun a => row_x a <= row_x (last rs r)) (r :: rs).
Proof.
  intros Hs. rewrite <- last_cons_default.
  assert (Hne : r :: rs <> []) by discriminate.
  pose proof (app_removelast_last r Hne) as Hl.
  set (x := last (r :: rs) r) in *.
  rewrite Hl in Hs |- *.
  apply Forall_app. split.
  - eapply Forall_impl; [| apply rows_sorted_before_last, Hs].
    intros a Ha. apply Qlt_le_weak, Ha.
  - constructor; [apply Qle_refl | constructor].
Qed.

(** The loop of [updateTerrain] ends by its test: the rounds counted by
    [extend_rounds] are enough. *)
Lemma extendRows_ends_within (rng : nat -> Q) (thr : Q) :
  forall (n : nat) (lastX : Q) (w : World),
    thr - lastX <= inject_Z (Z.of_nat n) ->
    fst (extendRows rng n lastX thr w) = true.
Proof.
  induction n as [| n IH]; intros lastX w Hn.
  - cbn [extendRows]. replace (Qltb lastX thr) with false; [reflexivity |].
    symmetry. apply Qltb_ge.
    change (inject_Z (Z.of_nat 0)) with 0 in Hn. lra.
  - cbn [extendRows]. destruct (Qltb lastX thr); [| reflexivity].
    apply IH. rewrite Nat2Z.inj_succ in Hn. unfold Z.succ in Hn.
    rewrite inject_Z_plus in Hn. change (inject_Z 1) with 1 in Hn.
    unfold ROW_DEPTH. lra.
Qed.

Lemma extendRows_ends (rng : nat -> Q) (lastX thr : Q) (w : World) :
  fst (extendRows rng (extend_rounds lastX thr) lastX thr w) = true.
Proof.
  apply extendRows_ends_within. unfold extend_rounds.
  eapply Qle_trans; [apply Qle_ceiling |].
  rewrite <- Zle_Qle. lia.
Qed.

Lemma extendRows_invariant (rng : nat -> Q) (thr : Q)
      (P : Q -> World -> Prop) :
  (forall lastX w,
      lastX < thr -> P lastX w ->
      P (lastX + ROW_DEPTH) (addRow rng (lastX + ROW_DEPTH) w)) ->
  forall (fuel : nat) (lastX : Q) (w : World),
    P lastX w ->
    exists lastX', P lastX' (snd (extendRows rng fuel lastX thr w)).
Proof.
  intros Hstep. induction fuel as [| fuel IH]; intros lastX w HP.
  - exists lastX. cbn [extendRows]. destruct (Qltb lastX thr); exact HP.
  - cbn [extendRows]. destruct (Qltb lastX thr) eqn:Hlt.
    + apply IH, Hstep; [apply Qltb_lt, Hlt | exact HP].
    + exists lastX. exact HP.
Qed.

Lemma addRow_rows_up_to (rng : nat -> Q) (lastX x : Q) (w : World) :
  lastX < x -> rows_up_to lastX w -> rows_up_to x (addRow rng x w).
Proof.
  intros Hx [Hs Hle]. unfold rows_up_to. rewrite addRow_rows.
  pose proof (createRow_x rng x w) as Hrx. split.
  - apply rows_sorted_snoc; [exact Hs |].
    eapply Forall_impl; [| exact Hle].
    intros a Ha. cbv beta in Ha. rewrite Hrx. lra.
  - apply Forall_app. split.
    + eapply Forall_impl; [| exact Hle]. intros a Ha. cbv beta in Ha. lra.
    + constructor; [rewrite Hrx; apply Qle_refl | constructor].
Qed.

Lemma updateTerrain_sorted (rng : nat -> Q) (c : Q) (w : World) :
  rows_sorted (terrainRows w) ->
  rows_sorted (terrainRows (updateTerrain rng c w)).
Proof.
  intros Hs. unfold updateTerrain.
  cbn [terrainRows set_terrainRows set_trees set_cars].
  set (rows := shiftRows (c - 15.0) (terrainRows w)).
  assert (Hrows : rows_sorted rows) by (apply shiftRows_sorted, Hs).
  set (w1 := set_cars _ _).
  assert (Hw1 : terrainRows w1 = rows) by reflexivity.
  set (lastX := match rows with [] => 0 | r :: rs => row_x (last rs r) end).
  destruct (extendRows_invariant rng (c + DRAW_DISTANCE) rows_up_to)
    with (fuel := extend_rounds lastX (c + DRAW_DISTANCE)) (lastX := lastX)
         (w := w1) as [lastX' [Hsorted _]].
  - intros l a Hl Ha. apply (addRow_rows_up_to rng l); [| exact Ha].
    unfold ROW_DEPTH. lra.
  - split; rewrite Hw1; [exact Hrows |].
    unfold lastX. destruct rows as [| r rs]; [constructor |].
    apply rows_sorted_last, Hrows.
  - exact Hsorted.
Qed.

Lemma initTerrain_sorted (rng : nat -> Q) (startX : Q) (w : World) :
  terrainRows w = [] -> rows_sorted (terrainRows (initTerrain rng startX w)).
Proof.
  intros Hw. unfold initTerrain.
  pose proof
       (for_loop_invariant_ix
          (fun i w' =>
             rows_sorted (terrainRows w')
             /\ Forall (fun r => row_x r < startX + inject_Z i * ROW_DEPTH)
                       (terrainRows w'))
          (fun i w' => addRow rng (startX + inject_Z i * ROW_DEPTH) w'))
    as Hloop.
  apply Hloop.
  - intros i a [Hs Hlt]. rewrite addRow_rows.
    pose proof (createRow_x rng (startX + inject_Z i * ROW_DEPTH) a) as Hrx.
    assert (Hi : startX + inject_Z i * ROW_DEPTH
                 < startX + inject_Z (i + 1) * ROW_DEPTH).
    { rewrite inject_Z_plus. change (inject_Z 1) with 1.
      unfold ROW_DEPTH. lra. }
    split.
    + apply rows_sorted_snoc; [exact Hs |]. rewrite Hrx. exact Hlt.
    + apply Forall_app. split.
      * eapply Forall_impl; [| exact Hlt].
        intros r Hr. cbv beta in Hr. lra.
      * constructor; [rewrite Hrx; exact Hi | constructor].
  - rewrite Hw. split; constructor.
Qed.

Lemma resetTerrain_sorted (rng : nat -> Q) (w : World) :
  rows_sorted (terrainRows (resetTerrain rng w)).
Proof. apply initTerrain_sorted. reflexivity. Qed.

Lemma restartGame_world (rng : nat -> Q) (g : Game) :
  world (restartGame rng g) = resetTerrain rng (world g).
Proof. reflexivity. Qed.

(** C6.  After [initTerrain] on an empty lane list and any sequence of
    extend/evict calls, at any scroll positions, and resets as done by
    [restartGame], the lane list is in strictly increasing order of axis
    coordinate, and so has no two lanes at the same coordinate. *)
Theorem window_rows_strictly_sorted :
  forall (rng : nat -> Q) (startX : Q) (w : World) (ops : list WindowOp),
    terrainRows w = [] ->
    rows_sorted
      (terrainRows (fold_left (window_op rng) ops (initTerrain rng startX w)))
    /\ rows_distinct
         (terrainRows
            (fold_left (window_op rng) ops (initTerrain rng startX w))).
Proof.
  intros rng startX w ops Hw.
  assert (Hs : rows_sorted
                 (terrainRows
                    (fold_left (window_op rng) ops
                               (initTerrain rng startX w)))).
  { pose proof (initTerrain_sorted rng startX w Hw) as H0.
    revert H0. generalize (initTerrain rng startX w).
    induction ops as [| op ops IH]; intros w0 H0; cbn [fold_left].
    - exact H0.
    - apply IH. destruct op; cbn [window_op].
      + apply updateTerrain_sorted, H0.
      + apply resetTerrain_sorted. }
  split; [exact Hs | apply rows_sorted_distinct, Hs].
Qed.

Lemma window_rows_strictly_sorted_witness :
  rows_sorted
    (terrainRows
       (fold_left (window_op draws_quarter)
                  [ExtendEvict (-23 # 2); Reset; ExtendEvict 30]
                  (initTerrain draws_quarter (-12) empty_world))).
Proof.
  apply (window_rows_strictly_sorted draws_quarter (-12) empty_world
           [ExtendEvict (-23 # 2); Reset; ExtendEvict 30]).
  reflexivity.
Defined.

(** ** World window: the band of live trees and cars *)

Lemma Forall_last {A : Type} (P : A -> Prop) (l : list A) (d : A) :
  l <> [] -> Forall P l -> P (last l d).
Proof.
  intros Hne Hall. rewrite (app_removelast_last d Hne) in Hall.
  apply Forall_app in Hall. destruct Hall as [_ Hl].
  inversion Hl; assumption.
Qed.

(** C5, as stated, fails from the second frame on.  With every draw equal
    to [1/4], a frame at [1000] ms and one at [2000] ms, the scroll position
    is [-11.8], so the band ends at [28.2]; the loop of [updateTerrain]
    runs while [lastX < 28.2], from [lastX = 28], and so adds the lane [29]
    and a car on it. *)
Lemma car_beyond_ahead_margin :
  let g := run draws_quarter game_quarter [Frame 1000 1; Frame 2000 1] in
  ~ entities_in (in_window (cameraX g)) (world g).
Proof.
  intros g [_ Hcars].
  apply (Forall_last _ _ (mkCar 0 0 0 0 0 0 0 0 0)) in Hcars.
  - destruct Hcars as [_ Hhi]. vm_compute in Hhi. apply Hhi. reflexivity.
  - vm_compute. discriminate.
Qed.

Lemma shiftRows_keeps (thr : Q) (rows : list Row) (r : Row) :
  In r rows -> thr <= row_x r -> In r (shiftRows thr rows).
Proof.
  induction rows as [| a rows IH]; intros Hin Hr; [destruct Hin |].
  cbn [shiftRows]. destruct (Qltb (row_x a) thr) eqn:Ha.
  - destruct Hin as [-> | Hin]; [| apply IH; assumption].
    apply Qltb_lt in Ha. lra.
  - exact Hin.
Qed.

Lemma filter_Forall_both {A : Type} (f : A -> bool) (P : A -> Prop)
      (l : list A) :
  Forall P l -> Forall (fun a => f a = true /\ P a) (filter f l).
Proof.
  intros Hall. apply Forall_forall. intros a Ha.
  apply filter_In in Ha. destruct Ha as [Hin Hf].
  rewrite Forall_forall in Hall. split; [exact Hf | apply Hall, Hin].
Qed.

(** C5, amended.  When the lane list is sorted, some lane is not behind the
    eviction threshold [c - 15], and no tree or car is at or beyond
    [c + DRAW_DISTANCE + ROW_DEPTH] (as after the update of an earlier tick
    at a scroll position not ahead of [c]), then after [updateTerrain(c)]
    every live tree and car has its axis coordinate in
    [[c - 15, c + DRAW_DISTANCE + ROW_DEPTH)]. *)
Theorem updateTerrain_keeps_entities_in_band :
  forall (rng : nat -> Q) (c : Q) (w : World),
    rows_sorted (terrainRows w) ->
    Exists (fun r => c - 15 <= row_x r) (terrainRows w) ->
    entities_in (fun x => x < c + DRAW_DISTANCE + ROW_DEPTH) w ->
    entities_in (in_window_plus_row c) (updateTerrain rng c w).
Proof.
  intros rng c w Hs Hex [Ht Hc]. unfold updateTerrain.
  set (thr := c - 15.0).
  assert (Hthr : thr == c - 15) by (unfold thr; lra).
  set (rows := shiftRows thr (terrainRows w)).
  set (w1 := set_cars _ _).
  assert (Hw1 : terrainRows w1 = rows) by reflexivity.
  set (lastX := match terrainRows w1 with
                | [] => 0
                | r :: rs => row_x (last rs r)
                end).
  assert (Hlast : c - 15 <= lastX).
  { apply Exists_exists in Hex. destruct Hex as [r [Hin Hr]].
    assert (Hin' : In r rows).
    { apply shiftRows_keeps; [exact Hin | lra]. }
    assert (Hrows : rows_sorted rows) by (apply shiftRows_sorted, Hs).
    unfold lastX. rewrite Hw1.
    destruct rows as [| r0 rs]; [destruct Hin' |].
    pose proof (rows_sorted_last r0 rs Hrows) as Hle.
    rewrite Forall_forall in Hle. specialize (Hle r Hin'). cbv beta in Hle.
    lra. }
  assert (Hw1in : entities_in (in_window_plus_row c) w1).
  { split.
    - change (trees w1)
        with (filter (fun tree => Qgeb (tree_x tree) thr) (trees w)).
      eapply Forall_impl; [| apply filter_Forall_both, Ht].
      intros t [Hge Hlt]. apply Qgeb_ge in Hge. split; lra.
    - change (cars w1)
        with (filter (fun car => Qgeb (car_x car) thr) (cars w)).
      eapply Forall_impl; [| apply filter_Forall_both, Hc].
      intros t [Hge Hlt]. apply Qgeb_ge in Hge. split; lra. }
  destruct (extendRows_invariant rng (c + DRAW_DISTANCE)
              (fun l w' => c - 15 <= l
                           /\ entities_in (in_window_plus_row c) w'))
    with (fuel := extend_rounds lastX (c + DRAW_DISTANCE)) (lastX := lastX)
         (w := w1) as [lastX' [_ Hin]].
  - intros l a Hl [Hlo [Hat Hac]]. unfold ROW_DEPTH in *.
    split; [lra |]. split.
    + apply addRow_trees; [| exact Hat].
      intros t ->. split; unfold ROW_DEPTH; lra.
    + apply addRow_cars; [| exact Hac].
      intros t ->. split; unfold ROW_DEPTH; lra.
  - split; assumption.
  - exact Hin.
Qed.

(** The world of [main] before the first frame, updated at the scroll
    position [-11.5]: the cars on the lanes [28] and [29] are new. *)
Lemma updateTerrain_keeps_entities_in_band_witness :
  entities_in (in_window_plus_row (-23 # 2))
              (updateTerrain draws_quarter (-23 # 2) (world game_quarter)).
Proof.
  apply (updateTerrain_keeps_entities_in_band draws_quarter (-23 # 2)
           (world game_quarter)).
  - apply initTerrain_sorted. reflexivity.
  - vm_compute. apply Exists_cons_hd. vm_compute. discriminate.
  - split; vm_compute; repeat constructor.
Defined.

Example updateTerrain_adds_lanes_28_29 :
  map car_x
      (skipn 32 (cars (updateTerrain draws_quarter (-23 # 2)
                                     (world game_quarter))))
  = [28; 29].
Proof. vm_compute. reflexivity. Qed.

(** [initTerrain(startX)] on an empty world puts every tree and car on one
    of the fifty lanes from [startX - 10] on, inside the band of the
    specification at the scroll position [startX]. *)
Lemma initTerrain_band (rng : nat -> Q) (startX : Q) (w : World) :
  trees w = [] -> cars w = [] ->
  entities_in (in_window startX) (initTerrain rng startX w).
Proof.
  intros Ht Hc. unfold initTerrain.
  pose proof
       (for_loop_invariant_ix
          (fun i w' =>
             (-10 <= i)%Z
             /\ entities_in
                  (fun x => startX - 10 <= x /\ x < startX + inject_Z i) w')
          (fun i w' => addRow rng (startX + inject_Z i * ROW_DEPTH) w'))
    as Hloop.
  destruct (Hloop) with (n := Z.to_nat (Qfloor DRAW_DISTANCE - -10))
                        (i := (-10)%Z) (a := w) as [_ [Htrees Hcars]].
  - intros i a [Hi [Hat Hac]].
    assert (Hi' : inject_Z (-10) <= inject_Z i) by (rewrite <- Zle_Qle; lia).
    change (inject_Z (-10)) with (-10) in Hi'.
    assert (Hstep : inject_Z (i + 1) == inject_Z i + 1).
    { rewrite inject_Z_plus. reflexivity. }
    split; [lia |]. split.
    + apply addRow_trees.
      * intros t ->. unfold ROW_DEPTH. split; lra.
      * eapply Forall_impl; [| exact Hat]. intros t [? ?]. split; lra.
    + apply addRow_cars.
      * intros t ->. unfold ROW_DEPTH. split; lra.
      * eapply Forall_impl; [| exact Hac]. intros t [? ?]. split; lra.
  - split; [lia |]. unfold entities_in. rewrite Ht, Hc.
    split; constructor.
  - change (-10 + Z.of_nat (Z.to_nat (Qfloor DRAW_DISTANCE - -10)))%Z
      with 40%Z in *.
    change (inject_Z 40) with 40 in *.
    unfold in_window, DRAW_DISTANCE.
    split; (eapply Forall_impl; [| eassumption]);
      intros t [Hlo Hhi]; split; lra.
Qed.

(** Once every lane has fallen behind the eviction threshold the loop of
    [updateTerrain] restarts from [lastX = 0]: at the scroll position [100]
    the new lanes, and the cars on them, start at [1], far behind
    [100 - 15]. *)
Example updateTerrain_restarts_from_zero :
  option_map car_x
    (hd_error (cars (updateTerrain draws_quarter 100 (world game_quarter))))
  = Some 1.
Proof. vm_compute. reflexivity. Qed.

(** ** Score *)

Ltac split_ifs :=
  repeat match goal with
         | |- context [if ?c then _ else _] => destruct c
         end.

Lemma keyDown_score_fields (event : KeyEvent) (g : Game) :
  score_fields (keyDown event g) = score_fields g.
Proof. unfold keyDown. split_ifs; reflexivity. Qed.

Lemma pauseClick_score_fields (g : Game) :
  score_fields (pauseClick g) = score_fields g.
Proof. reflexivity. Qed.

Lemma gameOver_score_fields (g : Game) :
  score_fields (gameOver g) = score_fields g.
Proof. reflexivity. Qed.

Lemma phase_left_behind_score_fields (g : Game) :
  score_fields (phase_left_behind g) = score_fields g.
Proof. unfold phase_left_behind. split_ifs; reflexivity. Qed.

Lemma phase_camera_score_fields (aspect : Q) (g : Game) :
  score_fields (phase_camera aspect g) = score_fields g.
Proof.
  unfold phase_camera. destruct (Qltb _ _); destruct (projectionMode _);
    split_ifs; reflexivity.
Qed.

Lemma phase_collision_score_fields (g : Game) :
  score_fields (phase_collision g) = score_fields g.
Proof. unfold phase_collision. split_ifs; reflexivity. Qed.

Lemma phase_frameCount_score_fields (g : Game) :
  score_fields (phase_frameCount g) = score_fields g.
Proof. reflexivity. Qed.

Lemma phase_window_score_fields (rng : nat -> Q) (g : Game) :
  score_fields (phase_window rng g) = score_fields g.
Proof. reflexivity. Qed.

Lemma phase_traffic_score_fields (dt : Q) (g : Game) :
  score_fields (phase_traffic dt g) = score_fields g.
Proof. reflexivity. Qed.

Lemma phase_scroll_score_fields (dt : Q) (g : Game) :
  score_fields (phase_scroll dt g) = score_fields g.
Proof. reflexivity. Qed.

Lemma phase_score_lastTime (t : option Q) (g : Game) :
  score_fields (phase_score (set_lastTime t g)) = score_fields (phase_score g).
Proof. unfold phase_score. cbn [player maxDistanceX set_lastTime].
       destruct (Qgtb _ _); reflexivity. Qed.

Lemma tick_score_fields (rng : nat -> Q) (time aspect : Q) (g : Game) :
  score_fields (tick_in_code_order rng time aspect g)
  = score_fields (phase_score g).
Proof.
  unfold tick_in_code_order, phase_clock.
  rewrite phase_frameCount_score_fields, phase_window_score_fields,
    phase_collision_score_fields, phase_traffic_score_fields,
    phase_camera_score_fields, phase_left_behind_score_fields,
    phase_scroll_score_fields.
  apply phase_score_lastTime.
Qed.

Lemma score_le (g g' : Game) :
  maxDistanceX g <= maxDistanceX g' -> (score g <= score g')%Z.
Proof.
  intros H. unfold score. apply Qfloor_resp_le.
  unfold Qdiv. apply Qmult_le_compat_r; [lra |].
  vm_compute. discriminate.
Qed.

(** One event other than a restart: [maxDistanceX] does not decrease, and
    a score text that shows the score keeps showing it. *)
Lemma handle_score (rng : nat -> Q) (g : Game) (e : Event) :
  e <> RestartClick ->
  maxDistanceX g <= maxDistanceX (handle rng g e)
  /\ (scoreText g = score g ->
      scoreText (handle rng g e) = score (handle rng g e)).
Proof.
  intros He.
  assert (Hsame : forall g',
             score_fields g' = score_fields g ->
             maxDistanceX g <= maxDistanceX g'
             /\ (scoreText g = score g -> scoreText g' = score g')).
  { intros g' Hf. unfold score_fields, score in *.
    injection Hf as Hm Hs. rewrite Hm, Hs.
    split; [apply Qle_refl | auto]. }
  destruct e as [event | time aspect | |]; cbn [handle].
  - apply Hsame, keyDown_score_fields.
  - rewrite drawScene_phases. destruct (isPaused g).
    + apply Hsame. reflexivity.
    + pose proof (tick_score_fields rng time aspect g) as Hf.
      revert Hf. generalize (tick_in_code_order rng time aspect g).
      intros g' Hf. unfold phase_score in Hf.
      destruct (Qgtb (p_x (player g)) (maxDistanceX g)) eqn:Hgt.
      * unfold score_fields in Hf.
        cbn [maxDistanceX scoreText set_scoreText set_maxDistanceX] in Hf.
        injection Hf as Hm Hs. unfold score. rewrite Hm, Hs.
        apply Qgtb_gt in Hgt. split; [lra | reflexivity].
      * apply Hsame, Hf.
  - apply Hsame, pauseClick_score_fields.
  - contradiction He. reflexivity.
Qed.

(** C4.  Over any sequence of events of one session (key presses, frames,
    pause clicks; no restart) the furthest progress [maxDistanceX] and the
    score [floor((maxDistanceX - initialX) / step)] do not decrease, and a
    score text that shows the score keeps showing it.  Right after
    [restartGame] the score and the score text are [0] and [maxDistanceX]
    is the initial lane-axis coordinate. *)
Theorem score_monotone_and_reset :
  forall (rng : nat -> Q) (g : Game) (es : list Event),
    Forall (fun e => e <> RestartClick) es ->
    (maxDistanceX g <= maxDistanceX (run rng g es)
     /\ (score g <= score (run rng g es))%Z
     /\ (scoreText g = score g ->
         scoreText (run rng g es) = score (run rng g es)))
    /\ score (restartGame rng g) = 0%Z
    /\ scoreText (restartGame rng g) = 0%Z
    /\ maxDistanceX (restartGame rng g) = initialX.
Proof.
  intros rng g es Hes. split.
  - assert (H : maxDistanceX g <= maxDistanceX (run rng g es)
                /\ (scoreText g = score g ->
                    scoreText (run rng g es) = score (run rng g es))).
    { unfold run. revert g.
      induction Hes as [| e es He Hes IH]; intros g; cbn [fold_left].
      - split; [apply Qle_refl | auto].
      - destruct (handle_score rng g e He) as [Hm Hs].
        destruct (IH (handle rng g e)) as [Hm' Hs'].
        split; [eapply Qle_trans; eassumption | auto]. }
    destruct H as [Hm Hs].
    split; [exact Hm |]. split; [apply score_le, Hm | exact Hs].
  - repeat split.
Qed.

(** Two steps forward, each followed by a frame: the score goes from [0]
    to [2]. *)
Lemma score_monotone_and_reset_witness :
  (score game_half
   <= score (run draws_half game_half
                 [KeyDown (mkKeyEvent false "w"); Frame 1000 1;
                  KeyDown (mkKeyEvent false "w"); Frame 1016 1]))%Z.
Proof.
  apply (score_monotone_and_reset draws_half game_half
           [KeyDown (mkKeyEvent false "w"); Frame 1000 1;
            KeyDown (mkKeyEvent false "w"); Frame 1016 1]).
  repeat constructor; discriminate.
Defined.

Example score_after_two_steps :
  scoreText (run draws_half game_half
                 [KeyDown (mkKeyEvent false "w"); Frame 1000 1;
                  KeyDown (mkKeyEvent false "w"); Frame 1016 1]) = 2%Z.
Proof. vm_compute. reflexivity. Qed.

(** ** Game over and the pause button *)

(** C7, evaluated on the code.  After [gameOver()] the flag [isGameOver]
    stays set, but the click listener of the pause button does not read it:
    one click clears [isPaused], the next key press moves the player, and
    the next frame advances the scroll position, the score and the frame
    count. *)
Theorem pause_click_resumes_after_game_over :
  (isGameOver game_lost = true /\ isPaused game_lost = true)
  /\ (isGameOver game_resumed = true /\ isPaused game_resumed = false)
  /\ (cameraX game_lost == -8 /\ cameraX game_resumed == -39 # 5)
  /\ (p_x (player game_lost) == -5 /\ p_x (player game_resumed) == -4)
  /\ (scoreText game_lost = 0%Z /\ scoreText game_resumed = 1%Z)
  /\ (frameCount game_lost = 2%Z /\ frameCount game_resumed = 3%Z).
Proof. vm_compute. repeat split; reflexivity. Qed.

(** The click listener never reads or writes [isGameOver]. *)
Lemma pauseClick_flags (g : Game) :
  isGameOver (pauseClick g) = isGameOver g
  /\ isPaused (pauseClick g) = negb (isPaused g).
Proof. split; reflexivity. Qed.

(** ** Order of a tick *)

(** C8, as stated, fails: run in the order of the specification (window
    before traffic), the second frame of [game_quarter] moves the car it
    has just spawned on the lane [29] from [-7.5] to [-12.25]; [drawScene]
    moves the cars first and spawns afterwards, so that car is still at
    [-7.5]. *)
Lemma tick_order_differs_from_spec :
  drawScene draws_quarter 2000 1 game_quarter_1
  <> tick_in_spec_order draws_quarter 2000 1 game_quarter_1
  /\ car_z (last (cars (world (drawScene draws_quarter 2000 1
                                         game_quarter_1))) no_car)
     == -15 # 2
  /\ car_z (last (cars (world (tick_in_spec_order draws_quarter 2000 1
                                                  game_quarter_1))) no_car)
     == -49 # 4.
Proof.
  assert (Hcode : car_z (last (cars (world (drawScene draws_quarter 2000 1
                                                      game_quarter_1)))
                              no_car) == -15 # 2)
    by (vm_compute; reflexivity).
  assert (Hspec : car_z (last (cars (world (tick_in_spec_order
                                              draws_quarter 2000 1
                                              game_quarter_1)))
                              no_car) == -49 # 4)
    by (vm_compute; reflexivity).
  split; [| split; assumption].
  intros Heq. rewrite Heq in Hcode. rewrite Hcode in Hspec.
  revert Hspec. vm_compute. discriminate.
Qed.

(** ** What each phase of a tick touches *)

Lemma set_lastTime_twice (t t' : option Q) (g : Game) :
  set_lastTime t (set_lastTime t' g) = set_lastTime t g.
Proof. reflexivity. Qed.

Lemma phase_score_world_player (g : Game) :
  world_player (phase_score g) = world_player g.
Proof. unfold phase_score. split_ifs; reflexivity. Qed.

Lemma phase_left_behind_world_player (g : Game) :
  world_player (phase_left_behind g) = world_player g.
Proof. unfold phase_left_behind. split_ifs; reflexivity. Qed.

Lemma phase_camera_world_player (aspect : Q) (g : Game) :
  world_player (phase_camera aspect g) = world_player g.
Proof.
  unfold phase_camera. destruct (Qltb _ _); destruct (projectionMode _);
    split_ifs; reflexivity.
Qed.

Lemma phase_collision_world_player (g : Game) :
  world_player (phase_collision g) = world_player g.
Proof. unfold phase_collision. split_ifs; reflexivity. Qed.

Lemma tick_from_before_traffic (rng : nat -> Q) (time aspect : Q)
      (g : Game) :
  tick_in_code_order rng time aspect g =
  phase_frameCount
    (phase_window rng
       (phase_collision
          (phase_traffic (frame_dt time g) (before_traffic time aspect g)))).
Proof.
  cbv beta iota zeta delta [tick_in_code_order phase_clock before_traffic].
  reflexivity.
Qed.

Lemma before_traffic_world_player (time aspect : Q) (g : Game) :
  world_player (before_traffic time aspect g) = world_player g.
Proof.
  unfold before_traffic.
  rewrite phase_camera_world_player, phase_left_behind_world_player.
  change (world_player (phase_scroll ?d ?h)) with (world_player h).
  rewrite phase_score_world_player. reflexivity.
Qed.

Lemma tick_player (rng : nat -> Q) (time aspect : Q) (g : Game) :
  player (tick_in_code_order rng time aspect g) = player g.
Proof.
  rewrite tick_from_before_traffic.
  pose proof (before_traffic_world_player time aspect g) as H.
  revert H. generalize (before_traffic time aspect g). intros b H.
  injection H as _ Hp. rewrite <- Hp.
  change (player (phase_frameCount ?h)) with (player h).
  change (player (phase_window rng ?h)) with (player h).
  pose proof (phase_collision_world_player
                (phase_traffic (frame_dt time g) b)) as Hc.
  injection Hc as _ Hc. rewrite Hc. reflexivity.
Qed.

(** The fields of the state before the traffic phase, in terms of the
    state the frame started from. *)
Lemma before_traffic_summary (time aspect : Q) (g : Game) :
  isPaused (before_traffic time aspect g) = left_behind time g || isPaused g
  /\ isGameOver (before_traffic time aspect g)
     = left_behind time g || isGameOver g
  /\ scoreText (before_traffic time aspect g) = scoreText (phase_score g)
  /\ finalScoreText (before_traffic time aspect g)
     = (if left_behind time g then scoreText (phase_score g)
        else finalScoreText g)
  /\ modalHidden (before_traffic time aspect g)
     = (if left_behind time g then false else modalHidden g).
Proof.
  unfold before_traffic, left_behind.
  set (g2 := phase_score (set_lastTime (Some time) g)).
  assert (H2 : player g2 = player g /\ cameraX g2 = cameraX g
               /\ isPaused g2 = isPaused g /\ isGameOver g2 = isGameOver g
               /\ scoreText g2 = scoreText (phase_score g)
               /\ finalScoreText g2 = finalScoreText g
               /\ modalHidden g2 = modalHidden g).
  { unfold g2, phase_score. cbn [player maxDistanceX set_lastTime].
    destruct (Qgtb _ _); repeat split. }
  clearbody g2. destruct H2 as (Hp & Hc & Hpa & Hgo & Hs & Hf & Hm).
  rewrite <- Hp, <- Hc, <- Hpa, <- Hgo, <- Hs, <- Hf, <- Hm.
  generalize (frame_dt time g). intros dt.
  unfold phase_camera, phase_left_behind, phase_scroll.
  cbn [player cameraX set_cameraX].
  destruct (Qltb (p_x (player g2)) (cameraX g2 + scrollSpeed * dt + 3.8));
    cbv zeta; destruct (Qltb _ _); destruct (projectionMode _);
    try destruct (_ =? _)%Z; repeat split.
Qed.

Lemma phase_traffic_checkCollisionWithCars (time aspect : Q) (g : Game) :
  let g7 := phase_traffic (frame_dt time g) (before_traffic time aspect g) in
  checkCollisionWithCars g7 (p_x (player g7)) (p_z (player g7))
  = car_hit time g.
Proof.
  pose proof (before_traffic_world_player time aspect g) as H.
  unfold world_player in H. revert H.
  generalize (before_traffic time aspect g). intros b H.
  injection H as Hw Hp.
  cbv zeta. unfold checkCollisionWithCars, car_hit, phase_traffic.
  cbn [world set_world cars set_cars player].
  rewrite Hw, Hp. reflexivity.
Qed.

(** The flags and the score texts when a running tick ends. *)
Lemma tick_summary (rng : nat -> Q) (time aspect : Q) (g : Game) :
  let g' := tick_in_code_order rng time aspect g in
  isPaused g' = car_hit time g || (left_behind time g || isPaused g)
  /\ isGameOver g' = car_hit time g || (left_behind time g || isGameOver g)
  /\ scoreText g' = scoreText (phase_score g)
  /\ finalScoreText g'
     = (if car_hit time g || left_behind time g
        then scoreText (phase_score g) else finalScoreText g)
  /\ modalHidden g'
     = (if car_hit time g || left_behind time g then false
        else modalHidden g).
Proof.
  cbv zeta. rewrite tick_from_before_traffic.
  pose proof (phase_traffic_checkCollisionWithCars time aspect g) as Hhit.
  cbv zeta in Hhit.
  destruct (before_traffic_summary time aspect g)
    as (Hpa & Hgo & Hs & Hf & Hm).
  revert Hhit Hpa Hgo Hs Hf Hm.
  generalize (before_traffic time aspect g).
  intros b Hhit Hpa Hgo Hs Hf Hm.
  unfold phase_frameCount, phase_window, phase_collision.
  rewrite Hhit.
  destruct (car_hit time g); cbn [orb];
    cbn [isPaused isGameOver scoreText finalScoreText modalHidden
         set_frameCount set_world gameOver set_isPaused set_isGameOver
         set_finalScoreText set_modalHidden phase_traffic];
    rewrite ?Hpa, ?Hgo, ?Hs, ?Hf, ?Hm; repeat split.
Qed.

(** ** Pause *)

Lemma keyDown_paused (event : KeyEvent) (g : Game) :
  isPaused g = true -> keyDown event g = g.
Proof.
  intros Hp. unfold keyDown. rewrite Hp. destruct (ev_repeat event);
    reflexivity.
Qed.

(** X1.  While the engine is paused, key presses and frames change nothing
    but [lastTime], which holds the time stamp of the last frame. *)
Theorem paused_engine_only_refreshes_lastTime :
  forall (rng : nat -> Q) (g : Game) (es : list Event),
    isPaused g = true ->
    forallb key_or_frame es = true ->
    set_lastTime None (run rng g es) = set_lastTime None g
    /\ lastTime (run rng g es) = last_frame_time es (lastTime g).
Proof.
  intros rng g es. unfold run, last_frame_time. revert g.
  induction es as [| e es IH]; intros g Hp Hes; cbn [fold_left].
  - split; reflexivity.
  - cbn [forallb] in Hes. apply andb_true_iff in Hes.
    destruct Hes as [He Hes].
    destruct e as [event | time aspect | |]; try discriminate He;
      cbn [handle].
    + rewrite (keyDown_paused event g Hp). apply IH; assumption.
    + rewrite drawScene_phases, Hp.
      destruct (IH (set_lastTime (Some time) g) Hp Hes) as [Hs Hl].
      split; [rewrite Hs; reflexivity | exact Hl].
Qed.

Lemma paused_engine_only_refreshes_lastTime_witness :
  lastTime (run draws_half game_lost
                [Frame 30000 1; KeyDown (mkKeyEvent false "w");
                 Frame 31000 1])
  = Some 31000.
Proof.
  apply (paused_engine_only_refreshes_lastTime draws_half game_lost
           [Frame 30000 1; KeyDown (mkKeyEvent false "w"); Frame 31000 1]).
  - vm_compute. reflexivity.
  - reflexivity.
Defined.

(** ** End of the session *)

(** X2.  A tick of a running session leaves the session paused exactly
    when the player is left behind by the advanced scroll position or is
    within [0.7] of a car, on both axes, after the cars have moved; the
    game-over flag is then set, and otherwise keeps its value. *)
Theorem tick_ends_session_exactly_when :
  forall (rng : nat -> Q) (time aspect : Q) (g : Game),
    isPaused g = false ->
    isPaused (drawScene rng time aspect g)
    = left_behind time g || car_hit time g
    /\ isGameOver (drawScene rng time aspect g)
       = left_behind time g || car_hit time g || isGameOver g.
Proof.
  intros rng time aspect g Hrun. rewrite drawScene_phases, Hrun.
  destruct (tick_summary rng time aspect g) as (Hpa & Hgo & _).
  rewrite Hpa, Hgo, Hrun.
  destruct (left_behind time g); destruct (car_hit time g);
    destruct (isGameOver g); split; reflexivity.
Qed.

(** The first frame of [game_quarter]: the player is neither behind the
    scroll position nor near a car, and the session goes on. *)
Lemma tick_ends_session_exactly_when_witness :
  isPaused (drawScene draws_quarter 1000 1 game_quarter) = false.
Proof.
  apply (tick_ends_session_exactly_when draws_quarter 1000 1 game_quarter).
  vm_compute. reflexivity.
Defined.

(** X3.  When a tick ends the session, the final score text shown by the
    modal is the score text of that same tick, progress of the tick
    included. *)
Theorem final_score_is_score_of_last_tick :
  forall (rng : nat -> Q) (time aspect : Q) (g : Game),
    isPaused g = false ->
    isPaused (drawScene rng time aspect g) = true ->
    finalScoreText (drawScene rng time aspect g)
    = scoreText (drawScene rng time aspect g)
    /\ modalHidden (drawScene rng time aspect g) = false.
Proof.
  intros rng time aspect g Hrun. rewrite drawScene_phases, Hrun.
  destruct (tick_summary rng time aspect g) as (Hpa & _ & Hs & Hf & Hm).
  rewrite Hpa, Hs, Hf, Hm, Hrun. rewrite orb_false_r. intros Hend.
  rewrite Hend. split; reflexivity.
Qed.

Lemma final_score_is_score_of_last_tick_witness :
  finalScoreText (drawScene draws_half 21000 1
                            (drawScene draws_half 1000 1 game_half))
  = scoreText (drawScene draws_half 21000 1
                         (drawScene draws_half 1000 1 game_half))
  /\ modalHidden (drawScene draws_half 21000 1
                            (drawScene draws_half 1000 1 game_half))
     = false.
Proof.
  apply (final_score_is_score_of_last_tick draws_half 21000 1
           (drawScene draws_half 1000 1 game_half)).
  - vm_compute. reflexivity.
  - vm_compute. reflexivity.
Defined.

(** ** Player moves *)

Lemma keyDown_world (event : KeyEvent) (g : Game) :
  world (keyDown event g) = world g.
Proof. unfold keyDown. split_ifs; reflexivity. Qed.

Lemma keyDown_flags (event : KeyEvent) (g : Game) :
  isPaused (keyDown event g) = isPaused g
  /\ maxDistanceX (keyDown event g) = maxDistanceX g.
Proof.
  unfold keyDown. destruct (ev_repeat event); [split; reflexivity |].
  destruct (isPaused g) eqn:Hp; [split; [exact Hp | reflexivity] |].
  split_ifs; split; try exact Hp; reflexivity.
Qed.

Lemma keyDown_lateral_bound (event : KeyEvent) (g : Game) :
  within_lateral_bound g -> within_lateral_bound (keyDown event g).
Proof.
  unfold within_lateral_bound. intros [Hlo Hhi]. unfold keyDown.
  change (floor (TERRAIN_WIDTH / 4) + 1) with boundaryLimit.
  destruct (ev_repeat event); [split; assumption |].
  destruct (isPaused g); [split; assumption |].
  destruct (_ =? "1")%string; [split; assumption |].
  destruct (_ =? "2")%string; [split; assumption |].
  destruct (_ =? "c")%string; [split; assumption |].
  destruct (_ =? "w")%string.
  { destruct (negb _); split; assumption. }
  destruct (_ =? "s")%string.
  { destruct (negb _); split; assumption. }
  destruct (_ =? "a")%string.
  { destruct (Qgeb (p_z (player g) - step) (- boundaryLimit)) eqn:Hb;
      cbn [andb]; [| split; assumption].
    destruct (negb _); [| split; assumption].
    apply Qgeb_ge in Hb.
    cbn [player set_player p_z set_p_z set_p_rotationY].
    unfold step in *. split; lra. }
  destruct (_ =? "d")%string.
  { destruct (Qleb (p_z (player g) + step) boundaryLimit) eqn:Hb;
      cbn [andb]; [| split; assumption].
    destruct (negb _); [| split; assumption].
    apply Qleb_le in Hb.
    cbn [player set_player p_z set_p_z set_p_rotationY].
    unfold step in *. split; lra. }
  split; assumption.
Qed.

Lemma drawScene_player (rng : nat -> Q) (time aspect : Q) (g : Game) :
  player (drawScene rng time aspect g) = player g.
Proof.
  rewrite drawScene_phases. destruct (isPaused g); [reflexivity |].
  apply tick_player.
Qed.

(** X4.  The player's lateral coordinate stays within the world bound
    [[-boundaryLimit, boundaryLimit]] = [[-8, 8]] over every sequence of
    events: lateral moves beyond it are refused, frames and pause clicks do
    not move the player, and a restart puts the player at [0]. *)
Theorem player_stays_within_lateral_bound :
  forall (rng : nat -> Q) (g : Game) (es : list Event),
    within_lateral_bound g -> within_lateral_bound (run rng g es).
Proof.
  intros rng g es. unfold run. revert g.
  induction es as [| e es IH]; intros g Hg; cbn [fold_left];
    [exact Hg |].
  apply IH. destruct e as [event | time aspect | |]; cbn [handle].
  - apply keyDown_lateral_bound, Hg.
  - unfold within_lateral_bound. rewrite drawScene_player. exact Hg.
  - exact Hg.
  - unfold within_lateral_bound.
    change (p_z (player (restartGame rng g))) with 0.
    rewrite boundaryLimit_value. split; lra.
Qed.

(** Nine presses of "d" from the spawn position: the ninth is refused. *)
Lemma player_stays_within_lateral_bound_witness :
  within_lateral_bound
    (run draws_half game_half (repeat (KeyDown (mkKeyEvent false "d")) 9)).
Proof.
  apply (player_stays_within_lateral_bound draws_half game_half
           (repeat (KeyDown (mkKeyEvent false "d")) 9)).
  split; vm_compute; discriminate.
Defined.

Example ninth_step_right_is_refused :
  p_z (player (run draws_half game_half
                   (repeat (KeyDown (mkKeyEvent false "d")) 9))) == 8.
Proof. vm_compute. reflexivity. Qed.

Lemma checkCollisionWithTrees_column_free (g : Game) (x z : Q) :
  Forall (fun tree => 0.5 <= Qabs (tree_z tree - z)) (trees (world g)) ->
  checkCollisionWithTrees g x z = false.
Proof.
  intros Hfree. unfold checkCollisionWithTrees.
  induction Hfree as [| t ts Ht Hts IH]; cbn [existsb]; [reflexivity |].
  rewrite IH, orb_false_r.
  apply andb_false_iff. right. apply Qltb_ge. exact Ht.
Qed.

Lemma forward_press (g : Game) :
  isPaused g = false -> column_free g ->
  let g' := keyDown (mkKeyEvent false "w") g in
  p_x (player g') = p_x (player g) + step
  /\ p_z (player g') = p_z (player g)
  /\ p_rotationY (player g') = 90%Z
  /\ world g' = world g
  /\ isPaused g' = false
  /\ maxDistanceX g' = maxDistanceX g.
Proof.
  intros Hrun Hfree. cbv zeta. unfold keyDown.
  cbn [ev_repeat ev_key toLowerCase lower_ascii]. rewrite Hrun.
  change (toLowerCase "w") with "w"%string.
  cbn [String.eqb Ascii.eqb Bool.eqb].
  rewrite (checkCollisionWithTrees_column_free g _ _ Hfree).
  cbn [negb]. repeat split; try reflexivity. exact Hrun.
Qed.

Lemma forward_presses_position (rng : nat -> Q) (n : nat) :
  forall g : Game,
    isPaused g = false -> column_free g ->
    let g' := run rng g (forward_presses n) in
    p_x (player g') == p_x (player g) + inject_Z (Z.of_nat n)
    /\ p_z (player g') = p_z (player g)
    /\ world g' = world g
    /\ isPaused g' = false
    /\ maxDistanceX g' = maxDistanceX g.
Proof.
  unfold run, forward_presses.
  induction n as [| n IH]; intros g Hrun Hfree; cbv zeta.
  - cbn [repeat fold_left]. change (inject_Z (Z.of_nat 0)) with 0.
    repeat split; try reflexivity; [lra | exact Hrun].
  - cbn [repeat fold_left handle].
    destruct (forward_press g Hrun Hfree) as (Hx & Hz & _ & Hw & Hp & Hm).
    set (g1 := keyDown (mkKeyEvent false "w") g) in *.
    assert (Hfree1 : column_free g1).
    { unfold column_free. rewrite Hw, Hz. exact Hfree. }
    destruct (IH g1 Hp Hfree1) as (Hx' & Hz' & Hw' & Hp' & Hm').
    rewrite Hx', Hz', Hw', Hm', Hx, Hz, Hw, Hm.
    rewrite Nat2Z.inj_succ. unfold Z.succ. rewrite inject_Z_plus.
    change (inject_Z 1) with 1. unfold step.
    repeat split; try reflexivity; [lra | exact Hp'].
Qed.

(** X5.  In a running session with no tree in the player's column, [n]
    presses of "w" advance the player by [n] lanes, and the next frame
    shows the score [floor(player.x + n - initialX)] when that position is
    further than the furthest progress so far. *)
Theorem forward_presses_advance_and_score :
  forall (rng : nat -> Q) (g : Game) (n : nat) (time aspect : Q),
    isPaused g = false ->
    column_free g ->
    maxDistanceX g < p_x (player g) + inject_Z (Z.of_nat n) ->
    let g' := drawScene rng time aspect (run rng g (forward_presses n)) in
    p_x (player g') == p_x (player g) + inject_Z (Z.of_nat n)
    /\ scoreText g'
       = Qfloor (p_x (player g) + inject_Z (Z.of_nat n) - initialX).
Proof.
  intros rng g n time aspect Hrun Hfree Hfar. cbv zeta.
  destruct (forward_presses_position rng n g Hrun Hfree)
    as (Hx & _ & _ & Hp & Hm).
  revert Hx Hp Hm. generalize (run rng g (forward_presses n)).
  intros g1 Hx Hp Hm.
  rewrite drawScene_player. split; [exact Hx |].
  rewrite drawScene_phases, Hp.
  destruct (tick_summary rng time aspect g1) as (_ & _ & Hs & _).
  rewrite Hs. unfold phase_score.
  replace (Qgtb (p_x (player g1)) (maxDistanceX g1)) with true
    by (symmetry; apply Qgtb_gt; rewrite Hm, Hx; exact Hfar).
  cbn [scoreText set_scoreText maxDistanceX set_maxDistanceX].
  apply Qfloor_comp. unfold step. rewrite Hx. field.
Qed.

(** The scenario of the specification: ten steps forward from the spawn
    lane [-5] give the axis coordinate [5] and the score [10]. *)
Lemma forward_presses_advance_and_score_witness :
  p_x (player (drawScene draws_half 1000 1
                         (run draws_half game_half (forward_presses 10))))
  == -5 + 10
  /\ scoreText (drawScene draws_half 1000 1
                          (run draws_half game_half (forward_presses 10)))
     = 10%Z.
Proof.
  apply (forward_presses_advance_and_score draws_half game_half 10 1000 1).
  - reflexivity.
  - vm_compute. constructor.
  - vm_compute. reflexivity.
Defined.

(** ** The world through the events *)

Lemma tick_world (rng : nat -> Q) (time aspect : Q) (g : Game) :
  exists c,
    world (tick_in_code_order rng time aspect g)
    = updateTerrain rng c
        (set_cars (moveCars (frame_dt time g) (cars (world g))) (world g)).
Proof.
  rewrite tick_from_before_traffic.
  pose proof (before_traffic_world_player time aspect g) as H.
  unfold world_player in H. revert H.
  generalize (before_traffic time aspect g). intros b H.
  injection H as Hw _. rewrite <- Hw.
  exists (cameraX (phase_collision (phase_traffic (frame_dt time g) b))).
  unfold phase_frameCount, phase_window.
  cbn [world set_frameCount set_world]. f_equal.
  pose proof (phase_collision_world_player
                (phase_traffic (frame_dt time g) b)) as Hc.
  injection Hc as Hc _. rewrite Hc. reflexivity.
Qed.

(** A property of the world kept by the traffic-and-window step of a frame
    and established by the reset of a restart holds along every run. *)
Lemma run_world_invariant (rng : nat -> Q) (P : World -> Prop) :
  (forall c dt w,
      P w -> P (updateTerrain rng c (set_cars (moveCars dt (cars w)) w))) ->
  (forall w, P (resetTerrain rng w)) ->
  forall (es : list Event) (g : Game),
    P (world g) -> P (world (run rng g es)).
Proof.
  intros Hframe Hreset. unfold run.
  induction es as [| e es IH]; intros g Hg; cbn [fold_left]; [exact Hg |].
  apply IH. destruct e as [event | time aspect | |]; cbn [handle].
  - rewrite keyDown_world. exact Hg.
  - rewrite drawScene_phases. destruct (isPaused g); [exact Hg |].
    destruct (tick_world rng time aspect g) as [c ->].
    apply Hframe, Hg.
  - exact Hg.
  - rewrite restartGame_world. apply Hreset.
Qed.

(** Properties of all trees, or of all cars, that the spawners keep on the
    lanes [createRow] makes. *)
Section Populations.

Variable rng : nat -> Q.
Variable RO : Row -> Prop.
Variable PT : Tree -> Prop.
Variable PC : Car -> Prop.
Hypothesis createRow_makes : forall x w, RO (fst (createRow rng x w)).
Hypothesis spawnTree_keeps :
  forall row i w,
    RO row -> row_type row = grass ->
    Forall PT (trees w) -> Forall PT (trees (spawnTree rng row i w)).
Hypothesis spawnCar_keeps :
  forall row i w,
    RO row -> row_type row = road ->
    Forall PC (cars w) ->
    Forall PC (cars (spawnCar rng row (floor (TERRAIN_WIDTH / 2)) i w)).

Lemma addRow_population (x : Q) (w : World) :
  population PT PC w -> population PT PC (addRow rng x w).
Proof.
  intros [Ht Hc]. unfold addRow.
  destruct (createRow_world rng x w) as (Hct & Hcc & _).
  pose proof (createRow_makes x w) as Hro.
  destruct (createRow rng x w) as [newRow w1]. cbn [fst snd] in *.
  set (w2 := set_terrainRows (terrainRows w1 ++ [newRow]) w1).
  assert (H2 : population PT PC w2).
  { split; cbn [trees cars w2 set_terrainRows];
      [rewrite Hct | rewrite Hcc]; assumption. }
  clearbody w2. destruct H2 as [Ht2 Hc2].
  assert (H3 : population PT PC (spawnTreesOnRow rng newRow w2)).
  { split.
    - unfold spawnTreesOnRow.
      destruct (row_type newRow) eqn:Hty; [| exact Ht2].
      apply (for_loop_invariant (fun w' => Forall PT (trees w'))).
      + intros i a. apply spawnTree_keeps; assumption.
      + exact Ht2.
    - destruct (spawnTreesOnRow_frame rng newRow w2) as [-> _]. exact Hc2. }
  revert H3. generalize (spawnTreesOnRow rng newRow w2).
  intros w3 [Ht3 Hc3]. split.
  - destruct (spawnCarsOnRow_frame rng newRow w3) as [-> _]. exact Ht3.
  - unfold spawnCarsOnRow.
    destruct (row_type newRow) eqn:Hty; [exact Hc3 |].
    unfold random.
    apply (for_loop_invariant (fun w' => Forall PC (cars w'))).
    + intros i a. apply spawnCar_keeps; assumption.
    + exact Hc3.
Qed.

Lemma initTerrain_population (startX : Q) (w : World) :
  population PT PC w -> population PT PC (initTerrain rng startX w).
Proof.
  intros Hw. unfold initTerrain.
  apply (for_loop_invariant (population PT PC)); [| exact Hw].
  intros i a. apply addRow_population.
Qed.

Lemma updateTerrain_population (c : Q) (w : World) :
  population PT PC w -> population PT PC (updateTerrain rng c w).
Proof.
  intros [Ht Hc]. unfold updateTerrain.
  set (w1 := set_cars _ _).
  assert (H1 : population PT PC w1).
  { split; cbn [trees cars w1 set_cars set_trees set_terrainRows];
      apply Forall_forall; intros a Ha; apply filter_In in Ha;
      destruct Ha as [Ha _];
      [rewrite Forall_forall in Ht; apply Ht, Ha
      | rewrite Forall_forall in Hc; apply Hc, Ha]. }
  clearbody w1.
  match goal with
  | |- population PT PC (snd (extendRows rng ?f ?l ?t w1)) =>
      destruct (extendRows_invariant rng t
                  (fun _ w' => population PT PC w'))
        with (fuel := f) (lastX := l) (w := w1) as [_ H]
  end.
  - intros l a _. apply addRow_population.
  - exact H1.
  - exact H.
Qed.

Lemma resetTerrain_population (w : World) :
  population PT PC (resetTerrain rng w).
Proof.
  apply initTerrain_population. split; constructor.
Qed.

(** Along every run, when the traffic step keeps the property of the
    cars. *)
Lemma run_population (es : list Event) (g : Game) :
  (forall dt cs, Forall PC cs -> Forall PC (moveCars dt cs)) ->
  population PT PC (world g) -> population PT PC (world (run rng g es)).
Proof.
  intros Hmove. apply (run_world_invariant rng (population PT PC)).
  - intros c dt w [Ht Hc]. apply updateTerrain_population.
    split; [exact Ht | apply Hmove, Hc].
  - apply resetTerrain_population.
Qed.

Lemma initial_game_population (score0 final0 : Z) (hidden0 : bool)
      (label0 : string) :
  population PT PC (world (initial_game rng score0 final0 hidden0 label0)).
Proof.
  apply initTerrain_population. split; constructor.
Qed.

End Populations.

(** ** Lanes of a session and the safety zone *)

Lemma createRow_lane_safe (rng : nat -> Q) (x : Q) (w : World) :
  on_lane_grid x -> lane_safe (fst (createRow rng x w)).
Proof.
  intros Hgrid. unfold lane_safe. rewrite createRow_x.
  destruct (on_lane_grid_zone x Hgrid) as [Hzone Hahead].
  destruct (createRow_road_iff rng x w) as [Hgrass Hroad].
  split; [exact Hgrid |]. split.
  - intros Hz. apply Hgrass. rewrite (Hzone Hz). apply Qle_refl.
  - intros Hr. apply Hahead, Hroad, Hr.
Qed.

Lemma addRow_lane_safe (rng : nat -> Q) (x : Q) (w : World) :
  on_lane_grid x ->
  Forall lane_safe (terrainRows w) ->
  Forall lane_safe (terrainRows (addRow rng x w)).
Proof.
  intros Hgrid Hw. rewrite addRow_rows. apply Forall_app.
  split; [exact Hw |].
  constructor; [apply createRow_lane_safe, Hgrid | constructor].
Qed.

Lemma initTerrain_lane_safe (rng : nat -> Q) (startX : Q) (w : World) :
  on_lane_grid startX ->
  Forall lane_safe (terrainRows w) ->
  Forall lane_safe (terrainRows (initTerrain rng startX w)).
Proof.
  intros [k Hk] Hw. unfold initTerrain.
  apply (for_loop_invariant (fun w' => Forall lane_safe (terrainRows w')));
    [| exact Hw].
  intros i a Ha. apply addRow_lane_safe; [| exact Ha].
  exists (k + i)%Z. rewrite inject_Z_plus, Hk. unfold ROW_DEPTH. ring.
Qed.

Lemma shiftRows_Forall (P : Row -> Prop) (thr : Q) (rows : list Row) :
  Forall P rows -> Forall P (shiftRows thr rows).
Proof.
  induction 1 as [| a rows Ha Hrows IH]; cbn [shiftRows]; [constructor |].
  destruct (Qltb (row_x a) thr); [exact IH | constructor; assumption].
Qed.

Lemma Forall_last_row (P : Row -> Prop) (r : Row) (rs : list Row) :
  Forall P (r :: rs) -> P (last rs r).
Proof.
  intros H. rewrite Forall_forall in H. apply H.
  rewrite <- last_cons_default.
  assert (Hne : r :: rs <> []) by discriminate.
  pose proof (app_removelast_last r Hne) as Hl.
  set (x := last (r :: rs) r) in *. rewrite Hl.
  apply in_or_app. right. left. reflexivity.
Qed.

Lemma updateTerrain_lane_safe (rng : nat -> Q) (c : Q) (w : World) :
  Forall lane_safe (terrainRows w) ->
  Forall lane_safe (terrainRows (updateTerrain rng c w)).
Proof.
  intros Hw. unfold updateTerrain.
  cbn [terrainRows set_terrainRows set_trees set_cars].
  set (rows := shiftRows (c - 15.0) (terrainRows w)).
  assert (Hrows : Forall lane_safe rows) by (apply shiftRows_Forall, Hw).
  set (w1 := set_cars _ _).
  assert (Hw1 : terrainRows w1 = rows) by reflexivity.
  set (lastX := match rows with [] => 0 | r :: rs => row_x (last rs r) end).
  destruct (extendRows_invariant rng (c + DRAW_DISTANCE)
              (fun l w' =>
                 on_lane_grid l /\ Forall lane_safe (terrainRows w')))
    with (fuel := extend_rounds lastX (c + DRAW_DISTANCE)) (lastX := lastX)
         (w := w1) as [lastX' [_ H]].
  - intros l a _ [[k Hk] Ha].
    assert (Hl : on_lane_grid (l + ROW_DEPTH)).
    { exists (k + 1)%Z. rewrite inject_Z_plus, Hk. unfold ROW_DEPTH.
      change (inject_Z 1) with 1. ring. }
    split; [exact Hl | apply addRow_lane_safe; assumption].
  - split; [| rewrite Hw1; exact Hrows].
    unfold lastX. destruct rows as [| r rs].
    + exists 0%Z. reflexivity.
    + apply (Forall_last_row lane_safe r rs Hrows).
  - exact H.
Qed.

(** Along every run of the game every lane is at an integer coordinate,
    so [createRow] is called on the lane grid only; the lanes in the safety
    zone are grass and the road lanes are outside of it. *)
Lemma lanes_are_safe (rng : nat -> Q) (score0 final0 : Z) (hidden0 : bool)
      (label0 : string) (es : list Event) :
  Forall lane_safe
         (terrainRows
            (world (run rng (initial_game rng score0 final0 hidden0 label0)
                        es))).
Proof.
  apply (run_world_invariant rng
           (fun w => Forall lane_safe (terrainRows w))).
  - intros c dt w Hw. apply updateTerrain_lane_safe. exact Hw.
  - intros w. apply initTerrain_lane_safe; [| constructor].
    exists (-12)%Z. reflexivity.
  - apply initTerrain_lane_safe; [| constructor].
    exists (-12)%Z. reflexivity.
Qed.

Example spawn_lane_of_the_initial_game :
  map row_type
      (filter (fun r => Qltb (Qabs (row_x r - initialX)) safety_distance)
              (terrainRows (world (initial_game draws_quarter 0 0 true
                                                "PAUSE"))))
  = [grass].
Proof. vm_compute. reflexivity. Qed.

(** ** Keep-clear zone around the spawn position *)

Lemma spawnTree_clear (rng : nat -> Q) (row : Row) (i : Z) (w : World) :
  Forall tree_clear (trees w) ->
  Forall tree_clear (trees (spawnTree rng row i w)).
Proof.
  intros Hw. unfold spawnTree, random.
  destruct (Qltb (Qabs (row_x row - -5)) 3.0
            && Qltb (Qabs (inject_Z i * 1.0)) 3.0) eqn:Hguard;
    [exact Hw |].
  destruct (Qltb _ 0.15); [| exact Hw].
  cbn [trees set_trees set_randomCalls].
  apply Forall_app. split; [exact Hw |].
  constructor; [| constructor].
  unfold tree_clear. cbn [tree_x tree_z]. intros [Hx Hz].
  apply Qltb_lt in Hx. apply Qltb_lt in Hz.
  rewrite Hx, Hz in Hguard. discriminate Hguard.
Qed.

Lemma trees_clear_no_collision (g : Game) (x z : Q) :
  Forall tree_clear (trees (world g)) ->
  Qabs (x - -5) <= 2.5 -> Qabs z <= 2.5 ->
  checkCollisionWithTrees g x z = false.
Proof.
  intros Hclear Hx Hz. unfold checkCollisionWithTrees.
  induction Hclear as [| t ts Ht Hts IH]; cbn [existsb]; [reflexivity |].
  rewrite IH, orb_false_r.
  destruct (Qltb (Qabs (tree_x t - x)) 0.5) eqn:Htx; [| reflexivity].
  destruct (Qltb (Qabs (tree_z t - z)) 0.5) eqn:Htz; [| reflexivity].
  exfalso. apply Ht.
  apply Qltb_lt in Htx. apply Qltb_lt in Htz.
  apply Qabs_Qlt_condition in Htx. apply Qabs_Qlt_condition in Htz.
  apply Qabs_Qle_condition in Hx. apply Qabs_Qle_condition in Hz.
  split; apply Qabs_Qlt_condition; split; lra.
Qed.

(** X6.  Along every run of the game, no tree stands within the keep-clear
    rectangle of the spawn position, so no move to a position at most
    [2.5] from the spawn position [(-5, 0)] on both axes is ever vetoed by
    a tree: after a start or a restart the player can always move. *)
Theorem spawn_area_is_never_blocked :
  forall (rng : nat -> Q) (score0 final0 : Z) (hidden0 : bool)
         (label0 : string) (es : list Event) (x z : Q),
    Qabs (x - -5) <= 2.5 ->
    Qabs z <= 2.5 ->
    checkCollisionWithTrees
      (run rng (initial_game rng score0 final0 hidden0 label0) es) x z
    = false.
Proof.
  intros rng score0 final0 hidden0 label0 es x z Hx Hz.
  apply trees_clear_no_collision; [| exact Hx | exact Hz].
  apply (run_population rng (fun _ => True) tree_clear (fun _ => True)).
  - intros; exact I.
  - intros row i w _ _. apply spawnTree_clear.
  - intros row i w _ _ _. apply Forall_forall. intros; exact I.
  - intros dt cs _. apply Forall_forall. intros; exact I.
  - apply (initial_game_population rng (fun _ => True)).
    + intros; exact I.
    + intros row i w _ _. apply spawnTree_clear.
    + intros row i w _ _ _. apply Forall_forall. intros; exact I.
Qed.

(** With every draw equal to [1/10] each grass lane is full of trees
    outside the rectangle; the position [(-5, 2.5)] is free although a tree
    stands at [(-5, 3)]. *)
Lemma spawn_area_is_never_blocked_witness :
  checkCollisionWithTrees
    (run draws_tenth (initial_game draws_tenth 0 0 true "PAUSE")
         [Frame 1000 1; RestartClick])
    (-5) (5 # 2)
  = false.
Proof.
  apply (spawn_area_is_never_blocked draws_tenth 0 0 true "PAUSE"
           [Frame 1000 1; RestartClick] (-5) (5 # 2)).
  - vm_compute. discriminate.
  - vm_compute. discriminate.
Defined.

Example tree_next_to_the_clear_zone :
  checkCollisionWithTrees (initial_game draws_tenth 0 0 true "PAUSE") (-5) 3
  = true.
Proof. vm_compute. reflexivity. Qed.

(** ** Well-formed lanes and cars *)

Lemma createRow_wellformed (rng : nat -> Q) (x : Q) (w : World) :
  unit_draws rng -> row_wellformed (fst (createRow rng x w)).
Proof.
  intros Hrng. unfold createRow, random, row_wellformed.
  destruct (Qgtb x (-5)); [destruct (Qltb (rng (randomCalls w)) 0.4) |];
    cbn [fst row_type row_direction row_speed row_modelIndex randomCalls
         set_randomCalls]; try (repeat split; reflexivity).
  split; [| split; [| reflexivity]].
  - destruct (Qltb _ 0.5); [right | left]; reflexivity.
  - eexists. split; [reflexivity |].
    destruct (Hrng (S (S (randomCalls w)))) as [H0 H1]. split; lra.
Qed.

Lemma spawnCar_wellformed (rng : nat -> Q) (row : Row) (i : Z) (w : World) :
  row_wellformed row -> row_type row = road ->
  Forall car_wellformed (cars w) ->
  Forall car_wellformed
         (cars (spawnCar rng row (floor (TERRAIN_WIDTH / 2)) i w)).
Proof.
  intros Hrow Hty Hw. unfold row_wellformed in Hrow. rewrite Hty in Hrow.
  destruct Hrow as (Hd & (v & Hv & Hv3 & Hv10) & _).
  unfold spawnCar, random. destruct (negb _); [| exact Hw].
  cbn [cars set_cars set_randomCalls].
  apply Forall_app. split; [exact Hw |].
  constructor; [| constructor].
  unfold car_wellformed.
  cbn [car_direction car_speed car_minZ car_maxZ]. rewrite Hv.
  cbn [number_of]. repeat split; try assumption.
  destruct Hd as [-> | ->]; [left | right]; reflexivity.
Qed.

Lemma moveCar_static (dt : Q) (others : list Car) (car : Car) :
  set_car_z 0 (moveCar dt others car) = set_car_z 0 car.
Proof.
  unfold moveCar. destruct (negb _);
    cbn [set_car_z car_speed car_direction car_z car_maxZ car_minZ];
    destruct (_ && _); try destruct (_ && _); reflexivity.
Qed.

Lemma moveCars_from_static (dt : Q) (todo done : list Car) :
  map (set_car_z 0) (moveCars_from dt done todo)
  = map (set_car_z 0) done ++ map (set_car_z 0) todo.
Proof.
  revert done. induction todo as [| car rest IH]; intros done;
    cbn [moveCars_from map].
  - rewrite app_nil_r. reflexivity.
  - rewrite IH, map_app. cbn [map]. rewrite moveCar_static.
    rewrite <- app_assoc. reflexivity.
Qed.

Lemma car_wellformed_static (c c' : Car) :
  set_car_z 0 c' = set_car_z 0 c -> car_wellformed c -> car_wellformed c'.
Proof.
  intros H. unfold car_wellformed.
  assert (Hd : car_direction c' = car_direction c)
    by (change (car_direction (set_car_z 0 c')
                = car_direction (set_car_z 0 c)); rewrite H; reflexivity).
  assert (Hs : car_speed c' = car_speed c)
    by (change (car_speed (set_car_z 0 c')
                = car_speed (set_car_z 0 c)); rewrite H; reflexivity).
  assert (Hlo : car_minZ c' = car_minZ c)
    by (change (car_minZ (set_car_z 0 c')
                = car_minZ (set_car_z 0 c)); rewrite H; reflexivity).
  assert (Hhi : car_maxZ c' = car_maxZ c)
    by (change (car_maxZ (set_car_z 0 c')
                = car_maxZ (set_car_z 0 c)); rewrite H; reflexivity).
  rewrite Hd, Hs, Hlo, Hhi. auto.
Qed.

Lemma moveCars_wellformed (dt : Q) (cs : list Car) :
  Forall car_wellformed cs -> Forall car_wellformed (moveCars dt cs).
Proof.
  intros Hcs. pose proof (moveCars_from_static dt cs []) as Hst.
  cbn [map app] in Hst. fold (moveCars dt cs) in Hst.
  revert Hst. generalize (moveCars dt cs). intros cs'. revert cs'.
  induction Hcs as [| c cs Hc Hcs IH]; intros cs' Hst.
  - destruct cs'; [constructor | discriminate Hst].
  - destruct cs' as [| c' cs']; [discriminate Hst |].
    cbn [map] in Hst.
    assert (Hc' : set_car_z 0 c' = set_car_z 0 c)
      by exact (f_equal (fun l => hd (set_car_z 0 c) l) Hst).
    assert (Hrest : map (set_car_z 0) cs' = map (set_car_z 0) cs)
      by exact (f_equal (@tl Car) Hst).
    constructor; [exact (car_wellformed_static c c' Hc' Hc) |].
    apply IH, Hrest.
Qed.

(** X7.  With draws in [[0, 1)], along every run of the game every live
    car has direction [1] or [-1], a speed of at least [3] and at most [10],
    and the lateral bounds [-15] and [15]: lanes are created well-formed,
    cars copy the speed and direction of their lane, and the traffic step
    changes the lateral coordinate only. *)
Theorem cars_stay_wellformed :
  forall (rng : nat -> Q) (score0 final0 : Z) (hidden0 : bool)
         (label0 : string) (es : list Event),
    unit_draws rng ->
    Forall car_wellformed
           (cars (world (run rng
                             (initial_game rng score0 final0 hidden0 label0)
                             es))).
Proof.
  intros rng score0 final0 hidden0 label0 es Hrng.
  apply (run_population rng row_wellformed (fun _ => True) car_wellformed).
  - intros x w. apply createRow_wellformed, Hrng.
  - intros row i w _ _ _. apply Forall_forall. intros; exact I.
  - intros row i w. apply spawnCar_wellformed.
  - intros dt cs. apply moveCars_wellformed.
  - apply (initial_game_population rng row_wellformed).
    + intros x w. apply createRow_wellformed, Hrng.
    + intros row i w _ _ _. apply Forall_forall. intros; exact I.
    + intros row i w. apply spawnCar_wellformed.
Qed.

Lemma cars_stay_wellformed_witness :
  Forall car_wellformed
         (cars (world (run draws_quarter
                           (initial_game draws_quarter 0 0 true "PAUSE")
                           [Frame 1000 1; Frame 2000 1]))).
Proof.
  apply (cars_stay_wellformed draws_quarter 0 0 true "PAUSE"
           [Frame 1000 1; Frame 2000 1]).
  exact draws_quarter_unit.
Defined.

(** X8.  The traffic step changes nothing but lateral coordinates: the
    cars keep their number, their order, and every field other than
    [z]. *)
Theorem traffic_changes_only_lateral_coordinates :
  forall (dt : Q) (cs : list Car),
    map (set_car_z 0) (moveCars dt cs) = map (set_car_z 0) cs
    /\ List.length (moveCars dt cs) = List.length cs.
Proof.
  intros dt cs.
  pose proof (moveCars_from_static dt cs []) as Hst.
  cbn [map app] in Hst. fold (moveCars dt cs) in Hst.
  split; [exact Hst |].
  rewrite <- (length_map (set_car_z 0) (moveCars dt cs)), Hst.
  apply length_map.
Qed.

(** ** Scroll position *)

Lemma tick_cameraX_lastTime (rng : nat -> Q) (time aspect : Q) (g : Game) :
  cameraX (tick_in_code_order rng time aspect g) = next_cameraX time aspect g
  /\ lastTime (tick_in_code_order rng time aspect g) = Some time.
Proof.
  rewrite tick_from_before_traffic.
  assert (Hb : cameraX (before_traffic time aspect g)
               = next_cameraX time aspect g
               /\ lastTime (before_traffic time aspect g) = Some time).
  { unfold before_traffic, next_cameraX, advanced_cameraX,
      minCameraYForPlayer.
    set (g2 := phase_score (set_lastTime (Some time) g)).
    assert (H2 : player g2 = player g /\ cameraX g2 = cameraX g
                 /\ lastTime g2 = Some time).
    { unfold g2, phase_score. cbn [player maxDistanceX set_lastTime].
      destruct (Qgtb _ _); repeat split. }
    clearbody g2. destruct H2 as (Hp & Hc & Hl).
    rewrite <- Hp, <- Hc, <- Hl.
    generalize (frame_dt time g). intros dt.
    unfold phase_camera, phase_left_behind, phase_scroll.
    cbn [player cameraX set_cameraX].
    destruct (Qltb (p_x (player g2)) (cameraX g2 + scrollSpeed * dt + 3.8));
      cbv zeta;
      cbn [player cameraX lastTime gameOver set_isPaused set_isGameOver
           set_finalScoreText set_modalHidden set_cameraX];
      destruct (Qltb _ _); destruct (projectionMode _);
      try destruct (_ =? _)%Z; split; reflexivity. }
  revert Hb. generalize (before_traffic time aspect g).
  generalize (frame_dt time g). intros dt b [Hc Hl].
  rewrite <- Hc, <- Hl.
  unfold phase_frameCount, phase_window, phase_collision, phase_traffic.
  destruct (checkCollisionWithCars _ _ _); split; reflexivity.
Qed.

Lemma frame_dt_nonneg (time : Q) (g : Game) :
  match lastTime g with Some l => l <= time | None => True end ->
  0 <= frame_dt time g.
Proof.
  unfold frame_dt. intros Hl.
  assert (H : 0 <= time - (if no_lastTime (lastTime g) then time
                           else number_of (lastTime g))).
  { destruct (lastTime g) as [l |]; cbn [no_lastTime number_of]; [| lra].
    destruct (Qeqb l 0); lra. }
  unfold Qdiv. apply Qmult_le_0_compat; [exact H |].
  vm_compute. discriminate.
Qed.

Lemma next_cameraX_bounds (time aspect : Q) (g : Game) :
  advanced_cameraX time g <= next_cameraX time aspect g
  /\ minCameraYForPlayer aspect (p_x (player g)) <= next_cameraX time aspect g.
Proof.
  unfold next_cameraX.
  destruct (Qltb _ _) eqn:H; [apply Qltb_lt in H | apply Qltb_ge in H];
    split; lra.
Qed.

Lemma handle_cameraX (rng : nat -> Q) (g : Game) (e : Event) :
  e <> RestartClick ->
  times_ordered (lastTime g) [e] ->
  cameraX g <= cameraX (handle rng g e)
  /\ lastTime (handle rng g e) = last_frame_time [e] (lastTime g).
Proof.
  intros He Ht. cbn [last_frame_time fold_left].
  destruct e as [event | time aspect | |]; cbn [handle].
  - assert (H : cameraX (keyDown event g) = cameraX g
                /\ lastTime (keyDown event g) = lastTime g)
      by (unfold keyDown; split_ifs; split; reflexivity).
    destruct H as [-> ->]. split; [apply Qle_refl | reflexivity].
  - rewrite drawScene_phases. destruct (isPaused g).
    + split; [apply Qle_refl | reflexivity].
    + destruct (tick_cameraX_lastTime rng time aspect g) as [-> ->].
      split; [| reflexivity].
      destruct (next_cameraX_bounds time aspect g) as [Hadv _].
      cbn [times_ordered] in Ht. destruct Ht as [Ht _].
      pose proof (frame_dt_nonneg time g Ht) as Hdt.
      unfold advanced_cameraX in Hadv.
      assert (0 <= scrollSpeed * frame_dt time g).
      { apply Qmult_le_0_compat; [vm_compute; discriminate | exact Hdt]. }
      lra.
  - split; [apply Qle_refl | reflexivity].
  - contradiction He. reflexivity.
Qed.

(** X9.  Within a session (no restart), when the time stamps of the frames
    do not go back, the scroll position never decreases, whatever the
    keys, pauses and frames. *)
Theorem scroll_position_never_moves_back :
  forall (rng : nat -> Q) (es : list Event) (g : Game),
    Forall (fun e => e <> RestartClick) es ->
    times_ordered (lastTime g) es ->
    cameraX g <= cameraX (run rng g es).
Proof.
  intros rng es. unfold run.
  induction es as [| e es IH]; intros g Hes Ht; cbn [fold_left].
  - apply Qle_refl.
  - inversion Hes as [| ? ? He Hes']; subst.
    assert (Ht1 : times_ordered (lastTime g) [e]).
    { destruct e; cbn [times_ordered] in *; try exact I.
      destruct Ht as [Ht _]. split; [exact Ht | exact I]. }
    destruct (handle_cameraX rng g e He Ht1) as [Hc Hl].
    eapply Qle_trans; [exact Hc |].
    apply IH; [exact Hes' |].
    rewrite Hl. cbn [last_frame_time fold_left].
    destruct e; cbn [times_ordered] in Ht; try exact Ht.
    destruct Ht as [_ Ht]. exact Ht.
Qed.

Lemma scroll_position_never_moves_back_witness :
  cameraX game_quarter
  <= cameraX (run draws_quarter game_quarter
                  [Frame 1000 1; KeyDown (mkKeyEvent false "w"); PauseClick;
                   Frame 5000 1; PauseClick; Frame 6000 1]).
Proof.
  apply (scroll_position_never_moves_back draws_quarter
           [Frame 1000 1; KeyDown (mkKeyEvent false "w"); PauseClick;
            Frame 5000 1; PauseClick; Frame 6000 1] game_quarter).
  - repeat constructor; discriminate.
  - cbn. repeat split; vm_compute; discriminate.
Defined.

(** X10.  A running frame ends with the scroll position at the larger of
    its automatic advance and the position that keeps the player in view:
    the camera is never behind [player.x + worldHeight / 6 - 10]. *)
Theorem camera_is_pulled_to_the_player :
  forall (rng : nat -> Q) (time aspect : Q) (g : Game),
    isPaused g = false ->
    cameraX (drawScene rng time aspect g) = next_cameraX time aspect g
    /\ minCameraYForPlayer aspect (p_x (player (drawScene rng time aspect g)))
       <= cameraX (drawScene rng time aspect g)
    /\ cameraX g + scrollSpeed * frame_dt time g
       <= cameraX (drawScene rng time aspect g).
Proof.
  intros rng time aspect g Hrun. rewrite drawScene_player.
  rewrite drawScene_phases, Hrun.
  destruct (tick_cameraX_lastTime rng time aspect g) as [-> _].
  destruct (next_cameraX_bounds time aspect g) as [Hadv Hmin].
  split; [reflexivity |]. split; [exact Hmin | exact Hadv].
Qed.

(** After twenty steps forward the camera, at [-12], is pulled to
    [15 + 1 - 10 = 6]. *)
Lemma camera_is_pulled_to_the_player_witness :
  cameraX (drawScene draws_half 1000 1
                     (run draws_half game_half (forward_presses 20)))
  = next_cameraX 1000 1 (run draws_half game_half (forward_presses 20)).
Proof.
  apply (camera_is_pulled_to_the_player draws_half 1000 1
           (run draws_half game_half (forward_presses 20))).
  vm_compute. reflexivity.
Defined.

Example camera_after_twenty_steps :
  cameraX (drawScene draws_half 1000 1
                     (run draws_half game_half (forward_presses 20))) == 6.
Proof. vm_compute. reflexivity. Qed.

(** ** The outcome of a running tick *)

(** Every terrain function reads the draws from the count of the calls
    made so far onwards, and never moves that count back. *)
Section Ahead.

Variables rng rng' : nat -> Q.

Lemma agree_from_le (n m : nat) :
  (n <= m)%nat -> agree_from n rng rng' -> agree_from m rng rng'.
Proof. intros Hnm H k Hk. apply H. lia. Qed.

Lemma for_loop_ahead (body body' : Z -> World -> World) :
  (forall i, reads_ahead rng rng' (body i) (body' i)) ->
  forall n i,
    reads_ahead rng rng' (for_loop n i body) (for_loop n i body').
Proof.
  intros Hb. induction n as [| n IH]; intros i w H; cbn [for_loop].
  - split; [reflexivity | lia].
  - destruct (Hb i w H) as [Heq Hle]. rewrite <- Heq.
    destruct (IH (i + 1)%Z (body i w)) as [Heq' Hle'].
    + apply (agree_from_le (randomCalls w)); assumption.
    + split; [exact Heq' | lia].
Qed.

Lemma createRow_ahead (x : Q) (w : World) :
  agree_from (randomCalls w) rng rng' ->
  createRow rng x w = createRow rng' x w
  /\ (randomCalls w <= randomCalls (snd (createRow rng x w)))%nat.
Proof.
  intros H. unfold createRow, random.
  rewrite (H (randomCalls w)) by lia.
  destruct (Qgtb x (-5)); [destruct (Qltb _ 0.4) |];
    cbn [randomCalls set_randomCalls snd];
    rewrite ?(H (S (randomCalls w))), ?(H (S (S (randomCalls w)))) by lia;
    (split; [reflexivity | lia]).
Qed.

Lemma spawnTree_ahead (row : Row) (i : Z) :
  reads_ahead rng rng' (spawnTree rng row i) (spawnTree rng' row i).
Proof.
  intros w H. unfold spawnTree, random.
  destruct (_ && _); [split; [reflexivity | lia] |].
  rewrite (H (randomCalls w)) by lia.
  destruct (Qltb _ 0.15);
    cbn [randomCalls set_randomCalls set_trees];
    rewrite ?(H (S (randomCalls w))) by lia;
    (split; [reflexivity | lia]).
Qed.

Lemma spawnCar_ahead (row : Row) (h : Q) (i : Z) :
  reads_ahead rng rng' (spawnCar rng row h i) (spawnCar rng' row h i).
Proof.
  intros w H. unfold spawnCar, random.
  rewrite (H (randomCalls w)) by lia.
  destruct (negb _);
    cbn [randomCalls set_randomCalls set_cars];
    rewrite ?(H (S (randomCalls w))) by lia;
    (split; [reflexivity | lia]).
Qed.

Lemma spawnTreesOnRow_ahead (row : Row) :
  reads_ahead rng rng' (spawnTreesOnRow rng row) (spawnTreesOnRow rng' row).
Proof.
  unfold spawnTreesOnRow. destruct (row_type row).
  - apply for_loop_ahead. intros i. apply spawnTree_ahead.
  - intros w _. split; [reflexivity | lia].
Qed.

Lemma spawnCarsOnRow_ahead (row : Row) :
  reads_ahead rng rng' (spawnCarsOnRow rng row) (spawnCarsOnRow rng' row).
Proof.
  intros w H. unfold spawnCarsOnRow, random. destruct (row_type row).
  - split; [reflexivity | lia].
  - rewrite (H (randomCalls w)) by lia.
    match goal with
    | |- for_loop ?n ?i ?body ?a = _ /\ _ =>
        destruct (for_loop_ahead body
                    (spawnCar rng' row (floor (TERRAIN_WIDTH / 2)))
                    (spawnCar_ahead row (floor (TERRAIN_WIDTH / 2)))
                    n i a) as [Heq Hle]
    end.
    + apply (agree_from_le (randomCalls w)); [| exact H].
      cbn [randomCalls set_randomCalls]. lia.
    + split; [exact Heq |].
      cbn [randomCalls set_randomCalls] in Hle. lia.
Qed.

Lemma addRow_ahead (x : Q) :
  reads_ahead rng rng' (addRow rng x) (addRow rng' x).
Proof.
  intros w H. unfold addRow.
  destruct (createRow_ahead x w H) as [Heq Hle]. rewrite <- Heq.
  destruct (createRow rng x w) as [newRow w1]. cbn [snd] in Hle.
  set (w2 := set_terrainRows (terrainRows w1 ++ [newRow]) w1).
  assert (H2 : (randomCalls w <= randomCalls w2)%nat) by exact Hle.
  clearbody w2.
  destruct (spawnTreesOnRow_ahead newRow w2) as [Heq3 Hle3];
    [apply (agree_from_le (randomCalls w)); assumption |].
  rewrite <- Heq3.
  destruct (spawnCarsOnRow_ahead newRow (spawnTreesOnRow rng newRow w2))
    as [Heq4 Hle4];
    [apply (agree_from_le (randomCalls w)); [lia | exact H] |].
  split; [exact Heq4 | lia].
Qed.

Lemma extendRows_ahead (thr : Q) :
  forall (fuel : nat) (lastX : Q) (w : World),
    agree_from (randomCalls w) rng rng' ->
    extendRows rng fuel lastX thr w = extendRows rng' fuel lastX thr w
    /\ (randomCalls w
        <= randomCalls (snd (extendRows rng fuel lastX thr w)))%nat.
Proof.
  induction fuel as [| fuel IH]; intros lastX w H; cbn [extendRows].
  - destruct (Qltb lastX thr); split; cbn [snd]; reflexivity || lia.
  - destruct (Qltb lastX thr); [| split; cbn [snd]; reflexivity || lia].
    destruct (addRow_ahead (lastX + ROW_DEPTH) w H) as [Heq Hle].
    rewrite <- Heq.
    destruct (IH (lastX + ROW_DEPTH) (addRow rng (lastX + ROW_DEPTH) w))
      as [Heq' Hle'];
      [apply (agree_from_le (randomCalls w)); assumption |].
    split; [exact Heq' | lia].
Qed.

Lemma updateTerrain_ahead (c : Q) :
  reads_ahead rng rng' (updateTerrain rng c) (updateTerrain rng' c).
Proof.
  intros w H. unfold updateTerrain.
  match goal with
  | |- snd (extendRows rng ?f ?l ?t ?w1) = _ /\ _ =>
      destruct (extendRows_ahead t f l w1) as [Heq Hle]; [exact H |]
  end.
  rewrite <- Heq. split; [reflexivity | exact Hle].
Qed.

Lemma tick_in_code_order_ahead (time aspect : Q) (g : Game) :
  agree_from (randomCalls (world g)) rng rng' ->
  tick_in_code_order rng time aspect g
  = tick_in_code_order rng' time aspect g.
Proof.
  intros H. rewrite !tick_from_before_traffic.
  pose proof (before_traffic_world_player time aspect g) as Hb.
  unfold world_player in Hb. revert Hb.
  generalize (before_traffic time aspect g) (frame_dt time g).
  intros b dt Hb. injection Hb as Hw _.
  pose proof (phase_collision_world_player (phase_traffic dt b)) as Hc.
  unfold world_player in Hc. revert Hc.
  generalize (phase_collision (phase_traffic dt b)).
  intros h Hc. injection Hc as Hh _.
  unfold phase_frameCount, phase_window.
  destruct (updateTerrain_ahead (cameraX h) (world h)) as [Heq _].
  - rewrite Hh. unfold phase_traffic.
    cbn [world set_world randomCalls set_cars]. rewrite Hw. exact H.
  - rewrite Heq. reflexivity.
Qed.

End Ahead.

(** The fields of the state before the traffic phase that the session
    transitions do not touch. *)
Lemma before_traffic_rest (time aspect : Q) (g : Game) :
  cameraX (before_traffic time aspect g) = next_cameraX time aspect g
  /\ frameCount (before_traffic time aspect g) = frameCount g
  /\ projectionMode (before_traffic time aspect g) = projectionMode g
  /\ cameraMode (before_traffic time aspect g) = cameraMode g
  /\ pauseBtnText (before_traffic time aspect g) = pauseBtnText g
  /\ V (before_traffic time aspect g) = next_V g.
Proof.
  unfold before_traffic, next_cameraX, advanced_cameraX,
    minCameraYForPlayer, next_V.
  set (g2 := phase_score (set_lastTime (Some time) g)).
  assert (H2 : player g2 = player g /\ cameraX g2 = cameraX g
               /\ frameCount g2 = frameCount g
               /\ projectionMode g2 = projectionMode g
               /\ cameraMode g2 = cameraMode g
               /\ pauseBtnText g2 = pauseBtnText g
               /\ V g2 = V g).
  { unfold g2, phase_score. cbn [player maxDistanceX set_lastTime].
    destruct (Qgtb _ _); repeat split. }
  clearbody g2. destruct H2 as (Hp & Hc & Hf & Hpm & Hcm & Hb & Hv).
  rewrite <- Hp, <- Hc, <- Hf, <- Hpm, <- Hcm, <- Hb, <- Hv.
  generalize (frame_dt time g). intros dt.
  destruct g2 as [w p pa go md cx lt pm cm v fc st fst mh bt].
  unfold phase_camera, phase_left_behind, phase_scroll, gameOver.
  cbv beta iota zeta delta
      [world player isPaused isGameOver maxDistanceX cameraX lastTime
       projectionMode cameraMode V frameCount scoreText finalScoreText
       modalHidden pauseBtnText set_isPaused set_isGameOver
       set_finalScoreText set_modalHidden set_cameraX set_V].
  destruct (Qltb (p_x p) (cx + scrollSpeed * dt + 3.8));
    cbv beta iota zeta delta
        [world player isPaused isGameOver maxDistanceX cameraX lastTime
         projectionMode cameraMode V frameCount scoreText finalScoreText
         modalHidden pauseBtnText set_isPaused set_isGameOver
         set_finalScoreText set_modalHidden set_cameraX set_V];
    destruct (Qltb _ _); destruct pm; try destruct (cm =? 1)%Z;
    repeat split.
Qed.

Lemma tick_rest (rng : nat -> Q) (time aspect : Q) (g : Game) :
  world (tick_in_code_order rng time aspect g)
  = updateTerrain rng (next_cameraX time aspect g)
      (set_cars (moveCars (frame_dt time g) (cars (world g))) (world g))
  /\ frameCount (tick_in_code_order rng time aspect g)
     = (frameCount g + 1)%Z
  /\ projectionMode (tick_in_code_order rng time aspect g) = projectionMode g
  /\ cameraMode (tick_in_code_order rng time aspect g) = cameraMode g
  /\ pauseBtnText (tick_in_code_order rng time aspect g) = pauseBtnText g
  /\ V (tick_in_code_order rng time aspect g) = next_V g.
Proof.
  rewrite tick_from_before_traffic.
  pose proof (before_traffic_world_player time aspect g) as Hb.
  unfold world_player in Hb.
  destruct (before_traffic_rest time aspect g)
    as (Hc & Hf & Hpm & Hcm & Hbt & Hv).
  revert Hb Hc Hf Hpm Hcm Hbt Hv.
  generalize (before_traffic time aspect g) (next_cameraX time aspect g)
             (frame_dt time g).
  intros b c dt Hb Hc Hf Hpm Hcm Hbt Hv. injection Hb as Hw _.
  rewrite <- Hw, <- Hc, <- Hf, <- Hpm, <- Hcm, <- Hbt, <- Hv.
  unfold phase_frameCount, phase_window, phase_collision, phase_traffic.
  destruct (checkCollisionWithCars _ _ _); repeat split.
Qed.

Lemma phase_score_new (g : Game) :
  score_fields (phase_score g) = (new_maxDistanceX g, new_scoreText g).
Proof.
  unfold phase_score, new_maxDistanceX, new_scoreText, score_fields.
  destruct (Qgtb _ _); reflexivity.
Qed.

(** C8, amended.  The outcome of a tick of a running session, field by
    field, in terms of the state [g] the tick starts from, the time stamp,
    the aspect ratio of the canvas and the draws.  It shows the order of
    [drawScene] in what each step reads:
    - the clock comes first: every step uses the delta-time of this tick,
      and [lastTime] is the time stamp;
    - the score update precedes both session transitions: the final score
      text of a tick that ends the session includes the progress of that
      tick;
    - the left-behind test reads the scroll position after its automatic
      advance and before the camera is pulled to the player
      ([left_behind]), and the camera pull follows;
    - the car test reads the cars after their move of this tick
      ([car_hit]) and before the world window is updated;
    - the world window is updated last, at the final scroll position of
      the tick and on the cars already moved: the cars it spawns are
      neither moved nor tested in this tick.
    The outcome is the same for two sequences of draws that agree on the
    draws not yet made: together with the state, the time stamp and the
    aspect ratio, these draws determine it. *)
Theorem running_tick_outcome :
  forall (rng rng' : nat -> Q) (time aspect : Q) (g : Game),
    isPaused g = false ->
    agree_from (randomCalls (world g)) rng rng' ->
    lastTime (drawScene rng time aspect g) = Some time
    /\ (maxDistanceX (drawScene rng time aspect g) = new_maxDistanceX g
        /\ scoreText (drawScene rng time aspect g) = new_scoreText g)
    /\ cameraX (drawScene rng time aspect g) = next_cameraX time aspect g
    /\ (isPaused (drawScene rng time aspect g)
        = left_behind time g || car_hit time g
        /\ isGameOver (drawScene rng time aspect g)
           = left_behind time g || car_hit time g || isGameOver g
        /\ finalScoreText (drawScene rng time aspect g)
           = (if left_behind time g || car_hit time g
              then new_scoreText g else finalScoreText g)
        /\ modalHidden (drawScene rng time aspect g)
           = (if left_behind time g || car_hit time g
              then false else modalHidden g))
    /\ world (drawScene rng time aspect g)
       = updateTerrain rng (next_cameraX time aspect g)
           (set_cars (moveCars (frame_dt time g) (cars (world g)))
                     (world g))
    /\ (player (drawScene rng time aspect g) = player g
        /\ frameCount (drawScene rng time aspect g) = (frameCount g + 1)%Z
        /\ projectionMode (drawScene rng time aspect g) = projectionMode g
        /\ cameraMode (drawScene rng time aspect g) = cameraMode g
        /\ pauseBtnText (drawScene rng time aspect g) = pauseBtnText g
        /\ V (drawScene rng time aspect g) = next_V g)
    /\ drawScene rng' time aspect g = drawScene rng time aspect g.
Proof.
  intros rng rng' time aspect g Hrun Hdraws.
  rewrite !drawScene_phases, Hrun.
  rewrite <- (tick_in_code_order_ahead rng rng' time aspect g Hdraws).
  pose proof (tick_summary rng time aspect g) as Hsum. cbv zeta in Hsum.
  destruct Hsum as (Hpa & Hgo & Hs & Hf & Hm).
  destruct (tick_cameraX_lastTime rng time aspect g) as [Hc Hl].
  pose proof (tick_player rng time aspect g) as Hp.
  pose proof (tick_score_fields rng time aspect g) as Hsc.
  rewrite phase_score_new in Hsc. unfold score_fields in Hsc.
  destruct (tick_rest rng time aspect g) as (Hw & Hfc & Hpm & Hcm & Hbt & Hv).
  assert (Hst : scoreText (phase_score g) = new_scoreText g).
  { pose proof (phase_score_new g) as H. unfold score_fields in H.
    injection H as _ H. exact H. }
  rewrite Hst in Hs, Hf. clear Hst.
  revert Hpa Hgo Hs Hf Hm Hc Hl Hp Hsc Hw Hfc Hpm Hcm Hbt Hv.
  generalize (tick_in_code_order rng time aspect g).
  intros g' Hpa Hgo Hs Hf Hm Hc Hl Hp Hsc Hw Hfc Hpm Hcm Hbt Hv.
  injection Hsc as Hmax _.
  rewrite Hpa, Hgo, Hs, Hf, Hm, Hc, Hl, Hp, Hmax, Hw, Hfc, Hpm, Hcm, Hbt,
    Hv, Hrun.
  rewrite orb_false_r.
  destruct (left_behind time g); destruct (car_hit time g);
    destruct (isGameOver g); repeat split.
Qed.

(** The second frame of [game_quarter], on [draws_quarter] and on a
    sequence that differs from it in draws already made. *)
Lemma running_tick_outcome_witness :
  drawScene draws_late 2000 1 game_quarter_1
  = drawScene draws_quarter 2000 1 game_quarter_1.
Proof.
  apply (running_tick_outcome draws_quarter draws_late 2000 1
           game_quarter_1).
  - vm_compute. reflexivity.
  - intros k Hk.
    assert (Hten : (10 <= randomCalls (world game_quarter_1))%nat)
      by (apply Nat.leb_le; vm_compute; reflexivity).
    unfold draws_late, draws_quarter.
    destruct (Nat.ltb_spec k 10) as [Hlt | _]; [lia | reflexivity].
Defined.

(** The aspect ratio of the canvas is an input of the tick: it sets how
    far the camera is pulled to the player. *)
Example tick_depends_on_aspect :
  cameraX (drawScene draws_quarter 1000 1 game_quarter) == -12
  /\ cameraX (drawScene draws_quarter 1000 (1 # 10) game_quarter) == -5.
Proof. split; vm_compute; reflexivity. Qed.

(** ** Restart *)

Lemma initTerrain_lane_coordinates (rng : nat -> Q) (startX : Q)
      (w : World) :
  terrainRows w = [] ->
  map row_x (terrainRows (initTerrain rng startX w)) = lane_coordinates startX.
Proof.
  intros Hw. unfold initTerrain, lane_coordinates.
  pose proof
       (for_loop_invariant_ix
          (fun i w' =>
             exists n,
               i = (-10 + Z.of_nat n)%Z
               /\ map row_x (terrainRows w')
                  = map (fun k => startX
                                  + inject_Z (-10 + Z.of_nat k) * ROW_DEPTH)
                        (seq 0 n))
          (fun i w' => addRow rng (startX + inject_Z i * ROW_DEPTH) w'))
    as Hloop.
  destruct Hloop with (n := Z.to_nat (Qfloor DRAW_DISTANCE - -10))
                      (i := (-10)%Z) (a := w) as [n [Hn Hrows]].
  - intros i a [n [Hi Ha]]. exists (S n). split; [lia |].
    rewrite addRow_rows, map_app, Ha, seq_S, map_app.
    cbn [map]. rewrite createRow_x, Hi. reflexivity.
  - exists 0%nat. split; [reflexivity |]. rewrite Hw. reflexivity.
  - change (Z.to_nat (Qfloor DRAW_DISTANCE - -10)) with 50%nat in *.
    assert (n = 50%nat) by lia. subst n. exact Hrows.
Qed.

(** X11.  A restart from any state gives a fresh running session: flags
    cleared, modal hidden, player at the spawn pose, scroll position [-12],
    score [0], a first frame with delta-time [0], and a world that owes
    nothing to the old one but the count of random calls: the fifty lanes
    at [-22, ..., 27], with every tree and car on them. *)
Theorem restart_gives_fresh_session :
  forall (rng : nat -> Q) (g : Game) (time : Q),
    (isPaused (restartGame rng g) = false
     /\ isGameOver (restartGame rng g) = false
     /\ modalHidden (restartGame rng g) = true)
    /\ (p_x (player (restartGame rng g)) = -5
        /\ p_z (player (restartGame rng g)) = 0
        /\ p_rotationY (player (restartGame rng g)) = 90%Z)
    /\ (cameraX (restartGame rng g) == -12
        /\ scoreText (restartGame rng g) = 0%Z
        /\ frame_dt time (restartGame rng g) == 0)
    /\ world (restartGame rng g)
       = initTerrain rng (-12) (mkWorld [] [] [] (randomCalls (world g)))
    /\ map row_x (terrainRows (world (restartGame rng g)))
       = lane_coordinates (-12)
    /\ entities_in (in_window (-12)) (world (restartGame rng g)).
Proof.
  intros rng g time.
  split; [repeat split |]. split; [repeat split |].
  split.
  { split; [reflexivity |]. split; [reflexivity |].
    unfold frame_dt.
    change (lastTime (restartGame rng g)) with (@None Q).
    cbn [no_lastTime]. field. }
  rewrite restartGame_world. split; [reflexivity |]. split.
  - apply initTerrain_lane_coordinates. reflexivity.
  - apply initTerrain_band; reflexivity.
Qed.

(** ** Spacing and number of the cars of a new lane *)

Lemma ForallOrdPairs_snoc {A : Type} (R : A -> A -> Prop) (l : list A)
      (b : A) :
  ForallOrdPairs R l -> Forall (fun a => R a b) l ->
  ForallOrdPairs R (l ++ [b]).
Proof.
  induction 1 as [| a l Ha Hl IH]; intros Hb; cbn [app].
  - constructor; constructor.
  - inversion Hb as [| ? ? Hab Hlb]; subst.
    constructor; [| apply IH, Hlb].
    apply Forall_app. split; [exact Ha |].
    constructor; [exact Hab | constructor].
Qed.

Lemma spawnCar_spaced (rng : nat -> Q) (row : Row) (h : Q) (i : Z)
      (w : World) :
  cars_spaced (row_x row) (cars w) ->
  cars_spaced (row_x row) (cars (spawnCar rng row h i w)).
Proof.
  intros Hw. unfold spawnCar, random.
  set (randomZ := rng (randomCalls w) * (h * 2) - h).
  destruct (existsb _ (cars (set_randomCalls (S (randomCalls w)) w)))
    eqn:Hclose; cbn [negb]; [exact Hw |].
  cbn [cars set_cars set_randomCalls] in *.
  apply ForallOrdPairs_snoc; [exact Hw |].
  apply Forall_forall. intros a Ha Hax _. cbn [car_z].
  destruct (Qlt_le_dec (Qabs (car_z a - randomZ)) 3.0) as [Hlt | Hge];
    [| exact Hge].
  exfalso.
  assert (Hex : existsb
                  (fun car =>
                     Qeqb (car_x car) (row_x row)
                     && Qltb (Qabs (car_z car - randomZ)) 3.0)
                  (cars w) = true).
  { apply existsb_exists. exists a. split; [exact Ha |].
    apply andb_true_iff. split.
    - apply Qeq_bool_iff. exact Hax.
    - apply Qltb_lt. exact Hlt. }
  rewrite Hex in Hclose. discriminate Hclose.
Qed.

(** X12.  [spawnCarsOnRow] never places a car within [MIN_DISTANCE = 3.0]
    of another car of the lane: if the cars already on the lane are
    pairwise at least [3.0] apart, so are the cars after the spawn. *)
Theorem spawned_cars_keep_their_distance :
  forall (rng : nat -> Q) (row : Row) (w : World),
    cars_spaced (row_x row) (cars w) ->
    cars_spaced (row_x row) (cars (spawnCarsOnRow rng row w)).
Proof.
  intros rng row w Hw. unfold spawnCarsOnRow.
  destruct (row_type row); [exact Hw |]. unfold random.
  apply (for_loop_invariant
           (fun w' => cars_spaced (row_x row) (cars w'))).
  - intros i a. apply spawnCar_spaced.
  - exact Hw.
Qed.

Lemma spawned_cars_keep_their_distance_witness :
  cars_spaced (row_x road_at_3)
              (cars (spawnCarsOnRow draws_sweep road_at_3 empty_world)).
Proof.
  apply (spawned_cars_keep_their_distance draws_sweep road_at_3 empty_world).
  constructor.
Defined.

Example two_cars_spawned_on_road_at_3 :
  map car_z (cars (spawnCarsOnRow draws_sweep road_at_3 empty_world))
  = [(7 # 100) * (15 * 2) - 15; (21 # 100) * (15 * 2) - 15].
Proof. vm_compute. reflexivity. Qed.

Lemma for_loop_length_cars (body : Z -> World -> World) (k : nat) :
  (forall i w,
      (List.length (cars w) <= List.length (cars (body i w))
       <= List.length (cars w) + k)%nat) ->
  forall n i w,
    (List.length (cars w) <= List.length (cars (for_loop n i body w))
     <= List.length (cars w) + n * k)%nat.
Proof.
  intros Hbody. induction n as [| n IH]; intros i w; cbn [for_loop].
  - lia.
  - specialize (IH (i + 1)%Z (body i w)). specialize (Hbody i w). lia.
Qed.

Lemma spawnCar_length (rng : nat -> Q) (row : Row) (h : Q) (i : Z)
      (w : World) :
  (List.length (cars w) <= List.length (cars (spawnCar rng row h i w))
   <= List.length (cars w) + 1)%nat.
Proof.
  unfold spawnCar, random. destruct (negb _);
    cbn [cars set_cars set_randomCalls]; [rewrite length_app; cbn |]; lia.
Qed.

Lemma spawnCar_on_empty_lane (rng : nat -> Q) (row : Row) (h : Q) (i : Z)
      (w : World) :
  lane_empty (row_x row) w = true ->
  List.length (cars (spawnCar rng row h i w)) = S (List.length (cars w)).
Proof.
  unfold lane_empty. intros Hempty. apply negb_true_iff in Hempty.
  unfold spawnCar, random.
  set (randomZ := rng (randomCalls w) * (h * 2) - h).
  replace (existsb _ (cars (set_randomCalls (S (randomCalls w)) w)))
    with false.
  - cbn [negb cars set_cars set_randomCalls]. rewrite length_app. cbn. lia.
  - symmetry. cbn [cars set_randomCalls].
    revert Hempty. generalize (cars w). intros cs.
    induction cs as [| c cs IH]; cbn [existsb]; [reflexivity |].
    intros Hempty. apply orb_false_iff in Hempty. destruct Hempty as [Hc Hcs].
    rewrite Hc, (IH Hcs). reflexivity.
Qed.

Lemma numCars_range (r : Q) :
  0 <= r < 1 -> (2 <= Qfloor (r * 3) + 2 <= 4)%Z.
Proof.
  intros [H0 H1].
  assert (Hlo : (Qfloor 0 <= Qfloor (r * 3))%Z)
    by (apply Qfloor_resp_le; lra).
  change (Qfloor 0) with 0%Z in Hlo.
  assert (Hhi : (Qfloor (r * 3) < 3)%Z).
  { rewrite Zlt_Qlt. eapply Qle_lt_trans; [apply Qfloor_le |].
    change (inject_Z 3) with 3. lra. }
  lia.
Qed.

(** X13.  With draws in [[0, 1)], [spawnCarsOnRow] puts at least one and at
    most four cars on a road lane that has none yet (the first candidate is
    never rejected, later ones may be), and none on a grass lane. *)
Theorem road_lane_gets_one_to_four_cars :
  forall (rng : nat -> Q) (row : Row) (w : World),
    unit_draws rng ->
    lane_empty (row_x row) w = true ->
    match row_type row with
    | road =>
        (List.length (cars w) + 1
         <= List.length (cars (spawnCarsOnRow rng row w))
         <= List.length (cars w) + 4)%nat
    | grass => cars (spawnCarsOnRow rng row w) = cars w
    end.
Proof.
  intros rng row w Hrng Hempty. unfold spawnCarsOnRow.
  destruct (row_type row); [reflexivity |]. unfold random.
  pose proof (numCars_range _ (Hrng (randomCalls w))) as Hn.
  set (numCars := (Qfloor (rng (randomCalls w) * 3) + 2)%Z) in *.
  set (w1 := set_randomCalls (S (randomCalls w)) w).
  assert (Hcars : cars w1 = cars w) by reflexivity.
  assert (Hempty1 : lane_empty (row_x row) w1 = true) by exact Hempty.
  clearbody w1. rewrite <- Hcars.
  replace (numCars - 0)%Z with numCars by lia.
  destruct (Z.to_nat numCars) as [| n] eqn:Hnat; [lia |].
  assert (Hn4 : (n <= 3)%nat) by lia.
  cbn [for_loop].
  pose proof (spawnCar_on_empty_lane rng row (floor (TERRAIN_WIDTH / 2)) 0
                w1 Hempty1) as Hfirst.
  pose proof (for_loop_length_cars
                (spawnCar rng row (floor (TERRAIN_WIDTH / 2))) 1
                (spawnCar_length rng row (floor (TERRAIN_WIDTH / 2)))
                n (0 + 1)%Z
                (spawnCar rng row (floor (TERRAIN_WIDTH / 2)) 0 w1))
    as Hrest.
  lia.
Qed.

Lemma road_lane_gets_one_to_four_cars_witness :
  (List.length (cars empty_world) + 1
   <= List.length (cars (spawnCarsOnRow draws_sweep road_at_3 empty_world))
   <= List.length (cars empty_world) + 4)%nat.
Proof.
  apply (road_lane_gets_one_to_four_cars draws_sweep road_at_3 empty_world).
  - intros n. unfold draws_sweep.
    assert (Hm : (0 <= Z.of_nat ((7 * n) mod 100) < 100)%Z).
    { pose proof (Nat.mod_upper_bound (7 * n) 100). lia. }
    destruct Hm as [Hlo Hhi].
    rewrite Zle_Qle in Hlo. rewrite Zlt_Qlt in Hhi.
    change (inject_Z 0) with 0 in Hlo. change (inject_Z 100) with 100 in Hhi.
    split.
    + apply Qle_shift_div_l; [reflexivity | lra].
    + apply Qlt_shift_div_r; [reflexivity | lra].
  - reflexivity.
Defined.

(** ** Lanes without gaps *)

Lemma rows_contiguous_tail (a : Row) (rows : list Row) :
  rows_contiguous (a :: rows) -> rows_contiguous rows.
Proof.
  destruct rows as [| b rest]; [intros; exact I | intros [_ H]; exact H].
Qed.

Lemma rows_contiguous_snoc (rows : list Row) (r : Row) :
  rows_contiguous rows ->
  (forall init l, rows = init ++ [l] -> row_x r == row_x l + ROW_DEPTH) ->
  rows_contiguous (rows ++ [r]).
Proof.
  induction rows as [| a rows IH]; intros Hc Hlast; [exact I |].
  destruct rows as [| b rest].
  - cbn [app rows_contiguous]. split; [| exact I].
    apply (Hlast [] a). reflexivity.
  - destruct Hc as [Hab Hc].
    change (rows_contiguous (a :: b :: (rest ++ [r]))).
    cbn [rows_contiguous]. split; [exact Hab |].
    apply IH; [exact Hc |].
    intros init l Heq. apply (Hlast (a :: init) l).
    cbn [app]. rewrite Heq. reflexivity.
Qed.

Lemma shiftRows_contiguous (thr : Q) (rows : list Row) :
  rows_contiguous rows -> rows_contiguous (shiftRows thr rows).
Proof.
  induction rows as [| a rows IH]; intros Hc; [exact I |].
  cbn [shiftRows]. destruct (Qltb (row_x a) thr); [| exact Hc].
  apply IH. exact (rows_contiguous_tail a rows Hc).
Qed.

Lemma addRow_contiguous_up_to (rng : nat -> Q) (lastX : Q) (w : World) :
  contiguous_up_to lastX w ->
  contiguous_up_to (lastX + ROW_DEPTH) (addRow rng (lastX + ROW_DEPTH) w).
Proof.
  intros [Hc Hl]. unfold contiguous_up_to. rewrite addRow_rows.
  pose proof (createRow_x rng (lastX + ROW_DEPTH) w) as Hx.
  revert Hx. generalize (fst (createRow rng (lastX + ROW_DEPTH) w)).
  intros r Hx. split.
  - apply rows_contiguous_snoc; [exact Hc |].
    intros init l Heq. rewrite Hx, (Hl init l Heq). reflexivity.
  - intros init l Heq. apply app_inj_tail in Heq. destruct Heq as [_ <-].
    rewrite Hx. reflexivity.
Qed.

Lemma updateTerrain_contiguous (rng : nat -> Q) (c : Q) (w : World) :
  rows_contiguous (terrainRows w) ->
  rows_contiguous (terrainRows (updateTerrain rng c w)).
Proof.
  intros Hc. unfold updateTerrain.
  cbn [terrainRows set_terrainRows set_trees set_cars].
  set (rows := shiftRows (c - 15.0) (terrainRows w)).
  assert (Hrows : rows_contiguous rows) by (apply shiftRows_contiguous, Hc).
  set (w1 := set_cars _ _).
  assert (Hw1 : terrainRows w1 = rows) by reflexivity.
  clearbody w1 rows.
  set (lastX := match rows with [] => 0 | r :: rs => row_x (last rs r) end).
  destruct (extendRows_invariant rng (c + DRAW_DISTANCE) contiguous_up_to)
    with (fuel := extend_rounds lastX (c + DRAW_DISTANCE)) (lastX := lastX)
         (w := w1) as [lastX' [H _]].
  - intros l a _. apply addRow_contiguous_up_to.
  - split; rewrite Hw1; [exact Hrows |].
    intros init l Heq. unfold lastX. destruct rows as [| r rs].
    + destruct init; discriminate Heq.
    + rewrite <- last_cons_default, Heq, last_last. reflexivity.
  - exact H.
Qed.

Lemma initTerrain_contiguous (rng : nat -> Q) (startX : Q) (w : World) :
  terrainRows w = [] ->
  rows_contiguous (terrainRows (initTerrain rng startX w)).
Proof.
  intros Hw. unfold initTerrain.
  pose proof
       (for_loop_invariant_ix
          (fun i w' =>
             rows_contiguous (terrainRows w')
             /\ forall init l,
                 terrainRows w' = init ++ [l] ->
                 row_x l + ROW_DEPTH == startX + inject_Z i * ROW_DEPTH)
          (fun i w' => addRow rng (startX + inject_Z i * ROW_DEPTH) w'))
    as Hloop.
  apply Hloop.
  - intros i a [Hc Hl]. rewrite addRow_rows.
    pose proof (createRow_x rng (startX + inject_Z i * ROW_DEPTH) a) as Hx.
    revert Hx.
    generalize (fst (createRow rng (startX + inject_Z i * ROW_DEPTH) a)).
    intros r Hx. split.
    + apply rows_contiguous_snoc; [exact Hc |].
      intros init l Heq. rewrite Hx, <- (Hl init l Heq). reflexivity.
    + intros init l Heq. apply app_inj_tail in Heq. destruct Heq as [_ <-].
      rewrite Hx, inject_Z_plus. change (inject_Z 1) with 1.
      unfold ROW_DEPTH. ring.
  - rewrite Hw. split; [exact I |].
    intros init l Heq. destruct init; discriminate Heq.
Qed.

(** X14.  The terrain has no gaps: after [initTerrain] on an empty lane
    list and any sequence of extend/evict calls and resets, consecutive
    lanes of the list are exactly [ROW_DEPTH = 1] apart. *)
Theorem terrain_has_no_gaps :
  forall (rng : nat -> Q) (startX : Q) (w : World) (ops : list WindowOp),
    terrainRows w = [] ->
    rows_contiguous
      (terrainRows (fold_left (window_op rng) ops (initTerrain rng startX w))).
Proof.
  intros rng startX w ops Hw.
  pose proof (initTerrain_contiguous rng startX w Hw) as H0.
  revert H0. generalize (initTerrain rng startX w).
  induction ops as [| op ops IH]; intros w0 H0; cbn [fold_left].
  - exact H0.
  - apply IH. destruct op; cbn [window_op].
    + apply updateTerrain_contiguous, H0.
    + apply initTerrain_contiguous. reflexivity.
Qed.

Lemma terrain_has_no_gaps_witness :
  rows_contiguous
    (terrainRows
       (fold_left (window_op draws_quarter)
                  [ExtendEvict (-23 # 2); ExtendEvict 100; Reset]
                  (initTerrain draws_quarter (-12) empty_world))).
Proof.
  apply (terrain_has_no_gaps draws_quarter (-12) empty_world
           [ExtendEvict (-23 # 2); ExtendEvict 100; Reset]).
  reflexivity.
Defined.

(** ** The window reaches ahead *)

Lemma extendRows_reaches (rng : nat -> Q) (thr : Q) :
  forall (fuel : nat) (lastX : Q) (w : World),
    (forall init l, terrainRows w = init ++ [l] -> row_x l == lastX) ->
    terrainRows w <> [] \/ lastX < thr ->
    fst (extendRows rng fuel lastX thr w) = true ->
    exists init r,
      terrainRows (snd (extendRows rng fuel lastX thr w)) = init ++ [r]
      /\ thr <= row_x r.
Proof.
  induction fuel as [| fuel IH]; intros lastX w Hl Hne Hend;
    cbn [extendRows] in *.
  - destruct (Qltb lastX thr) eqn:Hlt; [discriminate Hend |].
    apply Qltb_ge in Hlt. cbn [snd].
    destruct Hne as [Hne | Hne]; [| lra].
    destruct (exists_last Hne) as [init [r Heq]].
    exists init, r. split; [exact Heq |].
    rewrite (Hl init r Heq). exact Hlt.
  - destruct (Qltb lastX thr) eqn:Hlt.
    + apply IH; [| | exact Hend].
      * intros init l Heq. rewrite addRow_rows in Heq.
        apply app_inj_tail in Heq. destruct Heq as [_ <-].
        rewrite createRow_x. reflexivity.
      * left. rewrite addRow_rows. intros Heq.
        destruct (terrainRows w); discriminate Heq.
    + apply Qltb_ge in Hlt. cbn [snd].
      destruct Hne as [Hne | Hne]; [| lra].
      destruct (exists_last Hne) as [init [r Heq]].
      exists init, r. split; [exact Heq |].
      rewrite (Hl init r Heq). exact Hlt.
Qed.

(** X15.  [updateTerrain(c)] always ends with the terrain reaching the
    spawn threshold: when some lane is not behind the eviction threshold
    [c - 15], or [c + DRAW_DISTANCE] is positive, the lane list is not
    empty afterwards and its last lane is at or beyond
    [c + DRAW_DISTANCE]. *)
Theorem window_reaches_draw_distance :
  forall (rng : nat -> Q) (c : Q) (w : World),
    Exists (fun r => c - 15 <= row_x r) (terrainRows w)
    \/ 0 < c + DRAW_DISTANCE ->
    exists init r,
      terrainRows (updateTerrain rng c w) = init ++ [r]
      /\ c + DRAW_DISTANCE <= row_x r.
Proof.
  intros rng c w Hpre. unfold updateTerrain.
  set (thr := c - 15.0).
  assert (Hthr : thr == c - 15) by (unfold thr; lra).
  set (w1 := set_cars _ _).
  assert (Hw1 : terrainRows w1 = shiftRows thr (terrainRows w))
    by reflexivity.
  assert (Hsurv : Exists (fun r => c - 15 <= row_x r) (terrainRows w) ->
                  terrainRows w1 <> []).
  { intros Hex. apply Exists_exists in Hex. destruct Hex as [r [Hin Hr]].
    rewrite Hw1. intros Hnil.
    assert (Hin' : In r (shiftRows thr (terrainRows w)))
      by (apply shiftRows_keeps; [exact Hin | lra]).
    rewrite Hnil in Hin'. destruct Hin'. }
  clearbody w1.
  set (lastX := match terrainRows w1 with
                | [] => 0
                | r :: rs => row_x (last rs r)
                end).
  apply extendRows_reaches.
  - intros init l Heq. unfold lastX. rewrite Heq.
    destruct (init ++ [l]) as [| r rs] eqn:Hrows.
    + destruct init; discriminate Hrows.
    + rewrite <- last_cons_default, <- Hrows, last_last. reflexivity.
  - destruct Hpre as [Hex | Hpos]; [left; apply Hsurv, Hex |].
    destruct (terrainRows w1) as [| r rs] eqn:Hrows; [| left; discriminate].
    right. unfold lastX. exact Hpos.
  - apply extendRows_ends.
Qed.

Lemma window_reaches_draw_distance_witness :
  exists init r,
    terrainRows (updateTerrain draws_quarter 100 (world game_quarter))
    = init ++ [r]
    /\ 100 + DRAW_DISTANCE <= row_x r.
Proof.
  apply (window_reaches_draw_distance draws_quarter 100 (world game_quarter)).
  right. reflexivity.
Defined.

(** ** Trees on grass, cars on roads *)

Lemma tree_on_grass_more (rows extra : list Row) (t : Tree) :
  tree_on_grass rows t -> tree_on_grass (rows ++ extra) t.
Proof.
  intros [r (Hin & Hx & Hty)]. exists r.
  split; [apply in_or_app; left; exact Hin | split; assumption].
Qed.

Lemma car_on_road_more (rows extra : list Row) (c : Car) :
  car_on_road rows c -> car_on_road (rows ++ extra) c.
Proof.
  intros [r (Hin & Hx & Hty)]. exists r.
  split; [apply in_or_app; left; exact Hin | split; assumption].
Qed.

Lemma addRow_entities_on_lanes (rng : nat -> Q) (x : Q) (w : World) :
  entities_on_lanes w -> entities_on_lanes (addRow rng x w).
Proof.
  intros [Ht Hc]. unfold entities_on_lanes. rewrite addRow_rows.
  unfold addRow.
  destruct (createRow_world rng x w) as (Hct & Hcc & Hcr).
  destruct (createRow rng x w) as [newRow w1]. cbn [fst snd] in *.
  set (rows' := terrainRows w ++ [newRow]).
  set (w2 := set_terrainRows (terrainRows w1 ++ [newRow]) w1).
  assert (Ht2 : Forall (tree_on_grass rows') (trees w2)).
  { cbn [trees w2 set_terrainRows]. rewrite Hct.
    eapply Forall_impl; [| exact Ht].
    intros t. apply tree_on_grass_more. }
  assert (Hc2 : Forall (car_on_road rows') (cars w2)).
  { cbn [cars w2 set_terrainRows]. rewrite Hcc.
    eapply Forall_impl; [| exact Hc].
    intros c. apply car_on_road_more. }
  assert (Hnew : In newRow rows')
    by (apply in_or_app; right; left; reflexivity).
  clearbody w2 rows'.
  assert (Ht3 : Forall (tree_on_grass rows')
                       (trees (spawnTreesOnRow rng newRow w2))).
  { destruct (row_type newRow) eqn:Hty.
    - apply spawnTreesOnRow_Forall; [| exact Ht2].
      intros t Hx. exists newRow. repeat split; auto.
    - unfold spawnTreesOnRow. rewrite Hty. exact Ht2. }
  assert (Hc3 : Forall (car_on_road rows')
                       (cars (spawnTreesOnRow rng newRow w2))).
  { destruct (spawnTreesOnRow_frame rng newRow w2) as [-> _]. exact Hc2. }
  revert Ht3 Hc3. generalize (spawnTreesOnRow rng newRow w2).
  intros w3 Ht3 Hc3. split.
  - destruct (spawnCarsOnRow_frame rng newRow w3) as [-> _]. exact Ht3.
  - destruct (row_type newRow) eqn:Hty.
    + unfold spawnCarsOnRow. rewrite Hty. exact Hc3.
    + apply spawnCarsOnRow_Forall; [| exact Hc3].
      intros c Hx. exists newRow. repeat split; auto.
Qed.

Lemma initTerrain_entities_on_lanes (rng : nat -> Q) (startX : Q)
      (w : World) :
  entities_on_lanes w -> entities_on_lanes (initTerrain rng startX w).
Proof.
  intros Hw. unfold initTerrain.
  apply (for_loop_invariant entities_on_lanes); [| exact Hw].
  intros i a. apply addRow_entities_on_lanes.
Qed.

Lemma updateTerrain_entities_on_lanes (rng : nat -> Q) (c : Q) (w : World) :
  entities_on_lanes w -> entities_on_lanes (updateTerrain rng c w).
Proof.
  intros [Ht Hc]. unfold updateTerrain.
  set (thr := c - 15.0).
  set (w1 := set_cars _ _).
  assert (H1 : entities_on_lanes w1).
  { split; cbn [trees cars terrainRows w1 set_cars set_trees
                set_terrainRows];
      apply Forall_forall; intros a Ha; apply filter_In in Ha;
      destruct Ha as [Ha Hge]; apply Qgeb_ge in Hge.
    - rewrite Forall_forall in Ht. destruct (Ht a Ha) as [r (Hin & Hx & Hty)].
      exists r. split; [| split; assumption].
      apply shiftRows_keeps; [exact Hin | rewrite Hx; exact Hge].
    - rewrite Forall_forall in Hc. destruct (Hc a Ha) as [r (Hin & Hx & Hty)].
      exists r. split; [| split; assumption].
      apply shiftRows_keeps; [exact Hin | rewrite Hx; exact Hge]. }
  clearbody w1.
  match goal with
  | |- entities_on_lanes (snd (extendRows rng ?f ?l ?t w1)) =>
      destruct (extendRows_invariant rng t (fun _ w' => entities_on_lanes w'))
        with (fuel := f) (lastX := l) (w := w1) as [_ H]
  end.
  - intros l a _. apply addRow_entities_on_lanes.
  - exact H1.
  - exact H.
Qed.

Lemma rows_sorted_same_x (rows : list Row) (r1 r2 : Row) :
  rows_sorted rows -> In r1 rows -> In r2 rows ->
  row_x r1 == row_x r2 -> r1 = r2.
Proof.
  unfold rows_sorted. induction 1 as [| a rows Hs IH Ha];
    intros H1 H2 Hx; [destruct H1 |].
  rewrite Forall_forall in Ha.
  destruct H1 as [<- | H1]; destruct H2 as [<- | H2].
  - reflexivity.
  - specialize (Ha r2 H2). cbv beta in Ha. lra.
  - specialize (Ha r1 H1). cbv beta in Ha. lra.
  - apply IH; assumption.
Qed.

(** X16.  After [initTerrain] on an empty world and any sequence of
    extend/evict calls and resets, every live tree stands on a grass lane
    of the lane list and every live car is on a road lane of the list; so
    no tree shares its lane with a car. *)
Theorem trees_on_grass_cars_on_roads :
  forall (rng : nat -> Q) (startX : Q) (n : nat) (ops : list WindowOp),
    let w :=
      fold_left (window_op rng) ops
                (initTerrain rng startX (mkWorld [] [] [] n)) in
    entities_on_lanes w
    /\ forall tree car,
        In tree (trees w) -> In car (cars w) ->
        ~ tree_x tree == car_x car.
Proof.
  intros rng startX n ops. cbv zeta.
  assert (H : entities_on_lanes
                (fold_left (window_op rng) ops
                           (initTerrain rng startX (mkWorld [] [] [] n)))
              /\ rows_sorted
                   (terrainRows
                      (fold_left (window_op rng) ops
                                 (initTerrain rng startX
                                              (mkWorld [] [] [] n))))).
  { assert (H0 : entities_on_lanes
                   (initTerrain rng startX (mkWorld [] [] [] n))
                 /\ rows_sorted
                      (terrainRows
                         (initTerrain rng startX (mkWorld [] [] [] n)))).
    { split.
      - apply initTerrain_entities_on_lanes. split; constructor.
      - apply initTerrain_sorted. reflexivity. }
    revert H0. generalize (initTerrain rng startX (mkWorld [] [] [] n)).
    induction ops as [| op ops IH]; intros w0 H0; cbn [fold_left].
    - exact H0.
    - apply IH. destruct H0 as [He Hs]. destruct op; cbn [window_op].
      + split; [apply updateTerrain_entities_on_lanes, He
               | apply updateTerrain_sorted, Hs].
      + split; [| apply resetTerrain_sorted].
        apply initTerrain_entities_on_lanes. split; constructor. }
  revert H. generalize (fold_left (window_op rng) ops
                                  (initTerrain rng startX
                                               (mkWorld [] [] [] n))).
  intros w [He Hs]. split; [exact He |].
  intros tree car Htree Hcar Hx. destruct He as [Ht Hc].
  rewrite Forall_forall in Ht, Hc.
  destruct (Ht tree Htree) as [r1 (Hin1 & Hx1 & Hty1)].
  destruct (Hc car Hcar) as [r2 (Hin2 & Hx2 & Hty2)].
  assert (Heq : r1 = r2).
  { apply (rows_sorted_same_x (terrainRows w)); try assumption.
    rewrite Hx1, Hx2. exact Hx. }
  subst r2. rewrite Hty1 in Hty2. discriminate Hty2.
Qed.

(** ** Vectors *)

(** X17.  [crossProduct(v1, v2)] is orthogonal to both of its arguments,
    changes sign when they are swapped, and is zero for a vector and
    itself. *)
Theorem crossProduct_orthogonal_and_antisymmetric :
  forall a b : Vec3,
    dot (crossProduct a b) a == 0
    /\ dot (crossProduct a b) b == 0
    /\ vec_eq (crossProduct b a) (vec_opp (crossProduct a b))
    /\ vec_eq (crossProduct a a) (0, 0, 0).
Proof.
  intros [[a0 a1] a2] [[b0 b1] b2].
  unfold dot, crossProduct, vec_eq, vec_opp, v0, v1, v2; cbn [fst snd].
  repeat split; ring.
Qed.

(** ** Model normalisation *)

Lemma Qltb_shift (a b c : Q) : Qltb (a - c) (b - c) = Qltb a b.
Proof.
  destruct (Qltb a b) eqn:H.
  - apply Qltb_lt in H. apply Qltb_lt. lra.
  - apply Qltb_ge in H. apply Qltb_ge. lra.
Qed.

Lemma grow_bounds_shift (c : Vec3) (b : option Bounds) (v : Vec3) :
  grow_bounds (option_map (shift_bounds c) b) (shift_vertex c v)
  = option_map (shift_bounds c) (grow_bounds b v).
Proof.
  destruct b as [b |]; [| reflexivity].
  unfold grow_bounds, shift_vertex, shift_bounds, option_map, Qgtb.
  cbn [v0 v1 v2 fst snd b_minX b_maxX b_minY b_maxY b_minZ b_maxZ].
  rewrite !Qltb_shift.
  destruct (Qltb (v0 v) (b_minX b)); destruct (Qltb (b_maxX b) (v0 v));
    destruct (Qltb (v1 v) (b_minY b)); destruct (Qltb (b_maxY b) (v1 v));
    destruct (Qltb (v2 v) (b_minZ b)); destruct (Qltb (b_maxZ b) (v2 v));
    reflexivity.
Qed.

Lemma fold_grow_bounds_shift (c : Vec3) (ps : list Vec3) :
  forall b,
    fold_left grow_bounds (map (shift_vertex c) ps)
              (option_map (shift_bounds c) b)
    = option_map (shift_bounds c) (fold_left grow_bounds ps b).
Proof.
  induction ps as [| v ps IH]; intros b; cbn [map fold_left];
    [reflexivity |].
  rewrite grow_bounds_shift. apply IH.
Qed.

Lemma bounding_box_shift (c : Vec3) (ps : list Vec3) :
  bounding_box (map (shift_vertex c) ps)
  = option_map (shift_bounds c) (bounding_box ps).
Proof. apply (fold_grow_bounds_shift c ps None). Qed.

Lemma fold_grow_bounds_some (ps : list Vec3) (b : Bounds) :
  exists b', fold_left grow_bounds ps (Some b) = Some b'.
Proof.
  revert b. induction ps as [| v ps IH]; intros b; cbn [fold_left].
  - exists b. reflexivity.
  - apply IH.
Qed.

Lemma bounding_box_none (ps : list Vec3) :
  bounding_box ps = None <-> ps = [].
Proof.
  unfold bounding_box. split; [| intros ->; reflexivity].
  destruct ps as [| v ps]; [reflexivity |]. cbn [fold_left grow_bounds].
  intros H. destruct (fold_grow_bounds_some ps
                        (mkBounds (v0 v) (v0 v) (v1 v) (v1 v) (v2 v)
                                  (v2 v))) as [b' Hb].
  rewrite Hb in H. discriminate H.
Qed.

Lemma normalizeModel_shift (ps : list Vec3) (b : Bounds) :
  bounding_box ps = Some b ->
  normalizeModel ps = map (shift_vertex (model_centre b)) ps.
Proof. intros Hb. unfold normalizeModel. rewrite Hb. reflexivity. Qed.

(** X18.  [normalizeModel] leaves an empty model as it is; it moves any
    other model, vertex by vertex, so that its bounding box has its floor
    at [y = 0] and is centred on [x = 0] and [z = 0], with its extents
    unchanged. *)
Theorem normalizeModel_grounds_and_centres :
  forall ps : list Vec3,
    List.length (normalizeModel ps) = List.length ps
    /\ match bounding_box ps, bounding_box (normalizeModel ps) with
       | None, None => ps = [] /\ normalizeModel ps = []
       | Some b, Some b' =>
           b_minY b' == 0
           /\ b_minX b' + b_maxX b' == 0
           /\ b_minZ b' + b_maxZ b' == 0
           /\ b_maxX b' - b_minX b' == b_maxX b - b_minX b
           /\ b_maxY b' - b_minY b' == b_maxY b - b_minY b
           /\ b_maxZ b' - b_minZ b' == b_maxZ b - b_minZ b
       | _, _ => False
       end.
Proof.
  intros ps. destruct (bounding_box ps) as [b |] eqn:Hb.
  - rewrite (normalizeModel_shift ps b Hb), bounding_box_shift, Hb.
    split; [apply length_map |].
    unfold option_map, shift_bounds, model_centre.
    cbn [v0 v1 v2 fst snd b_minX b_maxX b_minY b_maxY b_minZ b_maxZ].
    repeat split; field.
  - apply bounding_box_none in Hb. subst ps. cbn. repeat split.
Qed.

Lemma grow_bounds_inside (b : Bounds) (v u : Vec3) :
  inside b u ->
  match grow_bounds (Some b) v with
  | Some b' => inside b' u /\ inside b' v
  | None => False
  end.
Proof.
  unfold inside, grow_bounds, Qgtb.
  cbn [b_minX b_maxX b_minY b_maxY b_minZ b_maxZ].
  intros ((Hx1 & Hx2) & (Hy1 & Hy2) & (Hz1 & Hz2)).
  destruct (Qltb (v0 v) (b_minX b)) eqn:E1;
    [apply Qltb_lt in E1 | apply Qltb_ge in E1];
    (destruct (Qltb (b_maxX b) (v0 v)) eqn:E2;
     [apply Qltb_lt in E2 | apply Qltb_ge in E2]);
    (destruct (Qltb (v1 v) (b_minY b)) eqn:E3;
     [apply Qltb_lt in E3 | apply Qltb_ge in E3]);
    (destruct (Qltb (b_maxY b) (v1 v)) eqn:E4;
     [apply Qltb_lt in E4 | apply Qltb_ge in E4]);
    (destruct (Qltb (v2 v) (b_minZ b)) eqn:E5;
     [apply Qltb_lt in E5 | apply Qltb_ge in E5]);
    (destruct (Qltb (b_maxZ b) (v2 v)) eqn:E6;
     [apply Qltb_lt in E6 | apply Qltb_ge in E6]);
    repeat split; lra.
Qed.

Lemma fold_grow_bounds_inside (ps : list Vec3) :
  forall (b : Bounds) (seen : list Vec3),
    Forall (inside b) seen ->
    match fold_left grow_bounds ps (Some b) with
    | Some b' => Forall (inside b') (seen ++ ps)
    | None => False
    end.
Proof.
  induction ps as [| v ps IH]; intros b seen Hseen; cbn [fold_left].
  - rewrite app_nil_r. exact Hseen.
  - destruct (grow_bounds (Some b) v) as [b1 |] eqn:Hg;
      [| discriminate Hg].
    specialize (IH b1 (seen ++ [v])).
    rewrite <- app_assoc in IH. cbn [app] in IH. apply IH.
    apply Forall_app. split.
    + eapply Forall_impl; [| exact Hseen].
      intros u Hu. pose proof (grow_bounds_inside b v u Hu) as H.
      rewrite Hg in H. apply H.
    + constructor; [| constructor].
      destruct seen as [| u seen'].
      * clear Hseen. unfold grow_bounds in Hg. injection Hg as <-.
        unfold inside, Qgtb.
        cbn [b_minX b_maxX b_minY b_maxY b_minZ b_maxZ].
        destruct (Qltb (v0 v) (b_minX b)) eqn:E1;
          [apply Qltb_lt in E1 | apply Qltb_ge in E1];
          (destruct (Qltb (b_maxX b) (v0 v)) eqn:E2;
           [apply Qltb_lt in E2 | apply Qltb_ge in E2]);
          (destruct (Qltb (v1 v) (b_minY b)) eqn:E3;
           [apply Qltb_lt in E3 | apply Qltb_ge in E3]);
          (destruct (Qltb (b_maxY b) (v1 v)) eqn:E4;
           [apply Qltb_lt in E4 | apply Qltb_ge in E4]);
          (destruct (Qltb (v2 v) (b_minZ b)) eqn:E5;
           [apply Qltb_lt in E5 | apply Qltb_ge in E5]);
          (destruct (Qltb (b_maxZ b) (v2 v)) eqn:E6;
           [apply Qltb_lt in E6 | apply Qltb_ge in E6]);
          repeat split; lra.
      * inversion Hseen as [| ? ? Hu _]; subst.
        pose proof (grow_bounds_inside b v u Hu) as H.
        rewrite Hg in H. apply H.
Qed.

Lemma bounding_box_contains (ps : list Vec3) (b : Bounds) :
  bounding_box ps = Some b -> Forall (inside b) ps.
Proof.
  unfold bounding_box. destruct ps as [| v ps]; [discriminate |].
  cbn [fold_left grow_bounds]. intros Hb.
  pose proof (fold_grow_bounds_inside ps
                (mkBounds (v0 v) (v0 v) (v1 v) (v1 v) (v2 v) (v2 v)) [v])
    as H.
  rewrite Hb in H. apply H.
  constructor; [| constructor].
  unfold inside. cbn [b_minX b_maxX b_minY b_maxY b_minZ b_maxZ].
  repeat split; apply Qle_refl.
Qed.

(** X19.  The box the first loop of [normalizeModel] finds contains every
    vertex of the model; so after [normalizeModel] no vertex is below the
    ground [y = 0], and, in exact arithmetic (numbers are rationals here:
    the midpoints [(min + max) / 2] and the differences are not rounded),
    every vertex is within half the width and half the depth of the model
    from the axis [x = z = 0]. *)
Theorem normalized_model_stands_on_the_ground :
  forall (ps : list Vec3) (b : Bounds),
    bounding_box ps = Some b ->
    Forall (inside b) ps
    /\ Forall (fun v =>
                 0 <= v1 v
                 /\ Qabs (v0 v) <= (b_maxX b - b_minX b) / 2
                 /\ Qabs (v2 v) <= (b_maxZ b - b_minZ b) / 2)
              (normalizeModel ps).
Proof.
  intros ps b Hb. pose proof (bounding_box_contains ps b Hb) as Hin.
  split; [exact Hin |].
  rewrite (normalizeModel_shift ps b Hb).
  apply Forall_forall. intros v Hv. apply in_map_iff in Hv.
  destruct Hv as [u [<- Hu]].
  rewrite Forall_forall in Hin.
  destruct (Hin u Hu) as ((Hx1 & Hx2) & (Hy1 & Hy2) & (Hz1 & Hz2)).
  unfold shift_vertex, model_centre. cbn [v0 v1 v2 fst snd].
  split; [lra |].
  split; apply Qabs_Qle_condition; split;
    unfold Qdiv; change (/ 2) with (1 # 2); lra.
Qed.

Lemma normalized_model_stands_on_the_ground_witness :
  Forall (fun v => 0 <= v1 v /\ Qabs (v0 v) <= (4 - 0) / 2
                   /\ Qabs (v2 v) <= (1 - -1) / 2)
         (normalizeModel [(0, 3, -1); (4, 5, 1); (1, 7, 0)]).
Proof.
  apply (normalized_model_stands_on_the_ground
           [(0, 3, -1); (4, 5, 1); (1, 7, 0)]
           (mkBounds 0 4 3 7 (-1) 1)).
  reflexivity.
Defined.

Example normalizeModel_of_three_vertices :
  normalizeModel [(0, 3, -1); (4, 5, 1); (1, 7, 0)]
  = [(0 - (0 + 4) / 2, 3 - 3, -1 - (-1 + 1) / 2);
     (4 - (0 + 4) / 2, 5 - 3, 1 - (-1 + 1) / 2);
     (1 - (0 + 4) / 2, 7 - 3, 0 - (-1 + 1) / 2)].
Proof. reflexivity. Qed.

(** ** Keys *)

(** X20.  A key press can move or turn the player and switch the
    projection or the camera mode, and nothing else: the world, the session
    flags, the scroll position, the clock, the score and the page are as
    before; and the player's height, scale and model never change. *)
Theorem keyDown_touches_only_player_and_view :
  forall (event : KeyEvent) (g : Game),
    beyond_keys (keyDown event g) = beyond_keys g
    /\ p_y (player (keyDown event g)) = p_y (player g)
    /\ p_scale (player (keyDown event g)) = p_scale (player g)
    /\ p_modelIndex (player (keyDown event g)) = p_modelIndex (player g).
Proof.
  intros event g. unfold keyDown.
  destruct (ev_repeat event); [repeat split |].
  destruct (isPaused g) eqn:Hp; [repeat split |].
  destruct (_ =? "1")%string; [repeat split |].
  destruct (_ =? "2")%string; [repeat split |].
  destruct (_ =? "c")%string; [repeat split |].
  destruct (_ =? "w")%string; [destruct (negb _); repeat split |].
  destruct (_ =? "s")%string; [destruct (negb _); repeat split |].
  destruct (_ =? "a")%string; [destruct (_ && _); repeat split |].
  destruct (_ =? "d")%string; [destruct (_ && _); repeat split |].
  repeat split.
Qed.

(** ** Score text *)

(** X21.  When the page starts with the score text [0], along every run of
    the game, restarts included, the score text shows
    [floor((maxDistanceX - initialX) / step)], the furthest progress is
    never behind the spawn coordinate, and the score is never negative. *)
Theorem score_text_shows_best_progress :
  forall (rng : nat -> Q) (final0 : Z) (hidden0 : bool) (label0 : string)
         (es : list Event),
    let g := run rng (initial_game rng 0 final0 hidden0 label0) es in
    scoreText g = score g
    /\ initialX <= maxDistanceX g
    /\ (0 <= score g)%Z.
Proof.
  intros rng final0 hidden0 label0 es. cbv zeta.
  assert (H : scoreText (run rng (initial_game rng 0 final0 hidden0 label0)
                             es)
              = score (run rng (initial_game rng 0 final0 hidden0 label0) es)
              /\ initialX
                 <= maxDistanceX
                      (run rng (initial_game rng 0 final0 hidden0 label0)
                           es)).
  { assert (H0 : scoreText (initial_game rng 0 final0 hidden0 label0)
                 = score (initial_game rng 0 final0 hidden0 label0)
                 /\ initialX
                    <= maxDistanceX
                         (initial_game rng 0 final0 hidden0 label0)).
    { split; [reflexivity | apply Qle_refl]. }
    revert H0. generalize (initial_game rng 0 final0 hidden0 label0).
    unfold run. induction es as [| e es IH]; intros g [Hs Hm];
      cbn [fold_left]; [split; assumption |].
    apply IH.
    destruct e as [event | time aspect | |].
    - destruct (handle_score rng g (KeyDown event)) as [Hm' Hs'];
        [discriminate |].
      split; [apply Hs', Hs | eapply Qle_trans; eassumption].
    - destruct (handle_score rng g (Frame time aspect)) as [Hm' Hs'];
        [discriminate |].
      split; [apply Hs', Hs | eapply Qle_trans; eassumption].
    - destruct (handle_score rng g PauseClick) as [Hm' Hs'];
        [discriminate |].
      split; [apply Hs', Hs | eapply Qle_trans; eassumption].
    - cbn [handle]. split; [reflexivity | apply Qle_refl]. }
  revert H. generalize (run rng (initial_game rng 0 final0 hidden0 label0) es).
  intros g [Hs Hm]. split; [exact Hs |]. split; [exact Hm |].
  unfold score. change 0%Z with (Qfloor 0). apply Qfloor_resp_le.
  unfold Qdiv, step. change (/ 1) with 1. lra.
Qed.
